(** * freud: cubatic order parameter, AABB query entry point, Voronoi buffer

  A shallow embedding of

  - [cpp/order/CubaticOrderParameter.cc]
  - [cpp/locality/AABBQuery.h]
  - [cpp/voronoi/VoronoiBuffer.cc]

  The C++ [float] and [double] types are IEEE-754 binary32 and binary64
  with round-to-nearest-even, taken from the Standard Library's
  [SpecFloat].  Functions of the C++ run time whose rounding is not fixed
  by IEEE-754 ([exp], [acos], [cosf], [sinf]) and the classes of the
  repository that the three files only include ([Saru], [quat], [vec3]
  operations, [Index2D]) are the fields of the class [Environment]. *)

From Stdlib Require Import ZArith List Bool Lia String PeanoNat Permutation Sorted.
From Stdlib Require Import Floats.SpecFloat.
Import ListNotations.


(** ** Results of a C++ call *)

(** The exception classes of [<stdexcept>] that the three files throw. *)
Inductive exception : Type :=
| invalid_argument (what : string)
| runtime_error (what : string).

(** A call either returns, throws, runs into undefined behaviour (signed
  overflow, a float that does not fit an [int], a read outside an array)
  or, in the model only, exhausts the fuel given to a loop. *)
Inductive outcome (A : Type) : Type :=
| Returns (a : A)
| Throws (e : exception)
| Undefined
| OutOfFuel.

Arguments Returns {A} a.
Arguments Throws {A} e.
Arguments Undefined {A}.
Arguments OutOfFuel {A}.

Definition bind {A B : Type} (m : outcome A) (k : A -> outcome B) : outcome B :=
  match m with
  | Returns a => k a
  | Throws e => Throws e
  | Undefined => Undefined
  | OutOfFuel => OutOfFuel
  end.

Declare Scope outcome_scope.
Delimit Scope outcome_scope with outcome.
Notation "x <- m ;; k" := (bind m (fun x => k))
  (at level 61, m at next level, right associativity) : outcome_scope.

(** ** binary32: the C++ [float] *)

Module F32.
Local Open Scope Z_scope.

Definition prec : Z := 24.
Definition emax : Z := 128.

Definition float : Type := spec_float.

Definition zero : float := S754_zero false.
Definition nan : float := S754_nan.

Definition add : float -> float -> float := SFadd prec emax.
Definition sub : float -> float -> float := SFsub prec emax.
Definition mul : float -> float -> float := SFmul prec emax.
Definition div : float -> float -> float := SFdiv prec emax.
Definition sqrt : float -> float := SFsqrt prec emax.
Definition neg : float -> float := SFopp.

(** [a < b], [a <= b], [a > b], [a >= b]: all false on a NaN. *)
Definition ltb (a b : float) : bool := SFltb a b.
Definition leb (a b : float) : bool := SFleb a b.
Definition gtb (a b : float) : bool := SFltb b a.
Definition geb (a b : float) : bool := SFleb b a.

(** Conversion of an [int] or [unsigned int] to [float]. *)
Definition of_int (i : Z) : float := binary_normalize prec emax i 0 false.

Definition one : float := of_int 1.
Definition two : float := of_int 2.

Definition INT_MIN : Z := -2147483648.
Definition INT_MAX : Z := 2147483647.

(** Conversion of a [float] to [int]: the value is truncated toward zero;
    the behaviour is undefined ([None]) when the truncated value is not an
    [int], in particular for infinities and NaN. *)
Definition to_int (x : float) : option Z :=
  match x with
  | S754_zero _ => Some 0
  | S754_finite s m e =>
      let mag := match e with
                 | Z0 => Zpos m
                 | Zpos _ => Zpos m * 2 ^ e
                 | Zneg p => Zpos m / 2 ^ Zpos p
                 end in
      let n := cond_Zopp s mag in
      if (INT_MIN <=? n) && (n <=? INT_MAX) then Some n else None
  | S754_infinity _ | S754_nan => None
  end.

(** [ceil] of [<cmath>]: the least integral value not below [x]; it is
    exact, and keeps the sign of [x] when the result is zero. *)
Definition ceil (x : float) : float :=
  match x with
  | S754_finite s m (Zneg p) =>
      let q := - ((- cond_Zopp s (Zpos m)) / 2 ^ Zpos p) in
      if q =? 0 then S754_zero s else of_int q
  | _ => x
  end.

Definition is_nan (x : float) : bool :=
  match x with S754_nan => true | _ => false end.
End F32.

(** ** binary64: the C++ [double] *)

Module F64.
Local Open Scope Z_scope.

Definition prec : Z := 53.
Definition emax : Z := 1024.

Definition double : Type := spec_float.

Definition add : double -> double -> double := SFadd prec emax.
Definition sub : double -> double -> double := SFsub prec emax.
Definition mul : double -> double -> double := SFmul prec emax.
Definition div : double -> double -> double := SFdiv prec emax.

Definition ltb (a b : double) : bool := SFltb a b.
Definition leb (a b : double) : bool := SFleb a b.

Definition of_int (i : Z) : double := binary_normalize prec emax i 0 false.

(** The implicit promotion of a [float] operand to [double] (exact). *)
Definition of_f32 (x : F32.float) : double :=
  match x with
  | S754_finite s m e => binary_normalize prec emax (cond_Zopp s (Zpos m)) e s
  | _ => x
  end.

(** The conversion of a [double] to [float] on assignment (rounds). *)
Definition to_f32 (x : double) : F32.float :=
  match x with
  | S754_finite s m e =>
      binary_normalize F32.prec F32.emax (cond_Zopp s (Zpos m)) e s
  | _ => x
  end.

(** A decimal literal with value [n / d]: the nearest [double]. *)
Definition of_ratio (n d : Z) : double := div (of_int n) (of_int d).
End F64.

(** [vec3<float>] of [VectorMath.h]: three [float] members. *)
Record vec3 : Type := mkvec3 { vx : F32.float; vy : F32.float; vz : F32.float }.

(** ** [VoronoiBuffer::compute] *)

Module VoronoiBuffer.
Import F32.

(** What [VoronoiBuffer::compute] reads from [box::Box] through its
    getters ([Box.h] is only included). *)
Record Box : Type := mkBox {
  getLx : float;
  getLy : float;
  getLz : float;
  getTiltFactorXY : float;
  getTiltFactorXZ : float;
  getTiltFactorYZ : float;
  is2D : bool
}.

(** The two output vectors [m_buffer_particles] and [m_buffer_ids]. *)
Record buffers : Type := mkBuffers {
  buffer_parts : list vec3;
  buffer_ids : list nat
}.

Definition push_back (b : buffers) (img : vec3) (particle : nat) : buffers :=
  {| buffer_parts := buffer_parts b ++ [img];
     buffer_ids := buffer_ids b ++ [particle] |}.

(** [for (int i = lo; i <= bound; i++) body], with [bound] a [float]:
    the comparison converts [i] to [float]; [i++] overflows at
    [INT_MAX]. *)
Fixpoint for_int_from {S : Type} (fuel : nat) (i : Z) (bound : float)
    (body : Z -> S -> outcome S) (s : S) : outcome S :=
  match fuel with
  | O => OutOfFuel
  | Datatypes.S fuel' =>
      if leb (of_int i) bound then
        match body i s with
        | Returns s' =>
            if (i <? INT_MAX)%Z
            then for_int_from fuel' (i + 1)%Z bound body s'
            else Undefined
        | Throws e => Throws e
        | Undefined => Undefined
        | OutOfFuel => OutOfFuel
        end
      else Returns s
  end.

(** [for (int i = -ix; i <= ix; i++) body] with [float ix]. *)
Definition for_int {S : Type} (fuel : nat) (ix : float)
    (body : Z -> S -> outcome S) (s : S) : outcome S :=
  match to_int (neg ix) with
  | None => Undefined
  | Some lo => for_int_from fuel lo ix body s
  end.

(** [for (unsigned int particle = 0; particle < Np; particle++) body]. *)
Fixpoint for_particles {S : Type} (n : nat) (particle : nat)
    (body : nat -> S -> outcome S) (s : S) : outcome S :=
  match n with
  | O => Returns s
  | Datatypes.S n' =>
      match body particle s with
      | Returns s' => for_particles n' (Datatypes.S particle) body s'
      | Throws e => Throws e
      | Undefined => Undefined
      | OutOfFuel => OutOfFuel
      end
  end.

(** [0.5*l + buff]: the literal is a [double], so the sum is formed in
    [double] and rounded when it is stored in a [float]. *)
Definition half_plus_buff (l buff : float) : float :=
  F64.to_f32 (F64.add (F64.mul (F64.of_ratio 5 10) (F64.of_f32 l))
                      (F64.of_f32 buff)).

(** The image of [p] under [(i, j)] in a 2D box (lines 62-64). *)
Definition image2D (box : Box) (p : vec3) (i j : Z) : vec3 :=
  let lx := getLx box in
  let ly := getLy box in
  let xy := getTiltFactorXY box in
  {| vx := add (add (vx p) (mul (of_int i) lx)) (mul (mul (of_int j) ly) xy);
     vy := add (vy p) (mul (of_int j) ly);
     vz := zero |}.

(** The image of [p] under [(i, j, k)] in a 3D box (lines 81-83). *)
Definition image3D (box : Box) (p : vec3) (i j k : Z) : vec3 :=
  let lx := getLx box in
  let ly := getLy box in
  let lz := getLz box in
  let xy := getTiltFactorXY box in
  let xz := getTiltFactorXZ box in
  let yz := getTiltFactorYZ box in
  {| vx := add (add (add (vx p) (mul (of_int i) lx))
                    (mul (mul (of_int j) ly) xy))
               (mul (mul (of_int k) lz) xz);
     vy := add (add (vy p) (mul (of_int j) ly)) (mul (mul (of_int k) lz) yz);
     vz := add (vz p) (mul (of_int k) lz) |}.

(** The test of lines 67-68. *)
Definition within2D (box : Box) (buff : float) (img : vec3) : bool :=
  let lx_2_buff := half_plus_buff (getLx box) buff in
  let ly_2_buff := half_plus_buff (getLy box) buff in
  let xadj := mul (vy img) (getTiltFactorXY box) in
  ltb (vx img) (add lx_2_buff xadj)
  && gtb (vx img) (add (neg lx_2_buff) xadj)
  && ltb (vy img) ly_2_buff
  && gtb (vy img) (neg ly_2_buff).

(** The test of lines 87-89. *)
Definition within3D (box : Box) (buff : float) (img : vec3) : bool :=
  let lx_2_buff := half_plus_buff (getLx box) buff in
  let ly_2_buff := half_plus_buff (getLy box) buff in
  let lz_2_buff := half_plus_buff (getLz box) buff in
  let xadj := add (mul (vy img) (getTiltFactorXY box))
                  (mul (vz img) (getTiltFactorXZ box)) in
  let yadj := mul (vz img) (getTiltFactorYZ box) in
  ltb (vx img) (add lx_2_buff xadj)
  && gtb (vx img) (add (neg lx_2_buff) xadj)
  && ltb (vy img) (add ly_2_buff yadj)
  && gtb (vy img) (add (neg ly_2_buff) yadj)
  && ltb (vz img) lz_2_buff
  && gtb (vz img) (neg lz_2_buff).

(** Lines 58-96: the body of the [j] loop.  [points[particle]] is read
    where an image is formed (lines 62-63 and 81-83), inside the test on
    the offset; a read outside the array is undefined. *)
Definition body_j (fuel : nat) (box : Box) (buff : float) (iz : float)
    (points : list vec3) (particle : nat) (i j : Z) (b : buffers)
  : outcome buffers :=
  if is2D box then
    if negb (i =? 0)%Z || negb (j =? 0)%Z then
      match nth_error points particle with
      | None => Undefined
      | Some p =>
          let img := image2D box p i j in
          if within2D box buff img
          then Returns (push_back b img particle)
          else Returns b
      end
    else Returns b
  else
    for_int fuel iz
      (fun k b =>
         if negb ((i =? 0)%Z && (j =? 0)%Z && (k =? 0)%Z) then
           match nth_error points particle with
           | None => Undefined
           | Some p =>
               let img := image3D box p i j k in
               if within3D box buff img
               then Returns (push_back b img particle)
               else Returns b
           end
         else Returns b)
      b.

(** [VoronoiBuffer::compute(points, Np, buff)] on the box [m_box]; the
    two output vectors are replaced by fresh empty ones on entry, so the
    result depends on nothing else. *)
Definition compute (fuel : nat) (m_box : Box) (points : list vec3)
    (Np : nat) (buff : float) : outcome buffers :=
  let ix := ceil (div buff (getLx m_box)) in
  let iy := ceil (div buff (getLy m_box)) in
  let iz := ceil (div buff (getLz m_box)) in
  for_particles Np 0
    (fun particle b =>
       for_int fuel ix
         (fun i b =>
            for_int fuel iy
              (fun j b => body_j fuel m_box buff iz points particle i j b) b)
         b)
    {| buffer_parts := []; buffer_ids := [] |}.
End VoronoiBuffer.

(** ** [AABBQuery::query(point, k)] *)

Module AABBQuery.

Section Query.

(** The member types of [AABBQuery] and the iterator type, declared in
    headers that [AABBQuery.h] only includes. *)
Variables AABBTree AABB NeighborList Box SpatialDataIterator : Type.

Record AABBQuery : Type := mkAABBQuery {
  m_aabb_tree : AABBTree;
  m_Ntotal : Z;
  m_aabbs : list AABB;
  m_image_list : list vec3;
  m_n_images : Z;
  m_box : Box;
  m_rcut : F32.float;
  m_neighbor_list : NeighborList
}.

(** Lines 57-60: the two-argument overload
    [query(const vec3<float> point, unsigned int k) const]; its body is one
    [throw]. *)
Definition query (self : AABBQuery) (point : vec3) (k : Z)
  : outcome SpatialDataIterator :=
  Throws (runtime_error
    "AABBQuery k-nearest-neighbor queries must use the function signature that provides rmax and scale guesses.").

End Query.

Arguments query {AABBTree AABB NeighborList Box} SpatialDataIterator self point k.

End AABBQuery.

(** ** [CubaticOrderParameter.cc] *)

Module Cubatic.
Import F32.

(** [quat<float>] of [VectorMath.h]: a scalar and a vector part. *)
Record quat : Type := mkquat { qs : float; qv : vec3 }.

(** What [CubaticOrderParameter.cc] calls and does not define: functions of
    [<cmath>] whose rounding IEEE-754 leaves open, the quaternion algebra of
    [VectorMath.h], the random stream [Saru] and the index helper
    [Index2D] of [Index1D.h]. *)
Class Environment : Type := {
  (** [exp] at a [float] argument *)
  expf : float -> float;
  (** [acos] at a [double] argument *)
  acos : F64.double -> F64.double;
  cosf : float -> float;
  sinf : float -> float;
  (** [rotate(q, v)] *)
  rotate : quat -> vec3 -> vec3;
  (** [quat<float>::operator*] *)
  quat_mul : quat -> quat -> quat;
  (** [quat<float>::fromAxisAngle(axis, angle)] *)
  fromAxisAngle : vec3 -> float -> quat;
  (** the value a default-constructed [quat<float>] holds *)
  quat_default : quat;
  (** [dot(a, b)] on [vec3<float>] *)
  vec3_dot : vec3 -> vec3 -> float;
  (** [a /= b] on a [vec3<float>] and a [float]: the new value of [a] *)
  vec3_div : vec3 -> float -> vec3;
  (** the state of a [Saru] stream *)
  Saru : Type;
  (** [Saru(seed1, seed2, seed3)] *)
  Saru_new : Z -> Z -> Z -> Saru;
  (** [saru.s<float>(a, b)]: the draw and the advanced stream *)
  Saru_s : Saru -> float -> float -> float * Saru;
  (** [Index2D(w, h)(i, j)] *)
  Index2D : nat -> nat -> nat -> nat -> nat
}.

(** *** [tensor4] *)

(** [struct tensor4 { float data[81]; }] *)
Record tensor4 : Type := mktensor4 { data : list float }.

(** [data[i]] and [data[i] = x] for [i < 81]. *)
Definition get (d : list float) (i : nat) : float := nth i d zero.

Fixpoint set {A : Type} (d : list A) (i : nat) (x : A) : list A :=
  match d, i with
  | [], _ => []
  | _ :: d', O => x :: d'
  | y :: d', S i' => y :: set d' i' x
  end.

(** [for (unsigned int i = 0; i < n; i++) body]. *)
Definition for_range {S : Type} (n : nat) (body : nat -> S -> S) (s : S) : S :=
  fold_left (fun s i => body i s) (seq 0 n) s.

(** [memset(&data, 0, sizeof(float) * n)]: [n] floats [+0.0]. *)
Definition zeros (n : nat) : list float := repeat zero n.

(** Line 25: [tensor4::tensor4()]. *)
Definition tensor4_zero : tensor4 := {| data := zeros 81 |}.

(** Lines 29-50: [tensor4::tensor4(vec3<float> vector)].  The loop assigns
    all 81 elements, so what [data] holds before does not matter. *)
Definition tensor4_of_vec3 (vector : vec3) : tensor4 :=
  let v := [vx vector; vy vector; vz vector] in
  let fill :=
    for_range 3 (fun i =>
    for_range 3 (fun j =>
    for_range 3 (fun k =>
    for_range 3 (fun l '(cnt, d) =>
      (S cnt, set d cnt (mul (mul (mul (get v i) (get v j)) (get v k)) (get v l)))))))
    in
  {| data := snd (fill (0%nat, zeros 81)) |}.

(** Lines 58-65: [operator+=(const tensor4&)]. *)
Definition tensor4_add (a b : tensor4) : tensor4 :=
  {| data := for_range 81 (fun i d => set d i (add (get d i) (get (data b) i)))
                       (data a) |}.

(** Lines 67-74: [operator+=(const float&)]. *)
Definition tensor4_add_scalar (a : tensor4) (b : float) : tensor4 :=
  {| data := for_range 81 (fun i d => set d i (add (get d i) b)) (data a) |}.

(** Lines 76-84: [operator-(const tensor4&)]. *)
Definition tensor4_sub (a b : tensor4) : tensor4 :=
  {| data := for_range 81 (fun i c => set c i (sub (get (data a) i) (get (data b) i)))
                       (data tensor4_zero) |}.

(** Lines 86-93: [operator-=(const tensor4&)]. *)
Definition tensor4_sub_assign (a b : tensor4) : tensor4 :=
  {| data := for_range 81 (fun i d => set d i (sub (get d i) (get (data b) i)))
                       (data a) |}.

(** Lines 95-103: [operator*(const float&)]. *)
Definition tensor4_scale (a : tensor4) (b : float) : tensor4 :=
  {| data := for_range 81 (fun i c => set c i (mul (get (data a) i) b))
                       (data tensor4_zero) |}.

(** Lines 105-112: [operator*=(const float&)]. *)
Definition tensor4_scale_assign (a : tensor4) (b : float) : tensor4 :=
  {| data := for_range 81 (fun i d => set d i (mul (get d i) b)) (data a) |}.

(** Lines 114-117: [tensor4::reset()]. *)
Definition tensor4_reset (a : tensor4) : tensor4 := {| data := zeros 81 |}.

(** Lines 119-127: [dot(const tensor4&, const tensor4&)]. *)
Definition dot (a b : tensor4) : float :=
  for_range 81 (fun i c => add c (mul (get (data a) i) (get (data b) i))) zero.

(** Modelled from the spec: the array [identity] of [genR4Tensor] after its
    three stores, a [ManagedArray<float>({3, 3})] of [ManagedArray.h] (only
    included): the spec derives the reference tensor from the identity, so
    the elements off the diagonal are zero. *)
Definition identity (i j : nat) : float :=
  if Nat.eqb i j then of_int 1 else zero.

(** The [double] value of [2.0/5.0]. *)
Definition two_fifths : F64.double := F64.of_ratio 2 5.

(** Lines 130-156: [genR4Tensor()]. *)
Definition genR4Tensor : tensor4 :=
  let fill :=
    for_range 3 (fun i =>
    for_range 3 (fun j =>
    for_range 3 (fun k =>
    for_range 3 (fun l '(cnt, r4) =>
      let r4 := set r4 cnt (add (get r4 cnt) (mul (identity i j) (identity k l))) in
      let r4 := set r4 cnt (add (get r4 cnt) (mul (identity i k) (identity j l))) in
      let r4 := set r4 cnt (add (get r4 cnt) (mul (identity i l) (identity j k))) in
      let r4 := set r4 cnt (F64.to_f32 (F64.mul (F64.of_f32 (get r4 cnt)) two_fifths)) in
      (S cnt, r4)))))
    in
  {| data := snd (fill (0%nat, data tensor4_zero)) |}.

(** *** The class *)

Record CubaticOrderParameter : Type := mkCubatic {
  m_t_initial : float;
  m_t_final : float;
  m_scale : float;
  m_n : nat;
  m_replicates : nat;
  m_seed : Z;
  m_global_tensor : tensor4;
  m_cubatic_tensor : tensor4;
  m_gen_r4_tensor : tensor4;
  m_particle_tensor : list float;
  m_particle_order_parameter : list float;
  (** Two arrays of 81 floats; an element is [None] until it is written:
      the constructor allocates the arrays and clears none of their
      elements. *)
  m_sp_global_tensor : list (option float);
  m_sp_cubatic_tensor : list (option float);
  m_cubatic_orientation : quat;
  (** [None] until [compute] assigns it: the constructor leaves it
      indeterminate. *)
  m_cubatic_order_parameter : option float;
  m_system_vectors : list vec3
}.

(** The [double] value of the literal [1e-6]. *)
Definition lit_1em6 : F64.double := F64.of_ratio 1 1000000.

Section WithEnvironment.
Context {env : Environment}.

(** Lines 159-193: the constructor.  The three checks come first; nothing
    is allocated or computed before them.  [m_n] is 0, so the four calls
    of [memset] (lines 184-187) clear no byte: the two per-particle arrays
    are empty, and the 81 floats of each of [m_sp_global_tensor] and
    [m_sp_cubatic_tensor] stay as [new] left them. *)
Definition construct (t_initial t_final scale : float) (replicates : nat)
    (seed : Z) : outcome CubaticOrderParameter :=
  if ltb t_initial t_final then
    Throws (invalid_argument
      "CubaticOrderParameter requires that t_initial must be greater than t_final.")
  else if F64.ltb (F64.of_f32 t_final) lit_1em6 then
    Throws (invalid_argument
      "CubaticOrderParameter requires that t_final must be >= 1e-6.")
  else if gtb scale (of_int 1) || ltb scale (of_int 0) then
    Throws (invalid_argument
      "CubaticOrderParameter requires that scale must be between 0 and 1.")
  else
    Returns
      {| m_t_initial := t_initial;
         m_t_final := t_final;
         m_scale := scale;
         m_n := 0;
         m_replicates := replicates;
         m_seed := seed;
         m_global_tensor := tensor4_zero;
         m_cubatic_tensor := tensor4_zero;
         m_gen_r4_tensor := genR4Tensor;
         m_particle_tensor := zeros (0 * 81);
         m_particle_order_parameter := zeros 0;
         m_sp_global_tensor := repeat None 81;
         m_sp_cubatic_tensor := repeat None 81;
         m_cubatic_orientation := quat_default;
         m_cubatic_order_parameter := None;
         m_system_vectors :=
           [ mkvec3 (of_int 1) (of_int 0) (of_int 0);
             mkvec3 (of_int 0) (of_int 1) (of_int 0);
             mkvec3 (of_int 0) (of_int 0) (of_int 1) ] |}.

(** [m_system_vectors[i]] for [i < 3]. *)
Definition system_vector (self : CubaticOrderParameter) (i : nat) : vec3 :=
  nth i (m_system_vectors self) (mkvec3 zero zero zero).

(** Lines 195-211: [calcCubaticTensor]; the result is what [memcpy] leaves
    in [cubatic_tensor]. *)
Definition calcCubaticTensor (self : CubaticOrderParameter) (orientation : quat)
  : tensor4 :=
  let calculated_tensor := tensor4_zero in
  let calculated_tensor :=
    for_range 3 (fun i t =>
      tensor4_add t (tensor4_of_vec3 (rotate orientation (system_vector self i))))
      calculated_tensor in
  let calculated_tensor := tensor4_scale_assign calculated_tensor (of_int 2) in
  let calculated_tensor := tensor4_sub_assign calculated_tensor (m_gen_r4_tensor self) in
  calculated_tensor.

(** [1.0 - x] for a [float] [x], stored in a [float]: the literal makes the
    difference a [double]. *)
Definition one_minus (x : float) : float :=
  F64.to_f32 (F64.sub (F64.of_int 1) (F64.of_f32 x)).

(** Lines 213-219: [calcCubaticOrderParameter]; the result is what is
    stored in [cubatic_order_parameter]. *)
Definition calcCubaticOrderParameter (self : CubaticOrderParameter)
    (cubatic_tensor : tensor4) : float :=
  let l_cubatic_tensor := cubatic_tensor in
  let diff := tensor4_sub (m_global_tensor self) l_cubatic_tensor in
  one_minus (div (dot diff diff) (dot l_cubatic_tensor l_cubatic_tensor)).

(** [M_PI] of [<cmath>], a [double]. *)
Definition M_PI : F64.double := S754_finite false 7074237752028440 (-51).

(** Lines 221-230: [calcRandomQuaternion(saru, angle_multiplier)]; three
    draws, in this order. *)
Definition calcRandomQuaternion (saru : Saru) (angle_multiplier : float)
  : quat * Saru :=
  let '(theta, saru) :=
    Saru_s saru (of_int 0) (F64.to_f32 (F64.mul (F64.of_int 2) M_PI)) in
  let '(u, saru) := Saru_s saru (of_int 0) (of_int 1) in
  let phi :=
    F64.to_f32 (acos (F64.sub (F64.mul (F64.of_int 2) (F64.of_f32 u)) (F64.of_int 1))) in
  let axis :=
    mkvec3 (mul (cosf theta) (sinf phi)) (mul (sinf theta) (sinf phi)) (cosf phi) in
  let axis_norm := sqrt (vec3_dot axis axis) in
  let axis := vec3_div axis axis_norm in
  let '(w, saru) := Saru_s saru (of_int 0) (of_int 1) in
  let angle := mul angle_multiplier w in
  (fromAxisAngle axis angle, saru).

(** *** Arrays on the heap *)

(** [p[i]] on an array of [length p] elements; an access outside the array
    is undefined. *)
Definition read {A : Type} (p : list A) (i : nat) : outcome A :=
  match nth_error p i with
  | Some x => Returns x
  | None => Undefined
  end.

Definition write {A : Type} (p : list A) (i : nat) (x : A) : outcome (list A) :=
  if (i <? List.length p)%nat then Returns (set p i x) else Undefined.

(** [memcpy(&p[off], &src, sizeof(float) * n)] from a [tensor4]: [n]
    floats are copied, to [p[off]], ..., [p[off + n - 1]]. *)
Definition memcpy_to (p : list float) (off : nat) (src : list float) (n : nat)
  : outcome (list float) :=
  if (off + n <=? List.length p)%nat
  then Returns (for_range n (fun k p => set p (off + k) (get src k)) p)
  else Undefined.

(** [memcpy(&dst, &p[off], sizeof(float) * n)] into a [tensor4]. *)
Definition memcpy_from (p : list float) (off : nat) (n : nat)
  : outcome (list float) :=
  if (off + n <=? List.length p)%nat
  then Returns (map (fun k => get p (off + k)) (seq 0 n))
  else Undefined.

(** A loop over the indices [l], in order, whose body may fail. *)
Fixpoint for_each {I S : Type} (l : list I) (body : I -> S -> outcome S) (s : S)
  : outcome S :=
  match l with
  | [] => Returns s
  | i :: l' =>
      match body i s with
      | Returns s' => for_each l' body s'
      | Throws e => Throws e
      | Undefined => Undefined
      | OutOfFuel => OutOfFuel
      end
  end.

(** [while (cond) body]. *)
Fixpoint while {S : Type} (fuel : nat) (cond : S -> bool) (body : S -> S) (s : S)
  : outcome S :=
  match fuel with
  | O => OutOfFuel
  | Datatypes.S fuel' =>
      if cond s then while fuel' cond body (body s) else Returns s
  end.

Local Open Scope outcome_scope.

(** Lines 232-261: [calculatePerParticleTensor]; the new content of
    [m_particle_tensor].  The body keeps nothing from one [i] to the next
    and stores to row [i] only: the blocks of the [parallel_for] are run
    as one, in index order. *)
Definition calculatePerParticleTensor (self : CubaticOrderParameter)
    (orientations : list quat) : outcome (list float) :=
  for_each (seq 0 (m_n self))
    (fun i particle_tensor =>
       q <- read orientations i ;;
       let l_mbar :=
         for_range 3 (fun j l_mbar =>
           let v_r := rotate q (system_vector self j) in
           let r4_tensor := tensor4_of_vec3 v_r in
           tensor4_add l_mbar r4_tensor)
           tensor4_zero in
       let l_mbar := tensor4_scale_assign l_mbar (of_int 2) in
       for_each (seq 0 81)
         (fun j particle_tensor =>
            write particle_tensor (Index2D (m_n self) 81 i j) (get (data l_mbar) j))
         particle_tensor)
    (m_particle_tensor self).

(** Lines 263-287: [calculateGlobalTensor]; the new [m_global_tensor]. *)
Definition calculateGlobalTensor (self : CubaticOrderParameter)
  : outcome tensor4 :=
  let n_inv :=
    F64.to_f32 (F64.div (F64.of_int 1)
                        (F64.of_f32 (of_int (Z.of_nat (m_n self))))) in
  g <- for_each (seq 0 81)
         (fun i g =>
            tensor_value <-
              for_each (seq 0 (m_n self))
                (fun j tensor_value =>
                   x <- read (m_particle_tensor self) (Index2D (m_n self) 81 j i) ;;
                   Returns (add tensor_value x))
                zero ;;
            let tensor_value := mul tensor_value n_inv in
            Returns (set g i tensor_value))
         (data (m_global_tensor self)) ;;
  Returns (tensor4_sub_assign {| data := g |} (m_gen_r4_tensor self)).

(** *** One replicate: lines 331-377 *)

(** The local variables of the body of the replicate loop. *)
Record anneal_state : Type := mkAnneal {
  l_saru : Saru;
  cubatic_tensor : tensor4;
  new_cubatic_tensor : tensor4;
  cubatic_orientation : quat;
  current_orientation : quat;
  cubatic_order_parameter : float;
  new_order_parameter : float;
  t_current : float;
  loop_count : Z
}.

(** Lines 331-343: the state on entry to the [while] loop. *)
Definition anneal_init (self : CubaticOrderParameter) (saru : Saru)
  : anneal_state :=
  let '(q, saru) := calcRandomQuaternion saru (F64.to_f32 (F64.of_int 1)) in
  let tensor := calcCubaticTensor self q in
  let op := calcCubaticOrderParameter self tensor in
  {| l_saru := saru;
     cubatic_tensor := tensor;
     new_cubatic_tensor := tensor4_zero;
     cubatic_orientation := q;
     current_orientation := q;
     cubatic_order_parameter := op;
     new_order_parameter := op;
     t_current := m_t_initial self;
     loop_count := 0 |}.

(** Line 345: [(t_current > m_t_final) && (loop_count < 10000)]. *)
Definition anneal_cond (self : CubaticOrderParameter) (st : anneal_state) : bool :=
  gtb (t_current st) (m_t_final self) && (loop_count st <? 10000)%Z.

(** Lines 354-357 and 366-369 followed by line 376: the proposal replaces
    the current state and the temperature is cooled. *)
Definition accept (self : CubaticOrderParameter) (st : anneal_state) : anneal_state :=
  {| l_saru := l_saru st;
     cubatic_tensor := new_cubatic_tensor st;
     new_cubatic_tensor := new_cubatic_tensor st;
     cubatic_orientation := current_orientation st;
     current_orientation := current_orientation st;
     cubatic_order_parameter := new_order_parameter st;
     new_order_parameter := new_order_parameter st;
     t_current := mul (t_current st) (m_scale self);
     loop_count := loop_count st |}.

(** Lines 347-351: the counter, an [unsigned int], is advanced and a
    proposal is drawn and evaluated. *)
Definition propose (self : CubaticOrderParameter) (st : anneal_state) : anneal_state :=
  let '(dq, saru) := calcRandomQuaternion (l_saru st) (F64.to_f32 (F64.of_ratio 1 10)) in
  let current := quat_mul dq (cubatic_orientation st) in
  let tensor := calcCubaticTensor self current in
  {| l_saru := saru;
     cubatic_tensor := cubatic_tensor st;
     new_cubatic_tensor := tensor;
     cubatic_orientation := cubatic_orientation st;
     current_orientation := current;
     cubatic_order_parameter := cubatic_order_parameter st;
     new_order_parameter := calcCubaticOrderParameter self tensor;
     t_current := t_current st;
     loop_count := ((loop_count st + 1) mod 2 ^ 32)%Z |}.

(** Lines 361-363: the Boltzmann factor and the test value, which is one
    more draw from the stream. *)
Definition boltzmann_factor (st : anneal_state) : float :=
  expf (div (neg (sub (cubatic_order_parameter st) (new_order_parameter st)))
            (t_current st)).

Definition draw_test_value (st : anneal_state) : float * anneal_state :=
  let '(test_value, saru) := Saru_s (l_saru st) (of_int 0) (of_int 1) in
  (test_value,
   {| l_saru := saru;
      cubatic_tensor := cubatic_tensor st;
      new_cubatic_tensor := new_cubatic_tensor st;
      cubatic_orientation := cubatic_orientation st;
      current_orientation := current_orientation st;
      cubatic_order_parameter := cubatic_order_parameter st;
      new_order_parameter := new_order_parameter st;
      t_current := t_current st;
      loop_count := loop_count st |}).

(** Lines 347-376: one round of the [while] loop. *)
Definition anneal_body (self : CubaticOrderParameter) (st : anneal_state)
  : anneal_state :=
  let st := propose self st in
  if gtb (new_order_parameter st) (cubatic_order_parameter st) then
    accept self st
  else
    let bf := boltzmann_factor st in
    let '(test_value, st) := draw_test_value st in
    if geb bf test_value then accept self st
    else st.

(** Lines 331-377: one replicate, drawing from [saru]. *)
Definition run_replicate (fuel : nat) (self : CubaticOrderParameter) (saru : Saru)
  : outcome anneal_state :=
  while fuel (anneal_cond self) (anneal_body self) (anneal_init self saru).

(** *** The replicate loop: lines 311-385 *)

(** A [tbb::blocked_range<size_t>]: the indices from [r_begin] up to, not
    including, [r_end]. *)
Record blocked_range : Type := mkRange { r_begin : nat; r_end : nat }.

(** The three arrays the replicates write to. *)
Record replicate_arrays : Type := mkArrays {
  p_cubatic_tensor : list float;
  p_cubatic_order_parameter : list float;
  p_cubatic_orientation : list quat
}.

(** Lines 378-383: replicate [i] stores its result. *)
Definition store_replicate (self : CubaticOrderParameter) (i : nat)
    (st : anneal_state) (p : replicate_arrays) : outcome replicate_arrays :=
  pt <- memcpy_to (p_cubatic_tensor p) (Index2D (m_replicates self) 81 i 0)
                  (data (cubatic_tensor st)) 81 ;;
  pq <- write (p_cubatic_orientation p) i (cubatic_orientation st) ;;
  po <- write (p_cubatic_order_parameter p) i (cubatic_order_parameter st) ;;
  Returns {| p_cubatic_tensor := pt;
             p_cubatic_order_parameter := po;
             p_cubatic_orientation := pq |}.

(** Lines 329-384: the body of the loop over the indices of a block; the
    stream [l_saru] of the block is carried from one replicate to the
    next. *)
Definition replicate_step (fuel : nat) (self : CubaticOrderParameter) (i : nat)
    (sp : Saru * replicate_arrays) : outcome (Saru * replicate_arrays) :=
  let '(saru, p) := sp in
  st <- run_replicate fuel self saru ;;
  p <- store_replicate self i st p ;;
  Returns (l_saru st, p).

(** Lines 321-385: the body of the [parallel_for] on one block [r].  The
    stream is created once per block, from the first index of the block,
    and the replicates of the block draw from it one after the other. *)
Definition replicate_block (fuel : nat) (self : CubaticOrderParameter)
    (r : blocked_range) (p : replicate_arrays) : outcome replicate_arrays :=
  let thread_start := r_begin r in
  let saru := Saru_new (m_seed self) (Z.of_nat thread_start) 0xffaabb in
  sp <- for_each (seq (r_begin r) (r_end r - r_begin r))
          (replicate_step fuel self) (saru, p) ;;
  Returns (snd sp).

(** [parallel_for(blocked_range<size_t>(0, m_replicates), body)]: TBB cuts
    the range into blocks and calls the body on each; [schedule] lists the
    blocks in the order in which they are run. *)
Definition parallel_for_replicates (fuel : nat) (self : CubaticOrderParameter)
    (schedule : list blocked_range) (p : replicate_arrays)
  : outcome replicate_arrays :=
  for_each schedule (replicate_block fuel self) p.

(** Lines 387-397: the index of the replicate that is kept. *)
Definition select_max (replicates : nat) (order_parameter : list float)
  : outcome nat :=
  let max_idx := 0%nat in
  max_cubatic_order_parameter <- read order_parameter max_idx ;;
  r <- for_each (seq 1 (replicates - 1))
         (fun i '(max_idx, max_cubatic_order_parameter) =>
            x <- read order_parameter i ;;
            if gtb x max_cubatic_order_parameter
            then Returns (i, x)
            else Returns (max_idx, max_cubatic_order_parameter))
         (max_idx, max_cubatic_order_parameter) ;;
  Returns (fst r).

(** Lines 407-423: the per-particle order parameters. *)
Definition calculatePerParticleOrderParameter (self : CubaticOrderParameter)
    (orientations : list quat) : outcome (list float) :=
  for_each (seq 0 (m_n self))
    (fun i particle_order_parameter =>
       l_orientation <- read orientations i ;;
       let l_particle_tensor := calcCubaticTensor self l_orientation in
       let l_particle_op := calcCubaticOrderParameter self l_particle_tensor in
       write particle_order_parameter i l_particle_op)
    (m_particle_order_parameter self).

Definition with_particle_tensor (self : CubaticOrderParameter) (pt : list float)
  : CubaticOrderParameter :=
  {| m_t_initial := m_t_initial self; m_t_final := m_t_final self;
     m_scale := m_scale self; m_n := m_n self;
     m_replicates := m_replicates self; m_seed := m_seed self;
     m_global_tensor := m_global_tensor self;
     m_cubatic_tensor := m_cubatic_tensor self;
     m_gen_r4_tensor := m_gen_r4_tensor self;
     m_particle_tensor := pt;
     m_particle_order_parameter := m_particle_order_parameter self;
     m_sp_global_tensor := m_sp_global_tensor self;
     m_sp_cubatic_tensor := m_sp_cubatic_tensor self;
     m_cubatic_orientation := m_cubatic_orientation self;
     m_cubatic_order_parameter := m_cubatic_order_parameter self;
     m_system_vectors := m_system_vectors self |}.

Definition with_global_tensor (self : CubaticOrderParameter) (g : tensor4)
  : CubaticOrderParameter :=
  {| m_t_initial := m_t_initial self; m_t_final := m_t_final self;
     m_scale := m_scale self; m_n := m_n self;
     m_replicates := m_replicates self; m_seed := m_seed self;
     m_global_tensor := g;
     m_cubatic_tensor := m_cubatic_tensor self;
     m_gen_r4_tensor := m_gen_r4_tensor self;
     m_particle_tensor := m_particle_tensor self;
     m_particle_order_parameter := m_particle_order_parameter self;
     m_sp_global_tensor := m_sp_global_tensor self;
     m_sp_cubatic_tensor := m_sp_cubatic_tensor self;
     m_cubatic_orientation := m_cubatic_orientation self;
     m_cubatic_order_parameter := m_cubatic_order_parameter self;
     m_system_vectors := m_system_vectors self |}.

(** Lines 291-301: [m_n] is set to [n] and the three arrays are cleared.
    The two products are [unsigned int]: when one wraps, the array is
    shorter than what [memset] clears. *)
Definition reset (self : CubaticOrderParameter) (n : nat)
  : outcome CubaticOrderParameter :=
  if (Z.of_nat n * 81 <? 2 ^ 32)%Z then
    Returns
      {| m_t_initial := m_t_initial self; m_t_final := m_t_final self;
         m_scale := m_scale self; m_n := n;
         m_replicates := m_replicates self; m_seed := m_seed self;
         m_global_tensor := tensor4_zero;
         m_cubatic_tensor := m_cubatic_tensor self;
         m_gen_r4_tensor := m_gen_r4_tensor self;
         m_particle_tensor := zeros (n * 81);
         m_particle_order_parameter := zeros n;
         m_sp_global_tensor := m_sp_global_tensor self;
         m_sp_cubatic_tensor := m_sp_cubatic_tensor self;
         m_cubatic_orientation := m_cubatic_orientation self;
         m_cubatic_order_parameter := m_cubatic_order_parameter self;
         m_system_vectors := m_system_vectors self |}
  else Undefined.

(** Lines 311-319: the three arrays of the replicates, cleared. *)
Definition new_replicate_arrays (self : CubaticOrderParameter)
  : outcome replicate_arrays :=
  if (Z.of_nat (m_replicates self) * 81 <? 2 ^ 32)%Z then
    Returns
      {| p_cubatic_tensor := zeros (m_replicates self * 81);
         p_cubatic_order_parameter := zeros (m_replicates self);
         p_cubatic_orientation :=
           repeat (mkquat zero (mkvec3 zero zero zero)) (m_replicates self) |}
  else Undefined.

(** Lines 399-405: the result of replicate [max_idx] is copied to the
    members. *)
Definition keep_replicate (self : CubaticOrderParameter) (p : replicate_arrays)
    (max_idx : nat) : outcome CubaticOrderParameter :=
  t <- memcpy_from (p_cubatic_tensor p) (Index2D (m_replicates self) 81 max_idx 0) 81 ;;
  q <- read (p_cubatic_orientation p) max_idx ;;
  o <- read (p_cubatic_order_parameter p) max_idx ;;
  Returns
    {| m_t_initial := m_t_initial self; m_t_final := m_t_final self;
       m_scale := m_scale self; m_n := m_n self;
       m_replicates := m_replicates self; m_seed := m_seed self;
       m_global_tensor := m_global_tensor self;
       m_cubatic_tensor := {| data := t |};
       m_gen_r4_tensor := m_gen_r4_tensor self;
       m_particle_tensor := m_particle_tensor self;
       m_particle_order_parameter := m_particle_order_parameter self;
       m_sp_global_tensor := m_sp_global_tensor self;
       m_sp_cubatic_tensor := m_sp_cubatic_tensor self;
       m_cubatic_orientation := q;
       m_cubatic_order_parameter := Some o;
       m_system_vectors := m_system_vectors self |}.

Definition with_particle_order_parameter (self : CubaticOrderParameter)
    (po : list float) : CubaticOrderParameter :=
  {| m_t_initial := m_t_initial self; m_t_final := m_t_final self;
     m_scale := m_scale self; m_n := m_n self;
     m_replicates := m_replicates self; m_seed := m_seed self;
     m_global_tensor := m_global_tensor self;
     m_cubatic_tensor := m_cubatic_tensor self;
     m_gen_r4_tensor := m_gen_r4_tensor self;
     m_particle_tensor := m_particle_tensor self;
     m_particle_order_parameter := po;
     m_sp_global_tensor := m_sp_global_tensor self;
     m_sp_cubatic_tensor := m_sp_cubatic_tensor self;
     m_cubatic_orientation := m_cubatic_orientation self;
     m_cubatic_order_parameter := m_cubatic_order_parameter self;
     m_system_vectors := m_system_vectors self |}.

(** Lines 289-424: [compute(orientations, n)].  [schedule] is the way TBB
    cuts and runs the replicate range in this call; [fuel] bounds the
    rounds of each [while] loop. *)
Definition compute (fuel : nat) (schedule : list blocked_range)
    (self : CubaticOrderParameter) (orientations : list quat) (n : nat)
  : outcome CubaticOrderParameter :=
  self <- reset self n ;;
  pt <- calculatePerParticleTensor self orientations ;;
  let self := with_particle_tensor self pt in
  g <- calculateGlobalTensor self ;;
  let self := with_global_tensor self g in
  p <- new_replicate_arrays self ;;
  p <- parallel_for_replicates fuel self schedule p ;;
  max_idx <- select_max (m_replicates self) (p_cubatic_order_parameter p) ;;
  self <- keep_replicate self p max_idx ;;
  po <- calculatePerParticleOrderParameter self orientations ;;
  Returns (with_particle_order_parameter self po).

End WithEnvironment.

End Cubatic.
(** * Vocabulary of the statements *)

(** ** The order of IEEE-754 comparisons *)

Module FloatOrder.
Local Open Scope Z_scope.

(** The place of a float that is not a NaN in the order of [SFcompare]: a
    class (infinities, negative, zero, positive), then exponent and
    mantissa, both negated for a negative float. *)
Definition key (x : spec_float) : option (Z * Z * Z) :=
  match x with
  | S754_nan => None
  | S754_infinity true => Some (-2, 0, 0)
  | S754_infinity false => Some (2, 0, 0)
  | S754_zero _ => Some (0, 0, 0)
  | S754_finite true m e => Some (-1, - e, Zneg m)
  | S754_finite false m e => Some (1, e, Zpos m)
  end.

Definition lex_compare (a b : Z * Z * Z) : comparison :=
  let '(a1, a2, a3) := a in
  let '(b1, b2, b3) := b in
  match a1 ?= b1 with
  | Eq => match a2 ?= b2 with
          | Eq => a3 ?= b3
          | c => c
          end
  | c => c
  end.

Definition lex_lt (a b : Z * Z * Z) : Prop :=
  let '(a1, a2, a3) := a in
  let '(b1, b2, b3) := b in
  a1 < b1 \/ (a1 = b1 /\ (a2 < b2 \/ (a2 = b2 /\ a3 < b3))).

(** [x < y] and [x <= y] as IEEE-754 has them: false when one is a NaN. *)
Definition lt (x y : spec_float) : Prop :=
  exists a b, key x = Some a /\ key y = Some b /\ lex_lt a b.

Definition le (x y : spec_float) : Prop :=
  exists a b, key x = Some a /\ key y = Some b /\ (lex_lt a b \/ a = b).

Definition is_number (x : spec_float) : Prop := key x <> None.

End FloatOrder.

(** ** What [VoronoiBuffer::compute] emits *)

Module VoronoiSpec.
Import F32 VoronoiBuffer.

(** Every loop of [compute] is over an [int] or an [unsigned int]: 2^32
    rounds of fuel are enough for each. *)
Definition enough_fuel (fuel : nat) : Prop := (2 ^ 32 <= Z.of_nat fuel)%Z.

(** An entry [(img, id)] of the output: [id] indexes an input point [p],
    and [img] is the image of [p] under a nonzero [(i, j)] (2D) or
    [(i, j, k)] (3D) that passed the buffer test. *)
Definition emitted (box : Box) (points : list vec3) (Np : nat) (buff : float)
    (img : vec3) (id : nat) : Prop :=
  (id < Np)%nat /\
  exists p, nth_error points id = Some p /\
    if is2D box then
      exists i j : Z,
        (i <> 0 \/ j <> 0)%Z /\ img = image2D box p i j /\
        within2D box buff img = true
    else
      exists i j k : Z,
        ~ (i = 0 /\ j = 0 /\ k = 0)%Z /\ img = image3D box p i j k /\
        within3D box buff img = true.

Definition buffers_ok (box : Box) (points : list vec3) (Np : nat)
    (buff : float) (b : buffers) : Prop :=
  Forall2 (emitted box points Np buff) (buffer_parts b) (buffer_ids b).

(** The same box with another third edge. *)
Definition with_third_edge (box : Box) (lz xz yz : float) : Box :=
  {| getLx := getLx box; getLy := getLy box; getLz := lz;
     getTiltFactorXY := getTiltFactorXY box;
     getTiltFactorXZ := xz; getTiltFactorYZ := yz;
     is2D := is2D box |}.

(** [img] is [p] translated by [i*a1 + j*a2 + k*a3], not all of [i], [j],
    [k] zero, for the edge vectors [a1 = (Lx, 0, 0)], [a2 = (xy*Ly, Ly, 0)]
    and [a3 = (xz*Lz, yz*Lz, Lz)] of the box. *)
Definition lattice_image (box : Box) (p img : vec3) : Prop :=
  exists i j k : Z, ~ (i = 0 /\ j = 0 /\ k = 0)%Z /\ img = image3D box p i j k.

(** [img] is [p] translated in the plane by [i*a1 + j*a2], not both of
    [i], [j] zero, with its third coordinate set to [+0.0]. *)
Definition plane_image (box : Box) (p img : vec3) : Prop :=
  exists i j : Z, (i <> 0 \/ j <> 0)%Z /\ img = image2D box p i j.

(** The two output vectors have one length, every id is below [Np], and
    every entry is related by [image] to the input point of its id. *)
Definition entries (image : vec3 -> vec3 -> Prop) (points : list vec3)
    (Np : nat) (b : buffers) : Prop :=
  List.length (buffer_parts b) = List.length (buffer_ids b) /\
  Forall (fun id => (id < Np)%nat) (buffer_ids b) /\
  Forall2 (fun img id => exists p, nth_error points id = Some p /\ image p img)
          (buffer_parts b) (buffer_ids b).

(** A 2D box of side 10 (its [Lz] is 0), a 3D box of side 10, and two
    points. *)
Definition box2D : Box :=
  mkBox (of_int 10) (of_int 10) zero zero zero zero true.

Definition box3D : Box :=
  mkBox (of_int 10) (of_int 10) (of_int 10) zero zero zero false.

Definition two_points : list vec3 :=
  [ mkvec3 (of_int 4) (of_int 4) (of_int 1);
    mkvec3 (of_int (-4)) zero zero ].

(** What [compute] returns on them with a buffer of width 2. *)
Definition buffers_of (r : outcome buffers) : buffers :=
  match r with
  | Returns b => b
  | _ => {| buffer_parts := []; buffer_ids := [] |}
  end.

Definition out2D : buffers :=
  Eval vm_compute in buffers_of (compute 8 box2D two_points 2 (of_int 2)).

Definition out3D : buffers :=
  Eval vm_compute in buffers_of (compute 8 box3D two_points 2 (of_int 2)).

(** *** The loops of [compute] *)

(** The bounds of the three image loops (lines 42-44). *)
Definition ix (box : Box) (buff : float) : float := ceil (div buff (getLx box)).
Definition iy (box : Box) (buff : float) : float := ceil (div buff (getLy box)).
Definition iz (box : Box) (buff : float) : float := ceil (div buff (getLz box)).

(** The loop [for (int i = -x; i <= x; i++)] reaches [i]: [-x] converts to
    an [int] not above [i], and the test [i' <= x] holds from there up to
    [i]. *)
Definition visited (x : float) (i : Z) : Prop :=
  exists lo, to_int (neg x) = Some lo /\ (lo <= i)%Z /\
    forall i', (lo <= i' <= i)%Z -> leb (of_int i') x = true.

(** The loop [for (int i = -x; i <= x; i++)] runs without a conversion or
    an increment that overflows: [-x] converts to an [int], and
    [(float) INT_MAX <= x] is false. *)
Definition loop_bound_ok (x : float) : Prop :=
  (exists lo, to_int (neg x) = Some lo) /\ leb (of_int INT_MAX) x = false.

(** The entries of the two output vectors, paired. *)
Definition pairs (b : buffers) : list (vec3 * nat) :=
  combine (buffer_parts b) (buffer_ids b).

(** [b'] is [b] with entries pushed at the back of both vectors. *)
Definition grows (b b' : buffers) : Prop :=
  exists ps ids,
    List.length ps = List.length ids /\
    buffer_parts b' = buffer_parts b ++ ps /\
    buffer_ids b' = buffer_ids b ++ ids.

(** The ids in the output are in ascending order, all below [k]. *)
Definition ascending_below (k : nat) (b : buffers) : Prop :=
  StronglySorted le (buffer_ids b) /\ Forall (fun id => (id < k)%nat) (buffer_ids b).

(** A box length that is neither zero nor a NaN. *)
Definition nonzero_length (l : float) : Prop :=
  match l with
  | S754_finite _ _ _ | S754_infinity _ => True
  | S754_zero _ | S754_nan => False
  end.

(** A box of side 10 whose first edge has length zero. *)
Definition flat_box : Box :=
  mkBox zero (of_int 10) (of_int 10) zero zero zero false.

(** An entry [(img, id)] of the output, with the loop rounds that made it:
    [img] is the image of point [id] under a nonzero offset that the loops
    reach, and it passed the buffer test. *)
Definition tested (box : Box) (points : list vec3) (Np : nat) (buff : float)
    (img : vec3) (id : nat) : Prop :=
  (id < Np)%nat /\
  exists p, nth_error points id = Some p /\
    if is2D box then
      exists i j : Z,
        visited (ix box buff) i /\ visited (iy box buff) j /\
        (i <> 0 \/ j <> 0)%Z /\ img = image2D box p i j /\
        within2D box buff img = true
    else
      exists i j k : Z,
        visited (ix box buff) i /\ visited (iy box buff) j /\
        visited (iz box buff) k /\
        ~ (i = 0 /\ j = 0 /\ k = 0)%Z /\ img = image3D box p i j k /\
        within3D box buff img = true.

End VoronoiSpec.


(** ** What the cubatic order parameter computes *)

Module CubaticSpec.
Import F32 Cubatic.

(** [scale] lies in the open interval (0, 1). *)
Definition in_open_unit (scale : float) : Prop :=
  gtb scale (of_int 0) = true /\ ltb scale (of_int 1) = true.

(** The Kronecker delta. *)
Definition delta (i j : nat) : Z := if Nat.eqb i j then 1%Z else 0%Z.

(** The place of component [(i, j, k, l)] among the 81 of a [tensor4]. *)
Definition flat (i j k l : nat) : nat := 27 * i + 9 * j + 3 * k + l.

(** Component [i] of a vector and component [(i, j, k, l)] of the rank-4
    outer product of [v] with itself. *)
Definition component (v : vec3) (i : nat) : float :=
  get [vx v; vy v; vz v] i.

Definition outer4 (v : vec3) (i j k l : nat) : float :=
  mul (mul (mul (component v i) (component v j)) (component v k)) (component v l).

(** The three basis vectors. *)
Definition basis (a : nat) : vec3 :=
  match a with
  | 0%nat => mkvec3 (of_int 1) (of_int 0) (of_int 0)
  | 1%nat => mkvec3 (of_int 0) (of_int 1) (of_int 0)
  | _ => mkvec3 (of_int 0) (of_int 0) (of_int 1)
  end.

(** Sums of floats, from the left and from [+0.0], as the loops form them. *)
Definition sum_over (n : nat) (f : nat -> float) : float :=
  fold_left (fun c i => add c (f i)) (seq 0 n) zero.

(** Component [(i, j, k, l)] of the isotropic reference tensor:
    [(delta_ij delta_kl + delta_ik delta_jl + delta_il delta_jk) * 2/5],
    the quotient [2/5] and the product formed in [double] and the result
    rounded to [float]. *)
Definition reference (i j k l : nat) : float :=
  F64.to_f32
    (F64.mul (F64.of_int (delta i j * delta k l + delta i k * delta j l
                          + delta i l * delta j k)%Z)
             (F64.div (F64.of_int 2) (F64.of_int 5))).

(** *** A stand-in environment, to run the model

    The formulas of [VectorMath.h] in [float] arithmetic, truncated series
    for the functions of [<cmath>], a linear congruential generator for
    [Saru], and one row of [h] elements per first index for [Index2D]. *)

Definition cross (a b : vec3) : vec3 :=
  mkvec3 (sub (mul (vy a) (vz b)) (mul (vz a) (vy b)))
         (sub (mul (vz a) (vx b)) (mul (vx a) (vz b)))
         (sub (mul (vx a) (vy b)) (mul (vy a) (vx b))).

Definition vdot (a b : vec3) : float :=
  add (add (mul (vx a) (vx b)) (mul (vy a) (vy b))) (mul (vz a) (vz b)).

Definition vscale (c : float) (a : vec3) : vec3 :=
  mkvec3 (mul c (vx a)) (mul c (vy a)) (mul c (vz a)).

Definition vadd (a b : vec3) : vec3 :=
  mkvec3 (add (vx a) (vx b)) (add (vy a) (vy b)) (add (vz a) (vz b)).

Definition sample_rotate (a : quat) (b : vec3) : vec3 :=
  vadd (vadd (vscale (sub (mul (qs a) (qs a)) (vdot (qv a) (qv a))) b)
             (vscale (mul (of_int 2) (qs a)) (cross (qv a) b)))
       (vscale (mul (of_int 2) (vdot (qv a) b)) (qv a)).

Definition sample_quat_mul (a b : quat) : quat :=
  mkquat (sub (mul (qs a) (qs b)) (vdot (qv a) (qv b)))
         (vadd (vadd (vscale (qs a) (qv b)) (vscale (qs b) (qv a)))
               (cross (qv a) (qv b))).

Definition sample_cos (x : float) : float :=
  sub (of_int 1) (div (mul x x) (of_int 2)).

Definition sample_sin (x : float) : float :=
  sub x (div (mul (mul x x) x) (of_int 6)).

Definition sample_exp (x : float) : float := add (of_int 1) x.

Definition sample_acos (x : F64.double) : F64.double :=
  F64.sub (F64.of_ratio 11 7) x.

Definition sample_fromAxisAngle (axis : vec3) (angle : float) : quat :=
  mkquat (sample_cos (div angle (of_int 2)))
         (vscale (sample_sin (div angle (of_int 2))) axis).

Definition lcg (s : Z) : Z := ((s * 1103515245 + 12345) mod 2147483648)%Z.

Definition lcg_s (s : Z) (a b : float) : float * Z :=
  (add a (mul (sub b a) (div (of_int ((s / 65536) mod 1024)) (of_int 1024))),
   lcg s).

Definition sample_env : Environment :=
  {| expf := sample_exp;
     acos := sample_acos;
     cosf := sample_cos;
     sinf := sample_sin;
     rotate := sample_rotate;
     quat_mul := sample_quat_mul;
     fromAxisAngle := sample_fromAxisAngle;
     quat_default := mkquat (of_int 1) (mkvec3 zero zero zero);
     vec3_dot := vdot;
     vec3_div := fun a b => mkvec3 (div (vx a) b) (div (vy a) b) (div (vz a) b);
     Saru := Z;
     Saru_new := fun a b c => lcg (a + 7919 * b + c)%Z;
     Saru_s := lcg_s;
     Index2D := fun w h i j => (i * h + j)%nat |}.

(** An object built with [t_initial = 2], [t_final = 1], [scale = 1/4],
    two replicates and seed 42, and two orientations. *)
Definition object_of (r : outcome CubaticOrderParameter) : CubaticOrderParameter :=
  match r with
  | Returns o => o
  | _ => mkCubatic zero zero zero 0 0 0 tensor4_zero tensor4_zero tensor4_zero
                   [] [] [] [] (mkquat zero (mkvec3 zero zero zero)) None []
  end.

Definition sample_object : CubaticOrderParameter :=
  Eval vm_compute in
    object_of (construct (env := sample_env) (of_int 2) (of_int 1)
                         (div (of_int 1) (of_int 4)) 2 42).

(** The objects a program can hold: built by the constructor, then passed
    through any number of calls of [compute]. *)
Inductive reachable {env : Environment} : CubaticOrderParameter -> Prop :=
| reach_construct t_initial t_final scale replicates seed self :
    construct t_initial t_final scale replicates seed = Returns self ->
    reachable self
| reach_compute fuel schedule self orientations n self' :
    reachable self ->
    compute fuel schedule self orientations n = Returns self' ->
    reachable self'.

(** *** One round of annealing, seen from outside *)

Section Rounds.
Context {env : Environment}.

(** The proposal of a round that starts in [st]: the orientation drawn
    with angle multiplier 0.1 and composed with the current one, its
    tensor and its order parameter. *)
Definition proposal_draw (st : anneal_state) : quat * Saru :=
  calcRandomQuaternion (l_saru st) (F64.to_f32 (F64.of_ratio 1 10)).

Definition proposal_orientation (st : anneal_state) : quat :=
  quat_mul (fst (proposal_draw st)) (cubatic_orientation st).

Definition proposal_tensor (self : CubaticOrderParameter) (st : anneal_state)
  : tensor4 :=
  calcCubaticTensor self (proposal_orientation st).

Definition proposal_order_parameter (self : CubaticOrderParameter)
    (st : anneal_state) : float :=
  calcCubaticOrderParameter self (proposal_tensor self st).

(** The draw that follows the three draws of the proposal. *)
Definition fresh_draw (st : anneal_state) : float :=
  fst (Saru_s (snd (proposal_draw st)) (of_int 0) (of_int 1)).

(** [exp(-(current - proposed) / temperature)]. *)
Definition metropolis_factor (self : CubaticOrderParameter) (st : anneal_state)
  : float :=
  expf (div (neg (sub (cubatic_order_parameter st)
                      (proposal_order_parameter self st)))
            (t_current st)).

(** After the round, the proposal is the current state and the
    temperature is cooled. *)
Definition accepted (self : CubaticOrderParameter) (st st' : anneal_state) : Prop :=
  cubatic_tensor st' = proposal_tensor self st /\
  cubatic_orientation st' = proposal_orientation st /\
  cubatic_order_parameter st' = proposal_order_parameter self st /\
  t_current st' = mul (t_current st) (m_scale self).

(** After the round, the current state and the temperature are as before. *)
Definition rejected (st st' : anneal_state) : Prop :=
  cubatic_tensor st' = cubatic_tensor st /\
  cubatic_orientation st' = cubatic_orientation st /\
  cubatic_order_parameter st' = cubatic_order_parameter st /\
  t_current st' = t_current st.

(** The temperature after [cooled] cooling steps. *)
Definition cooled_temperature (self : CubaticOrderParameter) (cooled : nat)
  : float :=
  Nat.iter cooled (fun t => mul t (m_scale self)) (m_t_initial self).

(** The round that starts in [st] accepts its proposal: the order
    parameter of the proposal is above the current one, or the Metropolis
    factor is at least the fresh draw. *)
Definition round_accepts (self : CubaticOrderParameter) (st : anneal_state) : bool :=
  gtb (proposal_order_parameter self st) (cubatic_order_parameter st)
  || geb (metropolis_factor self st) (fresh_draw st).

(** Among the first [m] rounds of the replicate that draws from [saru],
    the number of those that accept their proposal. *)
Fixpoint accepted_rounds (self : CubaticOrderParameter) (saru : Saru) (m : nat)
  : nat :=
  match m with
  | O => O
  | S m' =>
      accepted_rounds self saru m'
      + (if round_accepts self
              (Nat.iter m' (anneal_body self) (anneal_init self saru))
         then 1 else 0)
  end.

End Rounds.

(** *** The replicates of a call of [compute] *)

Section Replicates.
Context {env : Environment}.

(** The first part of [compute], up to the global tensor (lines 291-305):
    the object as the replicates read it. *)
Definition prepare (self : CubaticOrderParameter) (orientations : list quat)
    (n : nat) : outcome CubaticOrderParameter :=
  bind (reset self n) (fun self =>
  bind (calculatePerParticleTensor self orientations) (fun pt =>
  let self := with_particle_tensor self pt in
  bind (calculateGlobalTensor self) (fun g =>
  Returns (with_global_tensor self g)))).

(** [count] replicates run one after the other on one stream: each starts
    where the one before it left the stream. *)
Fixpoint replicates_from (fuel : nat) (self : CubaticOrderParameter)
    (saru : Saru) (count : nat) : outcome (list anneal_state) :=
  match count with
  | O => Returns []
  | S count' =>
      bind (run_replicate fuel self saru) (fun st =>
      bind (replicates_from fuel self (l_saru st) count') (fun rest =>
      Returns (st :: rest)))
  end.

(** The final states of the replicates of block [r]: its stream is seeded
    with the seed of the object, the first index of the block and the
    salt [0xffaabb]. *)
Definition block_states (fuel : nat) (self : CubaticOrderParameter)
    (r : blocked_range) : outcome (list anneal_state) :=
  replicates_from fuel self
    (Saru_new (m_seed self) (Z.of_nat (r_begin r)) 0xffaabb)
    (r_end r - r_begin r).

(** The indices of a block, and a schedule that cuts the range of
    [replicates] indices into blocks: every index is in one block, once. *)
Definition indices (r : blocked_range) : list nat :=
  seq (r_begin r) (r_end r - r_begin r).

Definition valid_schedule (replicates : nat) (schedule : list blocked_range)
  : Prop :=
  Permutation (flat_map indices schedule) (seq 0 replicates).

(** Replicate [i], run in a block of the schedule, ended in state [st]. *)
Definition replicate_of (fuel : nat) (self : CubaticOrderParameter)
    (schedule : list blocked_range) (i : nat) (st : anneal_state) : Prop :=
  exists r states,
    In r schedule /\ (r_begin r <= i < r_end r)%nat /\
    block_states fuel self r = Returns states /\
    nth_error states (i - r_begin r) = Some st.

(** The rows of 81 floats that [Index2D(replicates, 81)] gives to two
    replicates do not overlap. *)
Definition rows_disjoint (replicates : nat) : Prop :=
  forall i j, (i < replicates)%nat -> (j < replicates)%nat -> i <> j ->
    (Index2D replicates 81 i 0 + 81 <= Index2D replicates 81 j 0)%nat \/
    (Index2D replicates 81 j 0 + 81 <= Index2D replicates 81 i 0)%nat.

(** The arrays hold the result of replicate [i], which ended in [st]. *)
Definition holds (replicates : nat) (p : replicate_arrays) (i : nat)
    (st : anneal_state) : Prop :=
  nth_error (p_cubatic_order_parameter p) i = Some (cubatic_order_parameter st) /\
  nth_error (p_cubatic_orientation p) i = Some (cubatic_orientation st) /\
  forall k, (k < 81)%nat ->
    get (p_cubatic_tensor p) (Index2D replicates 81 i 0 + k)
    = get (data (cubatic_tensor st)) k.

(** The arrays hold the order parameter and the orientation of replicate
    [i], which ended in [st]. *)
Definition holds_scalars (p : replicate_arrays) (i : nat) (st : anneal_state)
  : Prop :=
  nth_error (p_cubatic_order_parameter p) i = Some (cubatic_order_parameter st) /\
  nth_error (p_cubatic_orientation p) i = Some (cubatic_orientation st).

(** Two states of the arrays agree on what they hold for replicate [i]. *)
Definition same_at (replicates : nat) (p p' : replicate_arrays) (i : nat) : Prop :=
  nth_error (p_cubatic_order_parameter p') i
  = nth_error (p_cubatic_order_parameter p) i /\
  nth_error (p_cubatic_orientation p') i
  = nth_error (p_cubatic_orientation p) i /\
  forall k, (k < 81)%nat ->
    get (p_cubatic_tensor p') (Index2D replicates 81 i 0 + k)
    = get (p_cubatic_tensor p) (Index2D replicates 81 i 0 + k).

Definition same_lengths (p p' : replicate_arrays) : Prop :=
  List.length (p_cubatic_order_parameter p')
  = List.length (p_cubatic_order_parameter p) /\
  List.length (p_cubatic_orientation p')
  = List.length (p_cubatic_orientation p) /\
  List.length (p_cubatic_tensor p') = List.length (p_cubatic_tensor p).

(** The stores of a list of replicates, in order. *)
Definition stores (self : CubaticOrderParameter)
    (w : list (nat * anneal_state)) (p : replicate_arrays)
  : outcome replicate_arrays :=
  for_each w (fun '(i, st) p => store_replicate self i st p) p.

End Replicates.

Definition sample_orientations : list quat :=
  [ mkquat (of_int 1) (mkvec3 zero zero zero);
    mkquat (div (of_int 4) (of_int 5)) (mkvec3 (div (of_int 3) (of_int 5)) zero zero) ].

(** The stand-in environment with an [Index2D] that maps [(i, j)] to
    [j * w + i], and an object built in it with seed 1. *)
Definition column_major_env : Environment :=
  {| expf := sample_exp;
     acos := sample_acos;
     cosf := sample_cos;
     sinf := sample_sin;
     rotate := sample_rotate;
     quat_mul := sample_quat_mul;
     fromAxisAngle := sample_fromAxisAngle;
     quat_default := mkquat (of_int 1) (mkvec3 zero zero zero);
     vec3_dot := vdot;
     vec3_div := fun a b => mkvec3 (div (vx a) b) (div (vy a) b) (div (vz a) b);
     Saru := Z;
     Saru_new := fun a b c => lcg (a + 7919 * b + c)%Z;
     Saru_s := lcg_s;
     Index2D := fun w h i j => (j * w + i)%nat |}.

Definition column_major_object : CubaticOrderParameter :=
  Eval vm_compute in
    object_of (construct (env := column_major_env) (of_int 2) (of_int 1)
                         (div (of_int 1) (of_int 4)) 2 1).

(** Fuel for 10000 rounds, and the two ways to cut a range of two
    replicates. *)
Definition sample_fuel : nat := Z.to_nat 10001.

Definition one_block : list blocked_range := [mkRange 0 2].

Definition two_blocks : list blocked_range := [mkRange 0 1; mkRange 1 2].

Definition two_blocks_swapped : list blocked_range := [mkRange 1 2; mkRange 0 1].

(** What [compute] leaves on the sample when the replicates run as one
    block and as two. *)
Definition computed_one_block : CubaticOrderParameter :=
  Eval vm_compute in
    object_of (compute (env := sample_env) sample_fuel one_block
                       sample_object sample_orientations 2).



Definition column_major_prepared : CubaticOrderParameter :=
  Eval vm_compute in
    object_of (prepare (env := column_major_env) column_major_object
                       sample_orientations 2).

Definition column_major_computed : CubaticOrderParameter :=
  Eval vm_compute in
    object_of (compute (env := column_major_env) sample_fuel one_block
                       column_major_object sample_orientations 2).

(** The tensors in which the replicates of a block end. *)
Definition replicate_tensors {env : Environment} (fuel : nat)
    (self : CubaticOrderParameter) (r : blocked_range) : outcome (list tensor4) :=
  bind (block_states fuel self r)
       (fun states => Returns (map cubatic_tensor states)).

Definition column_major_tensors : list tensor4 :=
  Eval vm_compute in
    match replicate_tensors (env := column_major_env) sample_fuel
                            column_major_prepared (mkRange 0 2) with
    | Returns l => l
    | _ => []
    end.

(** The state in which a replicate of the sample enters the loop. *)
Definition sample_state : anneal_state :=
  anneal_init (env := sample_env) computed_one_block 1%Z.

(** *** The tensors of the particles and their mean *)

Section Particles.
Context {env : Environment}.

(** [Index2D(n, 81)] gives different places to different components of
    the per-particle tensors. *)
Definition cells_distinct (n : nat) : Prop :=
  forall i j i' j',
    (i < n)%nat -> (j < 81)%nat -> (i' < n)%nat -> (j' < 81)%nat ->
    Index2D n 81 i j = Index2D n 81 i' j' -> i = i' /\ j = j'.

(** Component [j] of the tensor of a particle of orientation [q] (lines
    241-252): twice the sum of the components of the rank-4 outer products
    of the three rotated system vectors. *)
Definition particle_component (self : CubaticOrderParameter) (q : quat) (j : nat)
  : float :=
  mul (sum_over 3 (fun a =>
         get (data (tensor4_of_vec3 (rotate q (system_vector self a)))) j))
      (of_int 2).

(** [1.0 / (float) n], stored in a [float] (line 269). *)
Definition inverse_count (n : nat) : float :=
  F64.to_f32 (F64.div (F64.of_int 1) (F64.of_f32 (of_int (Z.of_nat n)))).

(** The orientation of particle [p]. *)
Definition orientation_of (orientations : list quat) (p : nat) : quat :=
  nth p orientations (mkquat zero (mkvec3 zero zero zero)).

(** Component [j] of the mean of the tensors of the first [n] particles,
    minus component [j] of the reference tensor. *)
Definition global_component (self : CubaticOrderParameter)
    (orientations : list quat) (n j : nat) : float :=
  sub (mul (sum_over n (fun p =>
              particle_component self (orientation_of orientations p) j))
           (inverse_count n))
      (get (data (m_gen_r4_tensor self)) j).

(** The order parameter of orientation [q] against the global tensor of
    [self]. *)
Definition order_parameter_of (self : CubaticOrderParameter) (q : quat) : float :=
  calcCubaticOrderParameter self (calcCubaticTensor self q).

(** The current tensor and order parameter of a replicate are those of
    its current orientation. *)
Definition consistent (self : CubaticOrderParameter) (st : anneal_state) : Prop :=
  cubatic_tensor st = calcCubaticTensor self (cubatic_orientation st) /\
  cubatic_order_parameter st = order_parameter_of self (cubatic_orientation st).

(** What the constructor sets and [compute] reads. *)
Definition same_parameters (self self' : CubaticOrderParameter) : Prop :=
  m_t_initial self' = m_t_initial self /\
  m_t_final self' = m_t_final self /\
  m_scale self' = m_scale self /\
  m_replicates self' = m_replicates self /\
  m_seed self' = m_seed self /\
  m_gen_r4_tensor self' = m_gen_r4_tensor self /\
  m_system_vectors self' = m_system_vectors self /\
  m_sp_global_tensor self' = m_sp_global_tensor self /\
  m_sp_cubatic_tensor self' = m_sp_cubatic_tensor self.

(** The order parameter and the orientation that the arrays hold at
    index [i] are those of a replicate that satisfies [Q]. *)
Definition kept (Q : anneal_state -> Prop) (p : replicate_arrays) (i : nat) : Prop :=
  exists st,
    nth_error (p_cubatic_orientation p) i = Some (cubatic_orientation st) /\
    nth_error (p_cubatic_order_parameter p) i = Some (cubatic_order_parameter st) /\
    Q st.

End Particles.

(** An object built with equal temperatures, and one built for no
    replicate. *)
Definition equal_temperatures_object : CubaticOrderParameter :=
  Eval vm_compute in
    object_of (construct (env := sample_env) (of_int 1) (of_int 1)
                         (div (of_int 1) (of_int 4)) 2 42).

Definition no_replicate_object : CubaticOrderParameter :=
  Eval vm_compute in
    object_of (construct (env := sample_env) (of_int 2) (of_int 1)
                         (div (of_int 1) (of_int 4)) 0 42).

(** What [compute] leaves on the object of equal temperatures for no
    particle. *)
Definition computed_no_particle : CubaticOrderParameter :=
  Eval vm_compute in
    object_of (compute (env := sample_env) sample_fuel one_block
                       equal_temperatures_object [] 0).

End CubaticSpec.

(** * Proofs *)

(** The arithmetic of [SpecFloat] is run, never unfolded, in the proofs. *)
Strategy 1000 [F32.add F32.sub F32.mul F32.div F32.sqrt F32.of_int
                 F64.add F64.sub F64.mul F64.div F64.of_int F64.of_f32
                 F64.to_f32].

(** ** Facts about the comparisons *)

Module FloatOrderFacts.
Import FloatOrder.
Local Open Scope Z_scope.

Lemma lex_compare_spec (a b : Z * Z * Z) :
  match lex_compare a b with
  | Lt => lex_lt a b
  | Eq => a = b
  | Gt => lex_lt b a
  end.
Proof.
  destruct a as [[a1 a2] a3], b as [[b1 b2] b3]. unfold lex_compare, lex_lt.
  destruct (Z.compare_spec a1 b1); [|lia|lia].
  destruct (Z.compare_spec a2 b2); [|lia|lia].
  destruct (Z.compare_spec a3 b3); [|lia|lia].
  congruence.
Qed.

Lemma lex_lt_irrefl (a : Z * Z * Z) : ~ lex_lt a a.
Proof. destruct a as [[a1 a2] a3]. unfold lex_lt. lia. Qed.

Lemma lex_lt_trans (a b c : Z * Z * Z) : lex_lt a b -> lex_lt b c -> lex_lt a c.
Proof.
  destruct a as [[a1 a2] a3], b as [[b1 b2] b3], c as [[c1 c2] c3].
  unfold lex_lt. lia.
Qed.

Lemma lex_lt_total (a b : Z * Z * Z) : lex_lt a b \/ a = b \/ lex_lt b a.
Proof.
  generalize (lex_compare_spec a b). destruct (lex_compare a b); auto.
Qed.

Lemma lex_compare_Lt (a b : Z * Z * Z) : lex_compare a b = Lt <-> lex_lt a b.
Proof.
  generalize (lex_compare_spec a b). destruct (lex_compare a b); intros H.
  - subst. split; [discriminate|]. intros H. now apply lex_lt_irrefl in H.
  - tauto.
  - split; [discriminate|]. intros H'.
    elim (lex_lt_irrefl _ (lex_lt_trans _ _ _ H H')).
Qed.

Lemma lex_compare_Eq (a b : Z * Z * Z) : lex_compare a b = Eq <-> a = b.
Proof.
  generalize (lex_compare_spec a b). destruct (lex_compare a b); intros H.
  - tauto.
  - split; [discriminate|]. intros ->. now apply lex_lt_irrefl in H.
  - split; [discriminate|]. intros ->. now apply lex_lt_irrefl in H.
Qed.

(** [SFcompare] is the lexicographic comparison of the keys. *)
Lemma SFcompare_key (x y : spec_float) (a b : Z * Z * Z) :
  key x = Some a -> key y = Some b -> SFcompare x y = Some (lex_compare a b).
Proof.
  destruct x as [sx|sx| |sx mx ex], y as [sy|sy| |sy my ey];
    try destruct sx; try destruct sy; cbn [key]; try discriminate;
    intros [= <-] [= <-]; try reflexivity; cbn [SFcompare lex_compare].
  (* two negative floats: exponents and mantissas compare the other way *)
  - change (-1 ?= -1) with Eq. rewrite Z.compare_opp.
    rewrite (Z.compare_antisym ex ey).
    change (Zneg mx ?= Zneg my) with (CompOpp (mx ?= my)%positive).
    change (Pos.compare_cont Eq mx my) with (mx ?= my)%positive.
    destruct (ex ?= ey); reflexivity.
Qed.

Lemma SFcompare_nan (x y : spec_float) :
  key x = None \/ key y = None -> SFcompare x y = None.
Proof.
  destruct x as [sx|sx| |sx mx ex], y as [sy|sy| |sy my ey];
    try destruct sx; try destruct sy; cbn [key];
    intros [H|H]; try discriminate; reflexivity.
Qed.

Lemma SFltb_lt (x y : spec_float) : SFltb x y = true <-> lt x y.
Proof.
  unfold SFltb, lt. destruct (key x) as [a|] eqn:Hx.
  - destruct (key y) as [b|] eqn:Hy.
    + rewrite (SFcompare_key _ _ _ _ Hx Hy). split.
      * intros H. exists a, b. repeat split. apply lex_compare_Lt.
        destruct (lex_compare a b); congruence.
      * intros (a' & b' & [= <-] & [= <-] & H).
        apply lex_compare_Lt in H. now rewrite H.
    + rewrite SFcompare_nan by auto.
      split; [discriminate|]. intros (a' & b' & _ & H & _). discriminate.
  - rewrite SFcompare_nan by auto.
    split; [discriminate|]. intros (a' & b' & H & _). discriminate.
Qed.

Lemma SFleb_le (x y : spec_float) : SFleb x y = true <-> le x y.
Proof.
  unfold SFleb, le. destruct (key x) as [a|] eqn:Hx.
  - destruct (key y) as [b|] eqn:Hy.
    + rewrite (SFcompare_key _ _ _ _ Hx Hy). split.
      * intros H. exists a, b. repeat split.
        generalize (lex_compare_spec a b).
        destruct (lex_compare a b); auto; discriminate.
      * intros (a' & b' & [= <-] & [= <-] & [H|H]).
        -- apply lex_compare_Lt in H. now rewrite H.
        -- apply lex_compare_Eq in H. now rewrite H.
    + rewrite SFcompare_nan by auto.
      split; [discriminate|]. intros (a' & b' & _ & H & _). discriminate.
  - rewrite SFcompare_nan by auto.
    split; [discriminate|]. intros (a' & b' & H & _). discriminate.
Qed.

Lemma lt_irrefl (x : spec_float) : ~ lt x x.
Proof.
  intros (a & b & Ha & Hb & H). rewrite Ha in Hb. injection Hb as <-.
  now apply lex_lt_irrefl in H.
Qed.

Lemma lt_trans (x y z : spec_float) : lt x y -> lt y z -> lt x z.
Proof.
  intros (a & b & Ha & Hb & H) (b' & c & Hb' & Hc & H').
  rewrite Hb in Hb'. injection Hb' as <-.
  exists a, c. repeat split; trivial. eapply lex_lt_trans; eauto.
Qed.

Lemma le_lt_trans (x y z : spec_float) : le x y -> lt y z -> lt x z.
Proof.
  intros (a & b & Ha & Hb & H) (b' & c & Hb' & Hc & H').
  rewrite Hb in Hb'. injection Hb' as <-.
  exists a, c. repeat split; trivial.
  destruct H as [H| ->]; trivial. eapply lex_lt_trans; eauto.
Qed.

Lemma lt_le_trans (x y z : spec_float) : lt x y -> le y z -> lt x z.
Proof.
  intros (a & b & Ha & Hb & H) (b' & c & Hb' & Hc & H').
  rewrite Hb in Hb'. injection Hb' as <-.
  exists a, c. repeat split; trivial.
  destruct H' as [H'| <-]; trivial. eapply lex_lt_trans; eauto.
Qed.

Lemma lt_not_le (x y : spec_float) : lt x y -> ~ le y x.
Proof.
  intros H H'. exact (lt_irrefl _ (lt_le_trans _ _ _ H H')).
Qed.

Lemma lt_is_number (x y : spec_float) : lt x y -> is_number x /\ is_number y.
Proof.
  intros (a & b & Ha & Hb & _). unfold is_number. rewrite Ha, Hb.
  split; discriminate.
Qed.

(** Two floats that are not NaN are comparable. *)
Lemma le_or_lt (x y : spec_float) :
  is_number x -> is_number y -> le x y \/ lt y x.
Proof.
  unfold is_number, le, lt. intros Hx Hy.
  destruct (key x) as [a|]; [|congruence].
  destruct (key y) as [b|]; [|congruence].
  destruct (lex_lt_total a b) as [H|[H|H]].
  - left. exists a, b. auto.
  - left. exists a, b. auto.
  - right. exists b, a. auto.
Qed.

(** The same facts on the boolean comparisons of the model. *)
Lemma SFltb_false_of_le (x y : spec_float) : SFleb x y = true -> SFltb y x = false.
Proof.
  intros H. apply SFleb_le in H. destruct (SFltb y x) eqn:E; trivial.
  apply SFltb_lt in E. elim (lt_not_le _ _ E H).
Qed.

Lemma SFltb_asym (x y : spec_float) : SFltb x y = true -> SFltb y x = false.
Proof.
  intros H. apply SFltb_lt in H. destruct (SFltb y x) eqn:E; trivial.
  apply SFltb_lt in E. elim (lt_irrefl _ (lt_trans _ _ _ H E)).
Qed.

Lemma SFltb_irrefl (x : spec_float) : SFltb x x = false.
Proof.
  destruct (SFltb x x) eqn:E; trivial. apply SFltb_lt in E.
  elim (lt_irrefl _ E).
Qed.

(** When [x] is above [m], whatever is not above [m] is neither above [x]
    nor at [x]. *)
Lemma SFltb_above (m x y : spec_float) :
  SFltb m x = true -> SFltb m y = false ->
  SFltb x y = false /\ SFleb x y = false.
Proof.
  intros Hx Hy. apply SFltb_lt in Hx. split.
  - destruct (SFltb x y) eqn:E; trivial. apply SFltb_lt in E.
    apply (lt_trans _ _ _ Hx), SFltb_lt in E. congruence.
  - destruct (SFleb x y) eqn:E; trivial. apply SFleb_le in E.
    apply (lt_le_trans _ _ _ Hx), SFltb_lt in E. congruence.
Qed.

End FloatOrderFacts.
(** ** Proofs about [VoronoiBuffer::compute] *)

Module VoronoiFacts.
Import F32 VoronoiBuffer VoronoiSpec.

(** *** Loop rules *)

Section LoopInvariant.
Variable S : Type.
Variable P : S -> Prop.

Lemma for_int_from_inv (body : Z -> S -> outcome S) (bound : float) :
  (forall i s s', P s -> body i s = Returns s' -> P s') ->
  forall fuel i s r,
    P s -> for_int_from fuel i bound body s = Returns r -> P r.
Proof.
  intros Hbody. induction fuel as [|fuel IH]; intros i s r Hs; simpl.
  - discriminate.
  - destruct (leb (of_int i) bound).
    + destruct (body i s) as [s'| | |] eqn:Hb; try discriminate.
      destruct (i <? INT_MAX)%Z; try discriminate.
      apply IH. eapply Hbody; eauto.
    + intros [= <-]. exact Hs.
Qed.

Lemma for_int_inv (body : Z -> S -> outcome S) (ix : float) :
  (forall i s s', P s -> body i s = Returns s' -> P s') ->
  forall fuel s r, P s -> for_int fuel ix body s = Returns r -> P r.
Proof.
  intros Hbody fuel s r Hs. unfold for_int.
  destruct (to_int (neg ix)); [|discriminate].
  now apply for_int_from_inv.
Qed.

Lemma for_particles_inv (body : nat -> S -> outcome S) :
  forall n start,
    (forall particle s s',
        (start <= particle < start + n)%nat ->
        P s -> body particle s = Returns s' -> P s') ->
    forall s r, P s -> for_particles n start body s = Returns r -> P r.
Proof.
  induction n as [|n IH]; intros start Hbody s r Hs; simpl.
  - intros [= <-]. exact Hs.
  - destruct (body start s) as [s'| | |] eqn:Hb; try discriminate.
    apply IH.
    + intros particle t t' Hrange. apply Hbody. lia.
    + eapply Hbody; eauto. lia.
Qed.
End LoopInvariant.

(** *** Termination: no loop of [compute] needs more than 2^32 rounds *)

Lemma for_int_from_fuel (S : Type) (body : Z -> S -> outcome S) (bound : float) :
  (forall i s, body i s <> OutOfFuel) ->
  forall fuel i s,
    (i <= INT_MAX)%Z -> (INT_MAX - i < Z.of_nat fuel)%Z ->
    for_int_from fuel i bound body s <> OutOfFuel.
Proof.
  intros Hbody. induction fuel as [|fuel IH]; intros i s Hi Hfuel.
  - unfold INT_MAX in *. lia.
  - cbn [for_int_from]. destruct (leb (of_int i) bound); [|discriminate].
    destruct (body i s) as [s'| | |] eqn:Hb; try discriminate.
    + destruct (i <? INT_MAX)%Z eqn:Hlt; [|discriminate].
      apply Z.ltb_lt in Hlt. apply IH; unfold INT_MAX in *; lia.
    + now apply Hbody in Hb.
Qed.

Lemma to_int_range (x : float) (n : Z) :
  to_int x = Some n -> (INT_MIN <= n <= INT_MAX)%Z.
Proof.
  destruct x as [s| | |s m e]; simpl; try discriminate.
  - intros [= <-]. unfold INT_MIN, INT_MAX. lia.
  - match goal with
    | |- context [cond_Zopp s ?mag] => generalize (cond_Zopp s mag)
    end.
    intros z. destruct ((INT_MIN <=? z)%Z && (z <=? INT_MAX)%Z) eqn:Hr;
      [|discriminate].
    intros [= <-]. apply andb_true_iff in Hr. destruct Hr as [H1 H2].
    apply Z.leb_le in H1. apply Z.leb_le in H2. lia.
Qed.

Lemma for_int_fuel (S : Type) (body : Z -> S -> outcome S) (ix : float) :
  (forall i s, body i s <> OutOfFuel) ->
  forall fuel s, enough_fuel fuel -> for_int fuel ix body s <> OutOfFuel.
Proof.
  intros Hbody fuel s Hfuel. unfold for_int.
  destruct (to_int (neg ix)) as [lo|] eqn:Hlo; [|discriminate].
  apply to_int_range in Hlo. unfold enough_fuel in Hfuel.
  apply for_int_from_fuel; trivial; unfold INT_MIN, INT_MAX in *; lia.
Qed.

Lemma for_particles_fuel (S : Type) (body : nat -> S -> outcome S) :
  (forall particle s, body particle s <> OutOfFuel) ->
  forall n start s, for_particles n start body s <> OutOfFuel.
Proof.
  intros Hbody. induction n as [|n IH]; intros start s; simpl.
  - discriminate.
  - destruct (body start s) as [s'| | |] eqn:Hb; try discriminate.
    + apply IH.
    + now apply Hbody in Hb.
Qed.

Lemma body_j_fuel fuel box buff iz points particle i j b :
  enough_fuel fuel ->
  body_j fuel box buff iz points particle i j b <> OutOfFuel.
Proof.
  intros Hfuel. unfold body_j. destruct (is2D box).
  - destruct (negb (i =? 0)%Z || negb (j =? 0)%Z); [|discriminate].
    destruct (nth_error points particle) as [p|]; [|discriminate].
    destruct (within2D box buff (image2D box p i j)); discriminate.
  - apply for_int_fuel; trivial. intros k s.
    destruct (negb ((i =? 0)%Z && (j =? 0)%Z && (k =? 0)%Z)); [|discriminate].
    destruct (nth_error points particle) as [p|]; [|discriminate].
    destruct (within3D box buff (image3D box p i j k)); discriminate.
Qed.

(** The model of [compute] is total: with 2^32 rounds of fuel per loop it
    never stops for lack of fuel. *)
Lemma voronoi_compute_fuel fuel box points Np buff :
  enough_fuel fuel -> compute fuel box points Np buff <> OutOfFuel.
Proof.
  intros Hfuel. unfold compute. apply for_particles_fuel.
  intros particle s.
  apply for_int_fuel; trivial. intros i t.
  apply for_int_fuel; trivial. intros j u.
  now apply body_j_fuel.
Qed.

(** More fuel does not change a result that was reached. *)
Lemma for_int_from_more (S : Type) (body body' : Z -> S -> outcome S)
    (bound : float) :
  (forall i s r, body i s = r -> r <> OutOfFuel -> body' i s = r) ->
  forall fuel fuel' i s r,
    (fuel <= fuel')%nat ->
    for_int_from fuel i bound body s = r -> r <> OutOfFuel ->
    for_int_from fuel' i bound body' s = r.
Proof.
  intros Hbody. induction fuel as [|fuel IH]; intros fuel' i s r Hle; simpl.
  - intros <- H. now elim H.
  - destruct fuel' as [|fuel']; [lia|]. simpl.
    destruct (leb (of_int i) bound); trivial.
    destruct (body i s) as [s'| | |] eqn:Hb.
    + rewrite (Hbody _ _ _ Hb) by discriminate.
      destruct (i <? INT_MAX)%Z; trivial. apply IH. lia.
    + rewrite (Hbody _ _ _ Hb) by discriminate. trivial.
    + rewrite (Hbody _ _ _ Hb) by discriminate. trivial.
    + intros <- H. now elim H.
Qed.

Lemma for_int_more (S : Type) (body body' : Z -> S -> outcome S) (ix : float) :
  (forall i s r, body i s = r -> r <> OutOfFuel -> body' i s = r) ->
  forall fuel fuel' s r,
    (fuel <= fuel')%nat ->
    for_int fuel ix body s = r -> r <> OutOfFuel ->
    for_int fuel' ix body' s = r.
Proof.
  intros Hbody fuel fuel' s r Hle. unfold for_int.
  destruct (to_int (neg ix)); trivial.
  now apply for_int_from_more.
Qed.

Lemma for_particles_more (S : Type) (body body' : nat -> S -> outcome S) :
  (forall i s r, body i s = r -> r <> OutOfFuel -> body' i s = r) ->
  forall n start s r,
    for_particles n start body s = r -> r <> OutOfFuel ->
    for_particles n start body' s = r.
Proof.
  intros Hbody. induction n as [|n IH]; intros start s r; simpl; trivial.
  destruct (body start s) as [s'| | |] eqn:Hb.
  - rewrite (Hbody _ _ _ Hb) by discriminate. apply IH.
  - rewrite (Hbody _ _ _ Hb) by discriminate. trivial.
  - rewrite (Hbody _ _ _ Hb) by discriminate. trivial.
  - intros <- H. now elim H.
Qed.

Lemma voronoi_compute_more fuel fuel' box points Np buff r :
  (fuel <= fuel')%nat ->
  compute fuel box points Np buff = r -> r <> OutOfFuel ->
  compute fuel' box points Np buff = r.
Proof.
  intros Hle. unfold compute. apply for_particles_more.
  intros particle s0 r0.
  apply for_int_more; trivial. intros i s1 r1.
  apply for_int_more; trivial. intros j s2 r2.
  unfold body_j. destruct (is2D box); trivial.
  apply for_int_more; trivial.
Qed.

(** *** What is emitted *)

Lemma push_back_ok box points Np buff b img id :
  buffers_ok box points Np buff b ->
  emitted box points Np buff img id ->
  buffers_ok box points Np buff (push_back b img id).
Proof.
  unfold buffers_ok, push_back. cbn [buffer_parts buffer_ids].
  intros Hb He. apply Forall2_app; auto.
Qed.

Lemma body_j_ok fuel box points Np buff iz particle i j b b' :
  (particle < Np)%nat ->
  buffers_ok box points Np buff b ->
  body_j fuel box buff iz points particle i j b = Returns b' ->
  buffers_ok box points Np buff b'.
Proof.
  intros Hlt Hb. unfold body_j. destruct (is2D box) eqn:H2D.
  - destruct (negb (i =? 0)%Z || negb (j =? 0)%Z) eqn:Hij.
    + destruct (nth_error points particle) as [p|] eqn:Hp; [|discriminate].
      destruct (within2D box buff (image2D box p i j)) eqn:Hin;
        intros [= <-]; trivial.
      apply push_back_ok; trivial. split; trivial.
      exists p. split; trivial. rewrite H2D. exists i, j.
      repeat split; trivial.
      apply orb_true_iff in Hij.
      destruct Hij as [H|H]; apply negb_true_iff, Z.eqb_neq in H; auto.
    + intros [= <-]; trivial.
  - apply for_int_inv; trivial. clear b b' Hb. intros k b b' Hb.
    destruct (negb ((i =? 0)%Z && (j =? 0)%Z && (k =? 0)%Z)) eqn:Hijk.
    + destruct (nth_error points particle) as [p|] eqn:Hp; [|discriminate].
      destruct (within3D box buff (image3D box p i j k)) eqn:Hin;
        intros [= <-]; trivial.
      apply push_back_ok; trivial. split; trivial.
      exists p. split; trivial. rewrite H2D. exists i, j, k.
      repeat split; trivial.
      intros (-> & -> & ->). discriminate.
    + intros [= <-]; trivial.
Qed.

Lemma voronoi_compute_ok fuel box points Np buff b :
  compute fuel box points Np buff = Returns b ->
  buffers_ok box points Np buff b.
Proof.
  unfold compute. apply for_particles_inv.
  - intros particle s s' Hrange Hs.
    apply for_int_inv; trivial. clear s s' Hs. intros i s s' Hs.
    apply for_int_inv; trivial. clear s s' Hs. intros j s s' Hs.
    apply body_j_ok; trivial. lia.
  - constructor.
Qed.

(** In a 2D box the [k] loop is not entered: [Lz] and the two tilt factors
    of the third edge are not read by the loop nest. *)
Lemma voronoi_2D_third_edge fuel box points Np buff lz xz yz r :
  is2D box = true ->
  compute fuel box points Np buff = r -> r <> OutOfFuel ->
  compute fuel (with_third_edge box lz xz yz) points Np buff = r.
Proof.
  intros H2D. unfold compute. cbn [with_third_edge getLx getLy getLz].
  apply for_particles_more.
  intros particle s0 r0.
  apply for_int_more; trivial. intros i s1 r1.
  apply for_int_more; trivial. intros j s2 r2.
  unfold body_j. cbn [with_third_edge is2D]. rewrite H2D.
  intros H _. exact H.
Qed.

Lemma voronoi_buffers_entries box points Np buff b :
  buffers_ok box points Np buff b ->
  entries (fun p img => if is2D box then plane_image box p img
                        else lattice_image box p img) points Np b.
Proof.
  unfold buffers_ok, entries. intros H. split; [|split].
  - eapply Forall2_length; eauto.
  - induction H as [|img id parts ids He _ IH]; constructor; trivial.
    apply He.
  - induction H as [|img id parts ids He _ IH]; constructor; trivial.
    destruct He as (_ & p & Hp & He). exists p. split; trivial.
    destruct (is2D box).
    + destruct He as (i & j & Hij & Himg & _). now exists i, j.
    + destruct He as (i & j & k & Hijk & Himg & _). now exists i, j, k.
Qed.

(** A point with third coordinate 1 has no lattice image with third
    coordinate [+0.0] when [Lz] is [+0.0]. *)
Lemma third_coordinate_stays (x : float) :
  add (of_int 1) (mul x zero) <> zero.
Proof.
  destruct x as [s|s| |s m e]; try destruct s; vm_compute; discriminate.
Qed.

(** C9, as stated, fails: in a 2D box the third coordinate of an entry is
    set to zero, so the entry (-6, -6, 0) that [compute] emits for the point
    (4, 4, 1) is no lattice translate of that point. *)
Lemma voronoi_2D_entry_is_no_translate :
  compute 8 box2D two_points 2 (of_int 2) = Returns out2D /\
  ~ entries (lattice_image box2D) two_points 2 out2D.
Proof.
  split; [vm_compute; reflexivity|].
  intros (_ & _ & H). unfold out2D in H. cbn [buffer_parts buffer_ids] in H.
  inversion H as [|img id parts ids (p & Hp & i & j & k & _ & Himg) _]; subst.
  cbn [two_points nth_error] in Hp. injection Hp as <-.
  apply (f_equal vz) in Himg. cbn [image3D vz box2D getLz] in Himg.
  symmetry in Himg. revert Himg. apply third_coordinate_stays.
Qed.

(** C9, amended: after a call of [compute] that returns, the two output
    vectors have equal length, every stored id is below [Np], and every
    entry is the input point of its id translated by an integer lattice
    combination that is not zero: of all three edge vectors in a 3D box;
    of the two in-plane edge vectors in a 2D box, where the third
    coordinate is set to zero. *)
Theorem voronoi_entries_are_images fuel box points Np buff b :
  compute fuel box points Np buff = Returns b ->
  entries (fun p img => if is2D box then plane_image box p img
                        else lattice_image box p img) points Np b.
Proof.
  intros H. eapply voronoi_buffers_entries, voronoi_compute_ok, H.
Qed.

Lemma voronoi_entries_are_images_witness :
  entries (fun p img => if is2D box3D then plane_image box3D p img
                        else lattice_image box3D p img) two_points 2 out3D.
Proof.
  apply (voronoi_entries_are_images 8 box3D two_points 2 (of_int 2)).
  vm_compute. reflexivity.
Defined.

(** C10: when the box is 2D, every buffer particle that [compute] emits
    has third coordinate exactly [+0.0] and is an in-plane image of the
    input point of its id; no image in the third direction is enumerated,
    so the output is the same for every third edge of the box. *)
Theorem voronoi_2D_in_plane fuel box points Np buff b :
  is2D box = true ->
  compute fuel box points Np buff = Returns b ->
  Forall (fun img => vz img = zero) (buffer_parts b) /\
  entries (plane_image box) points Np b /\
  forall lz xz yz,
    compute fuel (with_third_edge box lz xz yz) points Np buff = Returns b.
Proof.
  intros H2D H. split; [|split].
  - apply voronoi_compute_ok in H. unfold buffers_ok in H.
    induction H as [|img id parts ids He _ IH]; constructor; trivial.
    destruct He as (_ & p & _ & He). rewrite H2D in He.
    destruct He as (i & j & _ & -> & _). reflexivity.
  - apply voronoi_compute_ok, voronoi_buffers_entries in H.
    rewrite H2D in H. exact H.
  - intros lz xz yz. apply voronoi_2D_third_edge; trivial. discriminate.
Qed.

Lemma voronoi_2D_in_plane_witness :
  Forall (fun img => vz img = zero) (buffer_parts out2D) /\
  entries (plane_image box2D) two_points 2 out2D /\
  forall lz xz yz,
    compute 8 (with_third_edge box2D lz xz yz) two_points 2 (of_int 2)
    = Returns out2D.
Proof.
  apply (voronoi_2D_in_plane 8 box2D two_points 2 (of_int 2)).
  - reflexivity.
  - vm_compute. reflexivity.
Defined.

(** *** The output only grows, and every visited image is tested *)

Lemma grows_refl (b : buffers) : grows b b.
Proof. exists [], []. rewrite !app_nil_r. auto. Qed.

Lemma grows_trans (b1 b2 b3 : buffers) :
  grows b1 b2 -> grows b2 b3 -> grows b1 b3.
Proof.
  intros (ps & ids & Hl & Hp & Hi) (ps' & ids' & Hl' & Hp' & Hi').
  exists (ps ++ ps'), (ids ++ ids').
  rewrite !List.length_app, Hp', Hi', Hp, Hi, !app_assoc. auto.
Qed.

Lemma grows_push_back (b : buffers) (img : vec3) (id : nat) :
  grows b (push_back b img id).
Proof. exists [img], [id]. auto. Qed.

Lemma grows_lengths (b b' : buffers) :
  grows b b' ->
  List.length (buffer_parts b) = List.length (buffer_ids b) ->
  List.length (buffer_parts b') = List.length (buffer_ids b').
Proof.
  intros (ps & ids & Hl & Hp & Hi) Hb.
  rewrite Hp, Hi, !List.length_app. lia.
Qed.

Lemma combine_app_same (A B : Type) (a a' : list A) (b b' : list B) :
  List.length a = List.length b ->
  combine (a ++ a') (b ++ b') = combine a b ++ combine a' b'.
Proof.
  revert b. induction a as [|x a IH]; intros [|y b] Hl; try discriminate.
  - reflexivity.
  - simpl. f_equal. apply IH. now injection Hl.
Qed.

Lemma grows_pairs (b b' : buffers) (x : vec3 * nat) :
  grows b b' ->
  List.length (buffer_parts b) = List.length (buffer_ids b) ->
  In x (pairs b) -> In x (pairs b').
Proof.
  intros (ps & ids & Hl & Hp & Hi) Hb Hin. unfold pairs in *.
  rewrite Hp, Hi, combine_app_same by exact Hb.
  apply in_or_app. now left.
Qed.

Lemma push_back_pairs (b : buffers) (img : vec3) (id : nat) :
  List.length (buffer_parts b) = List.length (buffer_ids b) ->
  In (img, id) (pairs (push_back b img id)).
Proof.
  intros Hb. unfold pairs, push_back. cbn [buffer_parts buffer_ids].
  rewrite combine_app_same by exact Hb.
  apply in_or_app. right. now left.
Qed.

Section Visits.
Variable St : Type.
Variable R : St -> St -> Prop.
Hypothesis R_refl : forall s, R s s.
Hypothesis R_trans : forall s1 s2 s3, R s1 s2 -> R s2 s3 -> R s1 s3.

Lemma for_int_from_grows (body : Z -> St -> outcome St) (bound : float) :
  (forall i s s', body i s = Returns s' -> R s s') ->
  forall fuel i s r, for_int_from fuel i bound body s = Returns r -> R s r.
Proof.
  intros Hbody fuel i s r. apply (for_int_from_inv St (R s)); [|apply R_refl].
  intros k t t' Ht Hb. eapply R_trans; eauto.
Qed.

Lemma for_int_grows (body : Z -> St -> outcome St) (x : float) :
  (forall i s s', body i s = Returns s' -> R s s') ->
  forall fuel s r, for_int fuel x body s = Returns r -> R s r.
Proof.
  intros Hbody fuel s r. apply (for_int_inv St (R s)); [|apply R_refl].
  intros k t t' Ht Hb. eapply R_trans; eauto.
Qed.

Lemma for_particles_grows (body : nat -> St -> outcome St) :
  (forall i s s', body i s = Returns s' -> R s s') ->
  forall n start s r, for_particles n start body s = Returns r -> R s r.
Proof.
  intros Hbody n start s r.
  apply (for_particles_inv St (R s)); [|apply R_refl].
  intros k t t' _ Ht Hb. eapply R_trans; eauto.
Qed.

(** A loop that returns has run its body at every index it reaches. *)
Lemma for_int_from_visits (body : Z -> St -> outcome St) (bound : float) :
  (forall i s s', body i s = Returns s' -> R s s') ->
  forall fuel lo i s r,
    for_int_from fuel lo bound body s = Returns r ->
    (lo <= i)%Z ->
    (forall i', (lo <= i' <= i)%Z -> leb (of_int i') bound = true) ->
    exists s1 s2, R s s1 /\ body i s1 = Returns s2 /\ R s2 r.
Proof.
  intros Hbody. induction fuel as [|fuel IH]; intros lo i s r Hr Hlo Hcond.
  - discriminate.
  - cbn [for_int_from] in Hr. rewrite (Hcond lo) in Hr by lia.
    destruct (body lo s) as [s'| | |] eqn:Hb; try discriminate.
    destruct (lo <? INT_MAX)%Z; [|discriminate].
    destruct (Z.eq_dec lo i) as [<-|Hne].
    + exists s, s'. split; [apply R_refl|]. split; [exact Hb|].
      eapply for_int_from_grows; eauto.
    + destruct (IH (lo + 1)%Z i s' r Hr) as (s1 & s2 & H1 & H2 & H3).
      * lia.
      * intros i' Hi'. apply Hcond. lia.
      * exists s1, s2. split; [|auto]. eapply R_trans; eauto.
Qed.

Lemma for_int_visits (body : Z -> St -> outcome St) (x : float) :
  (forall i s s', body i s = Returns s' -> R s s') ->
  forall fuel i s r,
    for_int fuel x body s = Returns r -> visited x i ->
    exists s1 s2, R s s1 /\ body i s1 = Returns s2 /\ R s2 r.
Proof.
  intros Hbody fuel i s r Hr (lo & Hlo & Hle & Hcond).
  unfold for_int in Hr. rewrite Hlo in Hr.
  eapply for_int_from_visits; eauto.
Qed.

Lemma for_particles_visits (body : nat -> St -> outcome St) :
  (forall i s s', body i s = Returns s' -> R s s') ->
  forall n start particle s r,
    for_particles n start body s = Returns r ->
    (start <= particle < start + n)%nat ->
    exists s1 s2, R s s1 /\ body particle s1 = Returns s2 /\ R s2 r.
Proof.
  intros Hbody. induction n as [|n IH]; intros start particle s r Hr Hp.
  - lia.
  - cbn [for_particles] in Hr.
    destruct (body start s) as [s'| | |] eqn:Hb; try discriminate.
    destruct (Nat.eq_dec start particle) as [<-|Hne].
    + exists s, s'. split; [apply R_refl|]. split; [exact Hb|].
      eapply for_particles_grows; eauto.
    + destruct (IH (Datatypes.S start) particle s' r Hr) as (s1 & s2 & H1 & H2 & H3).
      * lia.
      * exists s1, s2. split; [|auto]. eapply R_trans; eauto.
Qed.

End Visits.

Lemma body_k_grows box buff points particle i j k b b' :
  (if negb ((i =? 0)%Z && (j =? 0)%Z && (k =? 0)%Z) then
     match nth_error points particle with
     | None => Undefined
     | Some p =>
         let img := image3D box p i j k in
         if within3D box buff img
         then Returns (push_back b img particle)
         else Returns b
     end
   else Returns b) = Returns b' ->
  grows b b'.
Proof.
  destruct (negb _).
  - destruct (nth_error points particle) as [p|]; [|discriminate].
    cbv zeta. destruct (within3D _ _ _); intros [= <-];
      [apply grows_push_back | apply grows_refl].
  - intros [= <-]. apply grows_refl.
Qed.

Lemma body_j_grows fuel box buff z points particle i j b b' :
  body_j fuel box buff z points particle i j b = Returns b' -> grows b b'.
Proof.
  unfold body_j. destruct (is2D box).
  - destruct (negb (i =? 0)%Z || negb (j =? 0)%Z).
    + destruct (nth_error points particle) as [p|]; [|discriminate].
      cbv zeta. destruct (within2D _ _ _); intros [= <-];
        [apply grows_push_back | apply grows_refl].
    + intros [= <-]. apply grows_refl.
  - apply (for_int_grows buffers grows grows_refl grows_trans).
    intros k s s'. apply body_k_grows.
Qed.

Lemma body_i_grows fuel box buff points particle i b b' :
  for_int fuel (iy box buff)
    (fun j b => body_j fuel box buff (iz box buff) points particle i j b) b
  = Returns b' ->
  grows b b'.
Proof.
  apply (for_int_grows buffers grows grows_refl grows_trans).
  intros j s s'. apply body_j_grows.
Qed.

Lemma body_particle_grows fuel box points buff particle b b' :
  for_int fuel (ix box buff)
    (fun i b =>
       for_int fuel (iy box buff)
         (fun j b => body_j fuel box buff (iz box buff) points particle i j b) b)
    b
  = Returns b' ->
  grows b b'.
Proof.
  apply (for_int_grows buffers grows grows_refl grows_trans).
  intros i s s'. apply body_i_grows.
Qed.

Lemma empty_lengths :
  List.length (buffer_parts {| buffer_parts := []; buffer_ids := [] |})
  = List.length (buffer_ids {| buffer_parts := []; buffer_ids := [] |}).
Proof. reflexivity. Qed.

(** The state in which the body of the [j] loop runs for [(particle, i,
    j)], when the three loops reach it. *)
Lemma compute_visits fuel box points Np buff b particle i j :
  compute fuel box points Np buff = Returns b ->
  (particle < Np)%nat ->
  visited (ix box buff) i -> visited (iy box buff) j ->
  exists u1 u2,
    List.length (buffer_parts u1) = List.length (buffer_ids u1) /\
    body_j fuel box buff (iz box buff) points particle i j u1 = Returns u2 /\
    grows u2 b.
Proof.
  intros Hc Hparticle Hi Hj. unfold compute in Hc.
  destruct (for_particles_visits buffers grows grows_refl grows_trans _
              (fun particle b b' => body_particle_grows fuel box points buff particle b b')
              Np 0%nat particle _ b Hc) as (s1 & s2 & Hs1 & Hs & Hs2); [lia|].
  destruct (for_int_visits buffers grows grows_refl grows_trans _ _
              (fun i b b' => body_i_grows fuel box buff points particle i b b')
              fuel i s1 s2 Hs Hi) as (t1 & t2 & Ht1 & Ht & Ht2).
  destruct (for_int_visits buffers grows grows_refl grows_trans _ _
              (fun j b b' => body_j_grows fuel box buff (iz box buff) points particle i j b b')
              fuel j t1 t2 Ht Hj) as (u1 & u2 & Hu1 & Hu & Hu2).
  exists u1, u2. split; [|split; [exact Hu|]].
  - apply (grows_lengths {| buffer_parts := []; buffer_ids := [] |});
      [|apply empty_lengths].
    eapply grows_trans; [exact Hs1|]. eapply grows_trans; eauto.
  - eapply grows_trans; [exact Hu2|]. eapply grows_trans; eauto.
Qed.

(** X1.  [VoronoiBuffer::compute] misses no image: when it returns, each
    image of an input point under a nonzero [(i, j)] (2D) or [(i, j, k)]
    (3D) that the loops reach and that passes the buffer test is in the
    output, paired with the index of its point. *)
Theorem voronoi_images_complete fuel box points Np buff b particle p i j k :
  compute fuel box points Np buff = Returns b ->
  (particle < Np)%nat -> nth_error points particle = Some p ->
  visited (ix box buff) i -> visited (iy box buff) j ->
  (is2D box = true ->
   (i <> 0 \/ j <> 0)%Z ->
   within2D box buff (image2D box p i j) = true ->
   In (image2D box p i j, particle) (pairs b)) /\
  (is2D box = false ->
   visited (iz box buff) k ->
   ~ (i = 0 /\ j = 0 /\ k = 0)%Z ->
   within3D box buff (image3D box p i j k) = true ->
   In (image3D box p i j k, particle) (pairs b)).
Proof.
  intros Hc Hparticle Hp Hi Hj.
  destruct (compute_visits _ _ _ _ _ _ _ _ _ Hc Hparticle Hi Hj)
    as (u1 & u2 & Hlen & Hu & Hu2).
  unfold body_j in Hu. split.
  - intros H2D Hnz Hin. rewrite H2D in Hu.
    assert (Hne : negb (i =? 0)%Z || negb (j =? 0)%Z = true).
    { apply orb_true_iff. destruct Hnz as [Hnz|Hnz]; [left|right];
        apply negb_true_iff; apply Z.eqb_neq; exact Hnz. }
    rewrite Hne, Hp in Hu. cbv zeta in Hu. rewrite Hin in Hu.
    injection Hu as <-.
    eapply grows_pairs; [exact Hu2| |].
    + apply (grows_lengths u1); [apply grows_push_back | exact Hlen].
    + now apply push_back_pairs.
  - intros H3D Hk Hnz Hin. rewrite H3D in Hu.
    destruct (for_int_visits buffers grows grows_refl grows_trans _ _
                (fun k b b' => body_k_grows box buff points particle i j k b b')
                fuel k u1 u2 Hu Hk) as (v1 & v2 & Hv1 & Hv & Hv2).
    assert (Hne : negb ((i =? 0)%Z && (j =? 0)%Z && (k =? 0)%Z) = true).
    { apply negb_true_iff. apply not_true_is_false. intros H.
      apply andb_true_iff in H. destruct H as [H Hk0].
      apply andb_true_iff in H. destruct H as [Hi0 Hj0].
      apply Z.eqb_eq in Hi0, Hj0, Hk0. auto. }
    rewrite Hne, Hp in Hv. cbv zeta in Hv. rewrite Hin in Hv.
    injection Hv as <-.
    assert (Hlen1 : List.length (buffer_parts v1) = List.length (buffer_ids v1)).
    { apply (grows_lengths u1); assumption. }
    eapply grows_pairs; [eapply grows_trans; [exact Hv2 | exact Hu2]| |].
    + apply (grows_lengths v1); [apply grows_push_back | exact Hlen1].
    + now apply push_back_pairs.
Qed.

Lemma voronoi_images_complete_witness :
  In (image3D box3D (mkvec3 (of_int 4) (of_int 4) (of_int 1)) (-1) 0 0, 0%nat)
     (pairs out3D).
Proof.
  assert (Hx : visited (ix box3D (of_int 2)) (-1)).
  { exists (-1)%Z. split; [vm_compute; reflexivity|]. split; [lia|].
    intros i' Hi'. assert (i' = -1)%Z as -> by lia. vm_compute. reflexivity. }
  assert (Hy : forall z : float,
             z = ceil (div (of_int 2) (of_int 10)) -> visited z 0).
  { intros z ->. exists (-1)%Z. split; [vm_compute; reflexivity|]. split; [lia|].
    intros i' Hi'.
    assert (i' = -1 \/ i' = 0)%Z as [-> | ->] by lia; vm_compute; reflexivity. }
  apply (proj2 (voronoi_images_complete 8 box3D two_points 2 (of_int 2) out3D
                  0 (mkvec3 (of_int 4) (of_int 4) (of_int 1)) (-1) 0 0
                  ltac:(vm_compute; reflexivity) ltac:(lia) eq_refl
                  Hx (Hy _ eq_refl))).
  - reflexivity.
  - exact (Hy _ eq_refl).
  - lia.
  - vm_compute. reflexivity.
Defined.

(** *** Every entry comes from a round of the loops *)

Section VisitedInvariant.
Variable St : Type.
Variable P : St -> Prop.

Lemma for_int_from_inv_visited (body : Z -> St -> outcome St) (bound : float)
    (lo0 : Z) :
  (forall i s s',
      (lo0 <= i)%Z ->
      (forall i', (lo0 <= i' <= i)%Z -> leb (of_int i') bound = true) ->
      P s -> body i s = Returns s' -> P s') ->
  forall fuel lo s r,
    (lo0 <= lo)%Z ->
    (forall i', (lo0 <= i' < lo)%Z -> leb (of_int i') bound = true) ->
    P s -> for_int_from fuel lo bound body s = Returns r -> P r.
Proof.
  intros Hbody. induction fuel as [|fuel IH]; intros lo s r Hlo Hbelow Hs Hr.
  - discriminate.
  - cbn [for_int_from] in Hr.
    destruct (leb (of_int lo) bound) eqn:Hc.
    + destruct (body lo s) as [s'| | |] eqn:Hb; try discriminate.
      destruct (lo <? INT_MAX)%Z; [|discriminate].
      assert (Hupto : forall i', (lo0 <= i' <= lo)%Z -> leb (of_int i') bound = true).
      { intros i' Hi'. destruct (Z.eq_dec i' lo) as [->|Hne]; [exact Hc|].
        apply Hbelow. lia. }
      apply (IH (lo + 1)%Z s' r); [lia| |eapply Hbody; eauto|exact Hr].
      intros i' Hi'. apply Hupto. lia.
    + now injection Hr as <-.
Qed.

Lemma for_int_inv_visited (body : Z -> St -> outcome St) (x : float) :
  (forall i s s', visited x i -> P s -> body i s = Returns s' -> P s') ->
  forall fuel s r, P s -> for_int fuel x body s = Returns r -> P r.
Proof.
  intros Hbody fuel s r Hs Hr. unfold for_int in Hr.
  destruct (to_int (neg x)) as [lo|] eqn:Hlo; [|discriminate].
  apply (for_int_from_inv_visited body x lo) with (fuel := fuel) (lo := lo) (s := s);
    trivial; try lia.
  intros i t t' Hi Hc. apply Hbody. exists lo. auto.
Qed.

End VisitedInvariant.

Lemma push_back_tested box points Np buff b img id :
  Forall2 (tested box points Np buff) (buffer_parts b) (buffer_ids b) ->
  tested box points Np buff img id ->
  Forall2 (tested box points Np buff)
          (buffer_parts (push_back b img id)) (buffer_ids (push_back b img id)).
Proof.
  intros Hb He. unfold push_back. cbn [buffer_parts buffer_ids].
  apply Forall2_app; auto.
Qed.

Lemma body_j_tested fuel box points Np buff particle i j b b' :
  (particle < Np)%nat ->
  visited (ix box buff) i -> visited (iy box buff) j ->
  Forall2 (tested box points Np buff) (buffer_parts b) (buffer_ids b) ->
  body_j fuel box buff (iz box buff) points particle i j b = Returns b' ->
  Forall2 (tested box points Np buff) (buffer_parts b') (buffer_ids b').
Proof.
  intros Hparticle Hi Hj Hb. unfold body_j.
  destruct (is2D box) eqn:H2D.
  - destruct (negb (i =? 0)%Z || negb (j =? 0)%Z) eqn:Hnz.
    + destruct (nth_error points particle) as [p|] eqn:Hp; [|discriminate].
      cbv zeta. destruct (within2D box buff (image2D box p i j)) eqn:Hin;
        intros [= <-]; [|exact Hb].
      apply push_back_tested; [exact Hb|].
      split; [exact Hparticle|]. exists p. split; [exact Hp|]. rewrite H2D.
      exists i, j. repeat (split; [assumption|]). split; [|auto].
      apply orb_true_iff in Hnz.
      destruct Hnz as [Hnz|Hnz]; apply negb_true_iff, Z.eqb_neq in Hnz; auto.
    + intros [= <-]. exact Hb.
  - apply (for_int_inv_visited buffers
             (fun b => Forall2 (tested box points Np buff)
                               (buffer_parts b) (buffer_ids b))); [|exact Hb].
    intros k s s' Hk Hs.
    destruct (negb ((i =? 0)%Z && (j =? 0)%Z && (k =? 0)%Z)) eqn:Hnz.
    + destruct (nth_error points particle) as [p|] eqn:Hp; [|discriminate].
      cbv zeta. destruct (within3D box buff (image3D box p i j k)) eqn:Hin;
        intros [= <-]; [|exact Hs].
      apply push_back_tested; [exact Hs|].
      split; [exact Hparticle|]. exists p. split; [exact Hp|]. rewrite H2D.
      exists i, j, k. repeat (split; [assumption|]). split; [|auto].
      apply negb_true_iff in Hnz. intros (-> & -> & ->). discriminate Hnz.
    + intros [= <-]. exact Hs.
Qed.

(** X2.  [VoronoiBuffer::compute] stores nothing else: when it returns,
    the two output vectors pair up, and each entry is the image of the
    input point of its id under a nonzero offset that the loops reach, and
    that image passed the buffer test of lines 67-68 (2D) or 87-89 (3D). *)
Theorem voronoi_entries_tested fuel box points Np buff b :
  compute fuel box points Np buff = Returns b ->
  Forall2 (tested box points Np buff) (buffer_parts b) (buffer_ids b).
Proof.
  unfold compute.
  apply (for_particles_inv buffers
           (fun b => Forall2 (tested box points Np buff)
                             (buffer_parts b) (buffer_ids b))); [|constructor].
  intros particle s s' Hrange Hs.
  apply (for_int_inv_visited buffers
           (fun b => Forall2 (tested box points Np buff)
                             (buffer_parts b) (buffer_ids b))); [|exact Hs].
  intros i t t' Hi Ht.
  apply (for_int_inv_visited buffers
           (fun b => Forall2 (tested box points Np buff)
                             (buffer_parts b) (buffer_ids b))); [|exact Ht].
  intros j u u' Hj Hu. apply body_j_tested; trivial. lia.
Qed.

Lemma voronoi_entries_tested_witness :
  Forall2 (tested box2D two_points 2 (of_int 2))
          (buffer_parts out2D) (buffer_ids out2D).
Proof.
  apply (voronoi_entries_tested 8 box2D two_points 2 (of_int 2) out2D).
  vm_compute. reflexivity.
Defined.

(** *** The ids come out in ascending order *)

Lemma StronglySorted_snoc (l : list nat) (a : nat) :
  StronglySorted le l -> Forall (fun x => (x <= a)%nat) l ->
  StronglySorted le (l ++ [a]).
Proof.
  induction 1 as [|x l Hl IH Hx]; intros Ha; simpl.
  - repeat constructor.
  - inversion Ha as [|? ? Hxa Hla]; subst. constructor; [auto|].
    apply Forall_app. split; [exact Hx|]. constructor; [exact Hxa|constructor].
Qed.

Lemma push_back_ascending (b : buffers) (img : vec3) (particle : nat) :
  ascending_below (Datatypes.S particle) b ->
  ascending_below (Datatypes.S particle) (push_back b img particle).
Proof.
  intros [Hs Hb]. unfold ascending_below, push_back. cbn [buffer_ids]. split.
  - apply StronglySorted_snoc; [exact Hs|].
    eapply Forall_impl; [|exact Hb]. cbv beta. intros; lia.
  - apply Forall_app. split; [exact Hb|]. constructor; [lia|constructor].
Qed.

Lemma body_j_ascending fuel box buff z points particle i j b b' :
  ascending_below (Datatypes.S particle) b ->
  body_j fuel box buff z points particle i j b = Returns b' ->
  ascending_below (Datatypes.S particle) b'.
Proof.
  intros Hb. unfold body_j. destruct (is2D box).
  - destruct (negb (i =? 0)%Z || negb (j =? 0)%Z).
    + destruct (nth_error points particle) as [p|]; [|discriminate].
      cbv zeta. destruct (within2D _ _ _); intros [= <-];
        [now apply push_back_ascending | exact Hb].
    + intros [= <-]. exact Hb.
  - apply (for_int_inv buffers (ascending_below (Datatypes.S particle)));
      [|exact Hb].
    intros k s s' Hs.
    destruct (negb _).
    + destruct (nth_error points particle) as [p|]; [|discriminate].
      cbv zeta. destruct (within3D _ _ _); intros [= <-];
        [now apply push_back_ascending | exact Hs].
    + intros [= <-]. exact Hs.
Qed.

Lemma for_particles_inv_indexed (St : Type) (P : nat -> St -> Prop)
    (body : nat -> St -> outcome St) :
  forall n start,
    (forall particle s s',
        (start <= particle < start + n)%nat ->
        P particle s -> body particle s = Returns s' ->
        P (Datatypes.S particle) s') ->
    forall s r, P start s -> for_particles n start body s = Returns r ->
                P (start + n)%nat r.
Proof.
  induction n as [|n IH]; intros start Hbody s r Hs; simpl.
  - intros [= <-]. now rewrite Nat.add_0_r.
  - destruct (body start s) as [s'| | |] eqn:Hb; try discriminate.
    intros Hr. replace (start + Datatypes.S n)%nat with (Datatypes.S start + n)%nat by lia.
    apply (IH (Datatypes.S start)) with (s := s'); [| |exact Hr].
    + intros particle t t' Hrange. apply Hbody. lia.
    + eapply Hbody; eauto. lia.
Qed.

(** X3.  The output of [VoronoiBuffer::compute] is grouped by particle:
    the ids come out in ascending order (each below [Np]), so the images
    of one input point are next to each other. *)
Theorem voronoi_ids_ascending fuel box points Np buff b :
  compute fuel box points Np buff = Returns b ->
  StronglySorted le (buffer_ids b) /\
  Forall (fun id => (id < Np)%nat) (buffer_ids b).
Proof.
  unfold compute. intros Hc.
  apply (for_particles_inv_indexed buffers ascending_below _ Np 0%nat) in Hc.
  - exact Hc.
  - intros particle s s' _ [Hs Hb].
    apply (for_int_inv buffers (ascending_below (Datatypes.S particle))).
    + intros i t t' Ht.
      apply (for_int_inv buffers (ascending_below (Datatypes.S particle)));
        [|exact Ht].
      intros j u u' Hu. now apply body_j_ascending.
    + split; [exact Hs|]. eapply Forall_impl; [|exact Hb]. cbv beta. intros; lia.
  - split; constructor.
Qed.

Lemma voronoi_ids_ascending_witness :
  StronglySorted le (buffer_ids out3D) /\
  Forall (fun id => (id < 2)%nat) (buffer_ids out3D).
Proof.
  apply (voronoi_ids_ascending 8 box3D two_points 2 (of_int 2) out3D).
  vm_compute. reflexivity.
Defined.

(** *** When [compute] returns *)

Lemma for_int_from_returns (St : Type) (body : Z -> St -> outcome St)
    (bound : float) :
  leb (of_int INT_MAX) bound = false ->
  (forall i s, exists s', body i s = Returns s') ->
  forall fuel i s,
    (i <= INT_MAX)%Z -> (INT_MAX - i < Z.of_nat fuel)%Z ->
    exists r, for_int_from fuel i bound body s = Returns r.
Proof.
  intros Hmax Hbody. induction fuel as [|fuel IH]; intros i s Hi Hfuel.
  - unfold INT_MAX in *. lia.
  - cbn [for_int_from]. destruct (leb (of_int i) bound) eqn:Hc; [|eauto].
    destruct (Hbody i s) as [s' ->].
    destruct (i <? INT_MAX)%Z eqn:Hlt.
    + apply Z.ltb_lt in Hlt. apply IH; unfold INT_MAX in *; lia.
    + apply Z.ltb_ge in Hlt. assert (i = INT_MAX) as -> by lia. congruence.
Qed.

Lemma for_int_returns (St : Type) (body : Z -> St -> outcome St) (x : float) :
  loop_bound_ok x ->
  (forall i s, exists s', body i s = Returns s') ->
  forall fuel s, enough_fuel fuel -> exists r, for_int fuel x body s = Returns r.
Proof.
  intros [[lo Hlo] Hmax] Hbody fuel s Hfuel. unfold for_int. rewrite Hlo.
  apply to_int_range in Hlo. unfold enough_fuel in Hfuel.
  apply for_int_from_returns; trivial; unfold INT_MIN, INT_MAX in *; lia.
Qed.

Lemma for_particles_returns (St : Type) (body : nat -> St -> outcome St) :
  forall n start,
    (forall particle s, (start <= particle < start + n)%nat ->
                        exists s', body particle s = Returns s') ->
    forall s, exists r, for_particles n start body s = Returns r.
Proof.
  induction n as [|n IH]; intros start Hbody s; simpl.
  - eauto.
  - destruct (Hbody start s) as [s' ->]; [lia|].
    apply IH. intros particle t Hrange. apply Hbody. lia.
Qed.

(** X4.  [VoronoiBuffer::compute] returns, with no undefined step, when
    [points] holds [Np] points and the loop bounds [ceil(buff / l)] of the
    edges in use convert to [int] and lie below [(float) INT_MAX]. *)
Theorem voronoi_compute_returns fuel box points Np buff :
  enough_fuel fuel ->
  (Np <= List.length points)%nat ->
  loop_bound_ok (ix box buff) ->
  loop_bound_ok (iy box buff) ->
  (is2D box = false -> loop_bound_ok (iz box buff)) ->
  exists b, compute fuel box points Np buff = Returns b.
Proof.
  intros Hfuel Hlen Hx Hy Hz. unfold compute.
  apply for_particles_returns. intros particle s Hrange.
  destruct (nth_error points particle) as [p|] eqn:Hp.
  2:{ apply nth_error_None in Hp. lia. }
  apply for_int_returns; trivial. intros i t.
  apply for_int_returns; trivial. intros j u.
  unfold body_j. destruct (is2D box).
  - destruct (negb (i =? 0)%Z || negb (j =? 0)%Z); [|eauto].
    rewrite Hp. cbv zeta. destruct (within2D _ _ _); eauto.
  - apply for_int_returns; auto. intros k v.
    destruct (negb _); [|eauto].
    rewrite Hp. cbv zeta. destruct (within3D _ _ _); eauto.
Qed.

Lemma voronoi_compute_returns_witness :
  exists b, compute (Z.to_nat (2 ^ 32)) box3D two_points 2 (of_int 2) = Returns b.
Proof.
  assert (Hok : forall z : float,
             z = ceil (div (of_int 2) (of_int 10)) -> loop_bound_ok z).
  { intros z ->. split; [exists (-1)%Z|]; vm_compute; reflexivity. }
  apply (voronoi_compute_returns (Z.to_nat (2 ^ 32)) box3D two_points 2 (of_int 2)).
  - unfold enough_fuel. rewrite Z2Nat.id; lia.
  - simpl. lia.
  - exact (Hok _ eq_refl).
  - exact (Hok _ eq_refl).
  - intros _. exact (Hok _ eq_refl).
Defined.

(** *** Edges of length zero, buffers of width zero *)

Lemma zero_length_bound (buff : float) (s : bool) :
  to_int (neg (ceil (div buff (S754_zero s)))) = None.
Proof. destruct buff as [t| t| |t m e]; reflexivity. Qed.

(** X5.  A box whose first edge has length zero makes
    [VoronoiBuffer::compute] undefined as soon as there is a particle:
    [buff / lx] is an infinity or a NaN, and line 54 converts it to
    [int]. *)
Theorem voronoi_zero_length_undefined fuel box points Np buff s :
  getLx box = S754_zero s -> (0 < Np)%nat ->
  compute fuel box points Np buff = Undefined.
Proof.
  intros Hlx HNp. destruct Np as [|Np]; [lia|].
  unfold compute. cbn [for_particles].
  unfold for_int at 1. rewrite Hlx, zero_length_bound. reflexivity.
Qed.

Lemma voronoi_zero_length_undefined_witness :
  compute 8 flat_box two_points 2 (of_int 2) = Undefined.
Proof.
  apply (voronoi_zero_length_undefined 8 flat_box two_points 2 (of_int 2) false).
  - reflexivity.
  - lia.
Defined.

Lemma for_int_zero (St : Type) (body : Z -> St -> outcome St) (t : bool)
    (fuel : nat) (s : St) :
  (2 <= fuel)%nat ->
  body 0%Z s = Returns s ->
  for_int fuel (S754_zero t) body s = Returns s.
Proof.
  intros Hfuel Hb. destruct fuel as [|[|fuel]]; try lia.
  unfold for_int.
  change (to_int (neg (S754_zero t))) with (Some 0%Z).
  cbn [for_int_from].
  replace (leb (of_int 0) (S754_zero t)) with true by (destruct t; reflexivity).
  rewrite Hb.
  change (0 <? INT_MAX)%Z with true. cbv iota.
  replace (leb (of_int (0 + 1)) (S754_zero t)) with false
    by (destruct t; vm_compute; reflexivity).
  reflexivity.
Qed.

Lemma zero_buff_bound (s : bool) (l : float) :
  nonzero_length l -> exists t, ceil (div (S754_zero s) l) = S754_zero t.
Proof.
  destruct l as [t| t| |t m e]; simpl; intros H; try contradiction;
    eexists; reflexivity.
Qed.

Lemma for_particles_unchanged (St : Type) (body : nat -> St -> outcome St) (s : St) :
  forall n start,
    (forall particle, (start <= particle < start + n)%nat ->
                      body particle s = Returns s) ->
    for_particles n start body s = Returns s.
Proof.
  induction n as [|n IH]; intros start Hbody; simpl.
  - reflexivity.
  - rewrite Hbody by lia. apply IH. intros particle Hrange. apply Hbody. lia.
Qed.

(** X6.  With a buffer of width zero [VoronoiBuffer::compute] emits
    nothing: for edges that are neither zero nor NaN the three loop bounds
    are zero, so only the offset [(0, 0, 0)] is visited, and that one is
    skipped. *)
Theorem voronoi_no_buffer_no_images fuel box points Np s :
  (2 <= fuel)%nat ->
  (Np <= List.length points)%nat ->
  nonzero_length (getLx box) -> nonzero_length (getLy box) ->
  (is2D box = false -> nonzero_length (getLz box)) ->
  compute fuel box points Np (S754_zero s)
  = Returns {| buffer_parts := []; buffer_ids := [] |}.
Proof.
  intros Hfuel Hlen Hx Hy Hz. unfold compute. cbv zeta.
  destruct (zero_buff_bound s _ Hx) as [tx ->].
  destruct (zero_buff_bound s _ Hy) as [ty ->].
  apply for_particles_unchanged. intros particle Hrange.
  apply for_int_zero; [exact Hfuel|].
  apply for_int_zero; [exact Hfuel|].
  unfold body_j. destruct (is2D box); [reflexivity|].
  destruct (zero_buff_bound s _ (Hz eq_refl)) as [tz ->].
  apply for_int_zero; [exact Hfuel|]. reflexivity.
Qed.

Lemma voronoi_no_buffer_no_images_witness :
  compute 8 box3D two_points 2 zero
  = Returns {| buffer_parts := []; buffer_ids := [] |}.
Proof.
  assert (Hl : forall l : float, l = of_int 10 -> nonzero_length l).
  { intros l ->. exact I. }
  apply (voronoi_no_buffer_no_images 8 box3D two_points 2 false).
  - lia.
  - simpl. lia.
  - exact (Hl _ eq_refl).
  - exact (Hl _ eq_refl).
  - intros _. exact (Hl _ eq_refl).
Defined.

(** *** The points that [compute] reads *)

Lemma for_particles_ext (St : Type) (body body' : nat -> St -> outcome St) :
  forall n start,
    (forall particle s, (start <= particle < start + n)%nat ->
                        body particle s = body' particle s) ->
    forall s, for_particles n start body s = for_particles n start body' s.
Proof.
  induction n as [|n IH]; intros start Hext s; simpl; [reflexivity|].
  rewrite <- (Hext start s) by lia.
  destruct (body start s); trivial. apply IH. intros particle t Hrange.
  apply Hext. lia.
Qed.

Lemma for_int_from_defined (St : Type) (body : Z -> St -> outcome St)
    (bound : float) :
  (forall i s, body i s = Undefined \/ exists s', body i s = Returns s') ->
  forall fuel i s,
    (i <= INT_MAX)%Z -> (INT_MAX - i < Z.of_nat fuel)%Z ->
    for_int_from fuel i bound body s = Undefined \/
    exists r, for_int_from fuel i bound body s = Returns r.
Proof.
  intros Hbody. induction fuel as [|fuel IH]; intros i s Hi Hfuel.
  - unfold INT_MAX in *. lia.
  - cbn [for_int_from]. destruct (leb (of_int i) bound); [|eauto].
    destruct (Hbody i s) as [-> | [s' ->]]; [now left|].
    destruct (i <? INT_MAX)%Z eqn:Hlt; [|now left].
    apply Z.ltb_lt in Hlt. apply IH; unfold INT_MAX in *; lia.
Qed.

Lemma for_int_defined (St : Type) (body : Z -> St -> outcome St) (x : float) :
  (forall i s, body i s = Undefined \/ exists s', body i s = Returns s') ->
  forall fuel s, enough_fuel fuel ->
    for_int fuel x body s = Undefined \/ exists r, for_int fuel x body s = Returns r.
Proof.
  intros Hbody fuel s Hfuel. unfold for_int.
  destruct (to_int (neg x)) as [lo|] eqn:Hlo; [|now left].
  apply to_int_range in Hlo. unfold enough_fuel in Hfuel.
  apply for_int_from_defined; trivial; unfold INT_MIN, INT_MAX in *; lia.
Qed.

Lemma body_j_defined fuel box buff z points particle i j b :
  enough_fuel fuel ->
  body_j fuel box buff z points particle i j b = Undefined \/
  exists b', body_j fuel box buff z points particle i j b = Returns b'.
Proof.
  intros Hfuel. unfold body_j. destruct (is2D box).
  - destruct (negb (i =? 0)%Z || negb (j =? 0)%Z); [|eauto].
    destruct (nth_error points particle) as [p|]; [|now left].
    cbv zeta. destruct (within2D _ _ _); eauto.
  - apply for_int_defined; trivial. intros k s.
    destruct (negb _); [|eauto].
    destruct (nth_error points particle) as [p|]; [|now left].
    cbv zeta. destruct (within3D _ _ _); eauto.
Qed.

Lemma for_particles_undefined (St : Type) (body : nat -> St -> outcome St)
    (missing : nat) :
  (forall particle s, body particle s = Undefined \/
                      exists s', body particle s = Returns s') ->
  (forall s, body missing s = Undefined) ->
  forall n start s,
    (start <= missing < start + n)%nat ->
    for_particles n start body s = Undefined.
Proof.
  intros Hbody Hmissing. induction n as [|n IH]; intros start s Hrange; [lia|].
  cbn [for_particles].
  destruct (Hbody start s) as [-> | [s' Hs']]; [reflexivity|].
  rewrite Hs'. destruct (Nat.eq_dec start missing) as [->|Hne].
  - rewrite Hmissing in Hs'. discriminate.
  - apply IH. lia.
Qed.

Lemma for_int_from_ext (St : Type) (body body' : Z -> St -> outcome St)
    (bound : float) :
  (forall i s, body i s = body' i s) ->
  forall fuel i s,
    for_int_from fuel i bound body s = for_int_from fuel i bound body' s.
Proof.
  intros Hext. induction fuel as [|fuel IH]; intros i s; cbn [for_int_from];
    [reflexivity|].
  rewrite <- Hext. destruct (leb (of_int i) bound); trivial.
  destruct (body i s); trivial. destruct (i <? INT_MAX)%Z; trivial.
Qed.

Lemma for_int_ext (St : Type) (body body' : Z -> St -> outcome St) (x : float) :
  (forall i s, body i s = body' i s) ->
  forall fuel s, for_int fuel x body s = for_int fuel x body' s.
Proof.
  intros Hext fuel s. unfold for_int. destruct (to_int (neg x)); trivial.
  now apply for_int_from_ext.
Qed.

Lemma body_j_firstn fuel box buff z points Np particle i j b :
  (particle < Np)%nat ->
  body_j fuel box buff z (firstn Np points) particle i j b
  = body_j fuel box buff z points particle i j b.
Proof.
  intros Hlt. apply Nat.ltb_lt in Hlt. unfold body_j. destruct (is2D box).
  - now rewrite nth_error_firstn, Hlt.
  - apply for_int_ext. intros k s. now rewrite nth_error_firstn, Hlt.
Qed.

(** A loop that reaches an index at which its body is undefined is
    undefined. *)
Lemma for_int_from_undefined_at (St : Type) (body : Z -> St -> outcome St)
    (bound : float) (i : Z) :
  (forall k s, body k s = Undefined \/ exists s', body k s = Returns s') ->
  (forall s, body i s = Undefined) ->
  forall fuel lo s,
    (lo <= i)%Z ->
    (forall i', (lo <= i' <= i)%Z -> leb (of_int i') bound = true) ->
    (lo <= INT_MAX)%Z -> (INT_MAX - lo < Z.of_nat fuel)%Z ->
    for_int_from fuel lo bound body s = Undefined.
Proof.
  intros Hbody Hi. induction fuel as [|fuel IH]; intros lo s Hlo Hcond Hmax Hfuel.
  - unfold INT_MAX in *. lia.
  - cbn [for_int_from]. rewrite (Hcond lo) by lia.
    destruct (Hbody lo s) as [-> | [s' Hs']]; [reflexivity|].
    rewrite Hs'. destruct (Z.eq_dec lo i) as [->|Hne].
    { rewrite Hi in Hs'. discriminate. }
    destruct (lo <? INT_MAX)%Z eqn:Hlt; [|reflexivity].
    apply Z.ltb_lt in Hlt. apply IH; try (unfold INT_MAX in *; lia).
    intros i' Hi'. apply Hcond. lia.
Qed.

Lemma for_int_undefined_at (St : Type) (body : Z -> St -> outcome St)
    (x : float) (i : Z) :
  (forall k s, body k s = Undefined \/ exists s', body k s = Returns s') ->
  (forall s, body i s = Undefined) ->
  visited x i ->
  forall fuel s, enough_fuel fuel -> for_int fuel x body s = Undefined.
Proof.
  intros Hbody Hi (lo & Hlo & Hle & Hcond) fuel s Hfuel.
  unfold for_int. rewrite Hlo. apply to_int_range in Hlo.
  unfold enough_fuel in Hfuel.
  apply (for_int_from_undefined_at St body x i); trivial;
    unfold INT_MIN, INT_MAX in *; lia.
Qed.

(** X21.  [VoronoiBuffer::compute] reads the first [Np] points and no
    other: the call on the whole array and the call on its first [Np]
    elements give the same result.  With fewer than [Np] points the call
    is undefined once the loops reach a nonzero offset, where line 62 or
    line 81 reads the missing point past the end of the array. *)
Theorem voronoi_reads_Np_points fuel box points Np buff :
  compute fuel box (firstn Np points) Np buff = compute fuel box points Np buff /\
  (enough_fuel fuel -> (List.length points < Np)%nat ->
   forall i j k,
     visited (ix box buff) i -> visited (iy box buff) j ->
     (if is2D box then (i <> 0 \/ j <> 0)%Z
      else visited (iz box buff) k /\ ~ (i = 0 /\ j = 0 /\ k = 0)%Z) ->
     compute fuel box points Np buff = Undefined).
Proof.
  split.
  - unfold compute. apply for_particles_ext. intros particle s Hrange.
    apply for_int_ext. intros i t. apply for_int_ext. intros j u.
    apply body_j_firstn. lia.
  - intros Hfuel Hlen i j k Hi Hj Hnz. unfold compute.
    assert (Hnone : nth_error points (List.length points) = None).
    { apply nth_error_None. lia. }
    assert (Hj_defined : forall particle i j s,
               body_j fuel box buff (ceil (div buff (getLz box))) points particle i j s
               = Undefined \/
               exists s', body_j fuel box buff (ceil (div buff (getLz box)))
                            points particle i j s = Returns s').
    { intros. now apply body_j_defined. }
    apply (for_particles_undefined buffers _ (List.length points)); [| |lia].
    + intros particle s. apply for_int_defined; trivial. intros i0 t.
      apply for_int_defined; trivial.
    + intros s. apply (for_int_undefined_at buffers _ _ i); trivial.
      * intros i0 t. apply for_int_defined; trivial.
      * intros t. apply (for_int_undefined_at buffers _ _ j); trivial.
        intros u. unfold body_j. destruct (is2D box).
        -- replace (negb (i =? 0)%Z || negb (j =? 0)%Z) with true.
           ++ now rewrite Hnone.
           ++ symmetry. apply orb_true_iff.
              destruct Hnz as [Hnz|Hnz]; [left|right];
                apply negb_true_iff; apply Z.eqb_neq; exact Hnz.
        -- destruct Hnz as [Hk Hnz].
           apply (for_int_undefined_at buffers _ _ k); trivial.
           ++ intros k0 v. destruct (negb _); [|eauto].
              rewrite Hnone. now left.
           ++ intros v.
              replace (negb ((i =? 0)%Z && (j =? 0)%Z && (k =? 0)%Z)) with true.
              ** now rewrite Hnone.
              ** symmetry. apply negb_true_iff. apply not_true_is_false.
                 intros H. apply andb_true_iff in H. destruct H as [H Hk0].
                 apply andb_true_iff in H. destruct H as [Hi0 Hj0].
                 apply Z.eqb_eq in Hi0, Hj0, Hk0. auto.
Qed.

Lemma voronoi_reads_Np_points_witness :
  compute (Z.to_nat (2 ^ 32)) box3D (firstn 3 two_points) 3 (of_int 2)
  = compute (Z.to_nat (2 ^ 32)) box3D two_points 3 (of_int 2) /\
  compute (Z.to_nat (2 ^ 32)) box3D two_points 3 (of_int 2) = Undefined.
Proof.
  assert (Hv : forall z : float,
             z = ceil (div (of_int 2) (of_int 10)) -> visited z (-1)).
  { intros z ->. exists (-1)%Z. split; [vm_compute; reflexivity|]. split; [lia|].
    intros i' Hi'. assert (i' = -1)%Z as -> by lia. vm_compute. reflexivity. }
  destruct (voronoi_reads_Np_points (Z.to_nat (2 ^ 32)) box3D two_points 3 (of_int 2))
    as [H1 H2].
  split; [exact H1|]. apply (H2 ltac:(unfold enough_fuel; rewrite Z2Nat.id; lia)
                               ltac:(simpl; lia) (-1)%Z (-1)%Z (-1)%Z).
  - exact (Hv _ eq_refl).
  - exact (Hv _ eq_refl).
  - split; [exact (Hv _ eq_refl) | lia].
Defined.

End VoronoiFacts.


(** ** Proofs about [AABBQuery::query(point, k)] *)

Module AABBQueryFacts.
Import AABBQuery.

(** C8: for every query point and every [k], the two-argument
    [AABBQuery::query(point, k)] throws ([std::runtime_error], the spec's
    UnsupportedQueryMode); it never returns an iterator, so nothing is put
    in the place of the radius and scale guesses. *)
Theorem query_without_guesses_throws
    (AABBTree AABB NeighborList Box SpatialDataIterator : Type)
    (self : AABBQuery AABBTree AABB NeighborList Box) (point : vec3) (k : Z) :
  (exists what,
      query SpatialDataIterator self point k = Throws (runtime_error what)) /\
  (forall it, query SpatialDataIterator self point k <> Returns it).
Proof.
  split.
  - eexists. reflexivity.
  - intros it. unfold query. discriminate.
Qed.

End AABBQueryFacts.

(** ** Proofs about [CubaticOrderParameter] *)

Module CubaticFacts.
Import F32 Cubatic CubaticSpec FloatOrder FloatOrderFacts.

(** *** The constructor *)

(** The literal [1e-6] is the [double] nearest to 10^-6: its mantissa
    times 2^-72 is within half a unit of 10^-6. *)
Lemma lit_1em6_nearest :
  lit_1em6 = S754_finite false 4722366482869645 (-72) /\
  (2 * 4722366482869645 * 10 ^ 6 - 10 ^ 6 < 2 * 2 ^ 72
   < 2 * 4722366482869645 * 10 ^ 6 + 10 ^ 6)%Z.
Proof. split; [vm_compute; reflexivity | lia]. Qed.

(** C2, as stated, fails: [scale = 1] lies outside the open interval
    (0, 1), and the constructor accepts it. *)
Lemma construct_accepts_scale_one :
  ~ in_open_unit (of_int 1) /\
  exists self,
    construct (env := sample_env) (of_int 2) (of_int 1) (of_int 1) 2 42
    = Returns self.
Proof.
  split.
  - intros [_ H]. vm_compute in H. discriminate.
  - eexists. vm_compute. reflexivity.
Qed.

Section Constructor.
Context {env : Environment}.

(** C2, amended: the constructor throws [std::invalid_argument] (the
    spec's InvalidParameter), before anything else is done, when
    [t_initial < t_final], when [t_final < 1e-6], and when [scale < 0] or
    [scale > 1]; it returns an object when [t_initial > t_final],
    [t_final >= 1e-6] and [0 <= scale <= 1]. *)
Theorem construct_validation (t_initial t_final scale : float)
    (replicates : nat) (seed : Z) :
  (ltb t_initial t_final = true \/
   F64.ltb (F64.of_f32 t_final) lit_1em6 = true \/
   ltb scale (of_int 0) = true \/ gtb scale (of_int 1) = true ->
   exists what,
     construct t_initial t_final scale replicates seed
     = Throws (invalid_argument what)) /\
  (gtb t_initial t_final = true ->
   F64.leb lit_1em6 (F64.of_f32 t_final) = true ->
   leb (of_int 0) scale = true -> leb scale (of_int 1) = true ->
   exists self, construct t_initial t_final scale replicates seed = Returns self).
Proof.
  unfold construct. split.
  - intros H.
    destruct (ltb t_initial t_final); [eexists; reflexivity|].
    destruct (F64.ltb (F64.of_f32 t_final) lit_1em6); [eexists; reflexivity|].
    destruct (gtb scale (of_int 1)); [eexists; reflexivity|].
    destruct (ltb scale (of_int 0)); [eexists; reflexivity|].
    destruct H as [H|[H|[H|H]]]; discriminate.
  - intros H1 H2 H3 H4.
    rewrite (SFltb_asym _ _ H1 : ltb t_initial t_final = false).
    rewrite (SFltb_false_of_le _ _ H2 : F64.ltb (F64.of_f32 t_final) lit_1em6 = false).
    rewrite (SFltb_false_of_le _ _ H3 : ltb scale (of_int 0) = false).
    rewrite (SFltb_false_of_le _ _ H4 : gtb scale (of_int 1) = false).
    eexists. reflexivity.
Qed.

End Constructor.

Lemma construct_validation_witness :
  (exists what,
      construct (env := sample_env) (of_int 1) (of_int 2)
                (div (of_int 1) (of_int 4)) 2 42
      = Throws (invalid_argument what)) /\
  (exists self,
      construct (env := sample_env) (of_int 2) (of_int 1)
                (div (of_int 1) (of_int 4)) 2 42
      = Returns self).
Proof.
  split.
  - apply (construct_validation (env := sample_env)).
    left. vm_compute. reflexivity.
  - apply (construct_validation (env := sample_env));
      vm_compute; reflexivity.
Defined.

(** The check of the temperatures is [t_initial < t_final]: equal
    temperatures pass it. *)
Remark construct_accepts_equal_temperatures :
  exists self,
    construct (env := sample_env) (of_int 1) (of_int 1)
              (div (of_int 1) (of_int 4)) 2 42
    = Returns self.
Proof. eexists. vm_compute. reflexivity. Qed.

(** *** Arrays of 81 floats *)

Lemma length_set (A : Type) (d : list A) (i : nat) (x : A) :
  List.length (set d i x) = List.length d.
Proof.
  revert i. induction d as [|y d IH]; intros [|i]; simpl; auto.
Qed.

Lemma nth_set_eq (A : Type) (d : list A) (i : nat) (x dflt : A) :
  (i < List.length d)%nat -> nth i (set d i x) dflt = x.
Proof.
  revert i. induction d as [|y d IH]; intros [|i]; simpl; try lia; auto.
  intros H. apply IH. lia.
Qed.

Lemma nth_set_ne (A : Type) (d : list A) (i j : nat) (x dflt : A) :
  i <> j -> nth j (set d i x) dflt = nth j d dflt.
Proof.
  revert i j. induction d as [|y d IH]; intros [|i] [|j]; simpl; auto;
    congruence.
Qed.

Lemma for_range_S (S : Type) (n : nat) (body : nat -> S -> S) (s : S) :
  for_range (Datatypes.S n) body s = body n (for_range n body s).
Proof.
  unfold for_range. rewrite seq_S, fold_left_app. reflexivity.
Qed.

(** A loop that assigns [d[i] = F i d[i]] for every [i < n]. *)
Lemma for_range_assign (F : nat -> float -> float) (n : nat) (d : list float) :
  (n <= List.length d)%nat ->
  List.length (for_range n (fun i d => set d i (F i (get d i))) d) = List.length d /\
  forall k,
    get (for_range n (fun i d => set d i (F i (get d i))) d) k
    = if (k <? n)%nat then F k (get d k) else get d k.
Proof.
  induction n as [|n IH]; intros Hn.
  - split; trivial.
  - destruct IH as [IHl IHg]; [lia|]. rewrite for_range_S. split.
    + now rewrite length_set.
    + intros k. unfold get at 1. destruct (Nat.eq_dec n k) as [<-|Hk].
      * rewrite nth_set_eq by lia. rewrite IHg.
        rewrite Nat.ltb_irrefl.
        destruct (Nat.ltb_spec n (Datatypes.S n)); [reflexivity|lia].
      * rewrite nth_set_ne by trivial. fold (get (for_range n (fun i d => set d i (F i (get d i))) d) k).
        rewrite IHg.
        destruct (Nat.ltb_spec k n), (Nat.ltb_spec k (Datatypes.S n));
          trivial; lia.
Qed.

Lemma length_zeros (n : nat) : List.length (zeros n) = n.
Proof. apply repeat_length. Qed.

Lemma tensor4_add_get (a b : tensor4) (k : nat) :
  List.length (data a) = 81%nat -> (k < 81)%nat ->
  get (data (tensor4_add a b)) k = add (get (data a) k) (get (data b) k).
Proof.
  intros Ha Hk. unfold tensor4_add. cbn [data].
  destruct (for_range_assign (fun i x => add x (get (data b) i)) 81 (data a))
    as [_ H]; [lia|].
  rewrite H. destruct (Nat.ltb_spec k 81); [reflexivity|lia].
Qed.

Lemma tensor4_add_length (a b : tensor4) :
  List.length (data a) = 81%nat -> List.length (data (tensor4_add a b)) = 81%nat.
Proof.
  intros Ha. unfold tensor4_add. cbn [data].
  destruct (for_range_assign (fun i x => add x (get (data b) i)) 81 (data a))
    as [H _]; [lia|]. now rewrite H.
Qed.

Lemma tensor4_scale_assign_get (a : tensor4) (c : float) (k : nat) :
  List.length (data a) = 81%nat -> (k < 81)%nat ->
  get (data (tensor4_scale_assign a c)) k = mul (get (data a) k) c.
Proof.
  intros Ha Hk. unfold tensor4_scale_assign. cbn [data].
  destruct (for_range_assign (fun i x => mul x c) 81 (data a)) as [_ H]; [lia|].
  rewrite H. destruct (Nat.ltb_spec k 81); [reflexivity|lia].
Qed.

Lemma tensor4_scale_assign_length (a : tensor4) (c : float) :
  List.length (data a) = 81%nat ->
  List.length (data (tensor4_scale_assign a c)) = 81%nat.
Proof.
  intros Ha. unfold tensor4_scale_assign. cbn [data].
  destruct (for_range_assign (fun i x => mul x c) 81 (data a)) as [H _]; [lia|].
  now rewrite H.
Qed.

Lemma tensor4_sub_assign_get (a b : tensor4) (k : nat) :
  List.length (data a) = 81%nat -> (k < 81)%nat ->
  get (data (tensor4_sub_assign a b)) k = sub (get (data a) k) (get (data b) k).
Proof.
  intros Ha Hk. unfold tensor4_sub_assign. cbn [data].
  destruct (for_range_assign (fun i x => sub x (get (data b) i)) 81 (data a))
    as [_ H]; [lia|].
  rewrite H. destruct (Nat.ltb_spec k 81); [reflexivity|lia].
Qed.

Lemma tensor4_sub_assign_length (a b : tensor4) :
  List.length (data a) = 81%nat ->
  List.length (data (tensor4_sub_assign a b)) = 81%nat.
Proof.
  intros Ha. unfold tensor4_sub_assign. cbn [data].
  destruct (for_range_assign (fun i x => sub x (get (data b) i)) 81 (data a))
    as [H _]; [lia|]. now rewrite H.
Qed.

Lemma tensor4_sub_get (a b : tensor4) (k : nat) :
  (k < 81)%nat ->
  get (data (tensor4_sub a b)) k = sub (get (data a) k) (get (data b) k).
Proof.
  intros Hk. unfold tensor4_sub.
  cbn [data tensor4_zero].
  destruct (for_range_assign (fun i _ => sub (get (data a) i) (get (data b) i))
                             81 (zeros 81)) as [_ H].
  - rewrite length_zeros. lia.
  - rewrite H. destruct (Nat.ltb_spec k 81); [reflexivity|lia].
Qed.

Lemma tensor4_zero_length : List.length (data tensor4_zero) = 81%nat.
Proof. reflexivity. Qed.

Create HintDb tensor_length.
#[local] Hint Resolve tensor4_add_length tensor4_scale_assign_length
  tensor4_sub_assign_length tensor4_zero_length : tensor_length.

Lemma index_cases (i : nat) : (i < 3)%nat -> i = 0%nat \/ i = 1%nat \/ i = 2%nat.
Proof. lia. Qed.

(** The constructor from a vector fills component [(i, j, k, l)] with the
    product of the four components of the vector. *)
Lemma tensor4_of_vec3_get (v : vec3) (i j k l : nat) :
  (i < 3)%nat -> (j < 3)%nat -> (k < 3)%nat -> (l < 3)%nat ->
  get (data (tensor4_of_vec3 v)) (flat i j k l) = outer4 v i j k l.
Proof.
  intros Hi Hj Hk Hl.
  destruct (index_cases _ Hi) as [->|[->| ->]];
    destruct (index_cases _ Hj) as [->|[->| ->]];
    destruct (index_cases _ Hk) as [->|[->| ->]];
    destruct (index_cases _ Hl) as [->|[->| ->]];
    reflexivity.
Qed.

Lemma tensor4_of_vec3_length (v : vec3) :
  List.length (data (tensor4_of_vec3 v)) = 81%nat.
Proof. reflexivity. Qed.

Lemma flat_lt (i j k l : nat) :
  (i < 3)%nat -> (j < 3)%nat -> (k < 3)%nat -> (l < 3)%nat ->
  (flat i j k l < 81)%nat.
Proof. unfold flat. lia. Qed.

(** The reference tensor holds [reference i j k l] at [(i, j, k, l)]. *)
Lemma genR4Tensor_get (i j k l : nat) :
  (i < 3)%nat -> (j < 3)%nat -> (k < 3)%nat -> (l < 3)%nat ->
  get (data genR4Tensor) (flat i j k l) = reference i j k l.
Proof.
  intros Hi Hj Hk Hl.
  destruct (index_cases _ Hi) as [->|[->| ->]];
    destruct (index_cases _ Hj) as [->|[->| ->]];
    destruct (index_cases _ Hk) as [->|[->| ->]];
    destruct (index_cases _ Hl) as [->|[->| ->]];
    vm_compute; reflexivity.
Qed.

Lemma get_zeros (n k : nat) : get (zeros n) k = zero.
Proof. unfold get, zeros. apply nth_repeat. Qed.

Lemma sum_over_ext (n : nat) (f g : nat -> float) :
  (forall k, (k < n)%nat -> f k = g k) -> sum_over n f = sum_over n g.
Proof.
  unfold sum_over. induction n as [|n IH]; intros H; trivial.
  rewrite seq_S, !fold_left_app. cbn [fold_left Nat.add].
  rewrite IH, H by (intros; auto with arith). reflexivity.
Qed.

Ltac bind_cases H :=
  repeat match type of H with
         | bind ?m _ = Returns _ =>
             let E := fresh "E" in
             destruct m eqn:E; cbn [bind] in H; try discriminate H
         end.

Section Tensors.
Context {env : Environment}.

(** *** What [compute] leaves as it is *)

Lemma reset_fields self n self' :
  reset self n = Returns self' ->
  m_gen_r4_tensor self' = m_gen_r4_tensor self /\
  m_system_vectors self' = m_system_vectors self /\
  m_replicates self' = m_replicates self /\
  m_seed self' = m_seed self /\
  m_t_initial self' = m_t_initial self /\
  m_t_final self' = m_t_final self /\
  m_scale self' = m_scale self /\
  m_n self' = n.
Proof.
  unfold reset. destruct (Z.of_nat n * 81 <? 2 ^ 32)%Z; [|discriminate].
  intros [= <-]. cbn. repeat split.
Qed.

Lemma keep_replicate_fields self p max_idx self' :
  keep_replicate self p max_idx = Returns self' ->
  m_gen_r4_tensor self' = m_gen_r4_tensor self /\
  m_system_vectors self' = m_system_vectors self /\
  m_global_tensor self' = m_global_tensor self /\
  m_replicates self' = m_replicates self /\
  m_n self' = m_n self.
Proof.
  unfold keep_replicate. intros H. bind_cases H.
  injection H as <-. cbn. repeat split.
Qed.

Lemma compute_fields fuel schedule self orientations n self' :
  compute fuel schedule self orientations n = Returns self' ->
  m_gen_r4_tensor self' = m_gen_r4_tensor self /\
  m_system_vectors self' = m_system_vectors self.
Proof.
  unfold compute. intros H. bind_cases H. injection H as <-.
  match goal with
  | Hr : reset _ _ = Returns _, Hk : keep_replicate _ _ _ = Returns _ |- _ =>
      apply reset_fields in Hr; apply keep_replicate_fields in Hk;
      destruct Hr as (Hr1 & Hr2 & _), Hk as (Hk1 & Hk2 & _)
  end.
  cbn [with_particle_order_parameter m_gen_r4_tensor m_system_vectors].
  rewrite Hk1, Hk2. cbn [with_global_tensor with_particle_tensor
                          m_gen_r4_tensor m_system_vectors].
  now rewrite Hr1, Hr2.
Qed.

Lemma reachable_fields self :
  reachable self ->
  m_gen_r4_tensor self = genR4Tensor /\
  m_system_vectors self = [basis 0; basis 1; basis 2].
Proof.
  induction 1 as [ti tf sc reps seed self H | fuel sched self orientations n self' _ IH H].
  - unfold construct in H.
    destruct (ltb ti tf); [discriminate|].
    destruct (F64.ltb (F64.of_f32 tf) lit_1em6); [discriminate|].
    destruct (gtb sc (of_int 1) || ltb sc (of_int 0)); [discriminate|].
    injection H as <-. split; reflexivity.
  - apply compute_fields in H. destruct H as [-> ->]. exact IH.
Qed.

(** The tensor of an orientation, component by component. *)
Lemma calcCubaticTensor_get self q (n : nat) :
  List.length (data (m_gen_r4_tensor self)) = 81%nat -> (n < 81)%nat ->
  get (data (calcCubaticTensor self q)) n
  = sub (mul (sum_over 3 (fun a =>
                get (data (tensor4_of_vec3 (rotate q (system_vector self a)))) n))
             (of_int 2))
        (get (data (m_gen_r4_tensor self)) n).
Proof.
  intros Hr Hn. unfold calcCubaticTensor, sum_over.
  cbn [for_range seq fold_left].
  rewrite tensor4_sub_assign_get, tensor4_scale_assign_get, !tensor4_add_get;
    auto with tensor_length.
  unfold tensor4_zero. cbn [data]. rewrite get_zeros. reflexivity.
Qed.

(** C3: for every orientation [q], component [(i, j, k, l)] of the tensor
    that [calcCubaticTensor] computes is twice the sum, over the three
    basis vectors [e], of the component of the rank-4 outer product of
    [rotate q e] with itself, minus the component
    [2/5 * (delta_ij delta_kl + delta_ik delta_jl + delta_il delta_jk)] of
    the reference tensor; the reference tensor is the one the constructor
    stored, in every object the constructor and [compute] produce. *)
Theorem cubatic_tensor_formula self q (i j k l : nat) :
  reachable self ->
  (i < 3)%nat -> (j < 3)%nat -> (k < 3)%nat -> (l < 3)%nat ->
  m_gen_r4_tensor self = genR4Tensor /\
  get (data (m_gen_r4_tensor self)) (flat i j k l) = reference i j k l /\
  get (data (calcCubaticTensor self q)) (flat i j k l)
  = sub (mul (sum_over 3 (fun a => outer4 (rotate q (basis a)) i j k l))
             (of_int 2))
        (reference i j k l).
Proof.
  intros Hself Hi Hj Hk Hl. destruct (reachable_fields _ Hself) as [Hr Hv].
  split; [exact Hr|]. split.
  - rewrite Hr. now apply genR4Tensor_get.
  - rewrite calcCubaticTensor_get.
    + rewrite Hr, genR4Tensor_get by trivial. f_equal. f_equal.
      apply sum_over_ext. intros a Ha.
      rewrite tensor4_of_vec3_get by trivial.
      unfold system_vector. rewrite Hv.
      destruct (index_cases _ Ha) as [->|[->| ->]]; reflexivity.
    + rewrite Hr. reflexivity.
    + now apply flat_lt.
Qed.

(** *** The scalar order parameter *)

Lemma dot_sum (a b : tensor4) :
  dot a b = sum_over 81 (fun n => mul (get (data a) n) (get (data b) n)).
Proof. unfold dot, sum_over, for_range. reflexivity. Qed.

(** The two sums of products in [calcCubaticOrderParameter]. *)
Lemma calcCubaticOrderParameter_sums self (T : tensor4) :
  calcCubaticOrderParameter self T
  = one_minus
      (div (sum_over 81 (fun n =>
              mul (sub (get (data (m_global_tensor self)) n) (get (data T) n))
                  (sub (get (data (m_global_tensor self)) n) (get (data T) n))))
           (sum_over 81 (fun n => mul (get (data T) n) (get (data T) n)))).
Proof.
  unfold calcCubaticOrderParameter. rewrite !dot_sum.
  apply (f_equal one_minus), (f_equal (fun x => div x _)).
  apply sum_over_ext. intros n Hn. now rewrite tensor4_sub_get.
Qed.

(** C4: for every candidate tensor [T] and global tensor [G], the order
    parameter that [calcCubaticOrderParameter] computes is
    [1 - dot (G - T) (G - T) / dot T T], where [dot] sums the products of
    the 81 components from [+0.0] and [G - T] subtracts component by
    component; the quotient is a [float], the difference from [1.0] is
    formed in [double] and rounded to [float]. *)
Theorem order_parameter_formula self (T : tensor4) :
  calcCubaticOrderParameter self T
  = F64.to_f32
      (F64.sub (F64.of_int 1)
         (F64.of_f32
            (div (sum_over 81 (fun n =>
                    mul (sub (get (data (m_global_tensor self)) n) (get (data T) n))
                        (sub (get (data (m_global_tensor self)) n) (get (data T) n))))
                 (sum_over 81 (fun n => mul (get (data T) n) (get (data T) n)))))).
Proof.
  rewrite calcCubaticOrderParameter_sums. unfold one_minus. reflexivity.
Qed.

End Tensors.

Lemma sample_object_reachable : reachable (env := sample_env) sample_object.
Proof.
  apply (reach_construct (env := sample_env) (of_int 2) (of_int 1)
                         (div (of_int 1) (of_int 4)) 2 42).
  vm_compute. reflexivity.
Qed.

Lemma cubatic_tensor_formula_witness :
  m_gen_r4_tensor sample_object = genR4Tensor /\
  get (data (m_gen_r4_tensor sample_object)) (flat 0 1 0 1) = reference 0 1 0 1 /\
  get (data (calcCubaticTensor (env := sample_env) sample_object
                               (mkquat (of_int 1) (mkvec3 zero zero zero))))
      (flat 0 1 0 1)
  = sub (mul (sum_over 3 (fun a =>
                outer4 (sample_rotate (mkquat (of_int 1) (mkvec3 zero zero zero))
                                      (basis a)) 0 1 0 1))
             (of_int 2))
        (reference 0 1 0 1).
Proof.
  apply (cubatic_tensor_formula (env := sample_env)).
  - exact sample_object_reachable.
  - lia.
  - lia.
  - lia.
  - lia.
Defined.


(** *** Rounding never produces a NaN from a mantissa that is not negative *)

Local Open Scope Z_scope.

Lemma shr_1_nonneg (mrs : shr_record) : 0 <= shr_m mrs -> 0 <= shr_m (shr_1 mrs).
Proof.
  destruct mrs as [m r s]. destruct m as [|p|p]; try destruct p; cbn; lia.
Qed.

Lemma iter_shr_1_nonneg (p : positive) (mrs : shr_record) :
  0 <= shr_m mrs -> 0 <= shr_m (iter_pos shr_1 p mrs).
Proof.
  revert mrs. induction p as [p IH|p IH|]; intros mrs H; cbn [iter_pos].
  - apply IH, IH, shr_1_nonneg, H.
  - apply IH, IH, H.
  - apply shr_1_nonneg, H.
Qed.

Lemma shr_fexp_nonneg (prec emax m e : Z) (l : location) :
  0 <= m -> 0 <= shr_m (fst (shr_fexp prec emax m e l)).
Proof.
  intros H. unfold shr_fexp, shr.
  assert (H0 : 0 <= shr_m (shr_record_of_loc m l)).
  { destruct l as [|[]]; exact H. }
  destruct (fexp prec emax (Zdigits2 m + e) - e); cbn [fst]; trivial.
  now apply iter_shr_1_nonneg.
Qed.

Lemma round_nearest_even_nonneg (m : Z) (l : location) :
  0 <= m -> 0 <= round_nearest_even m l.
Proof.
  intros H. destruct l as [|[]]; cbn [round_nearest_even]; trivial.
  - destruct (Z.even m); lia.
  - lia.
Qed.

Lemma is_number_cases (x : spec_float) : x <> S754_nan -> is_number x.
Proof.
  unfold is_number. destruct x as [s|s| |s m e]; try destruct s; cbn [key];
    congruence.
Qed.

Lemma binary_round_aux_number (prec emax : Z) (sx : bool) (mx ex : Z)
    (lx : location) :
  0 <= mx -> is_number (binary_round_aux prec emax sx mx ex lx).
Proof.
  intros H. unfold binary_round_aux.
  pose proof (shr_fexp_nonneg prec emax mx ex lx H) as H1.
  destruct (shr_fexp prec emax mx ex lx) as [mrs' e']. cbn [fst] in H1.
  pose proof (shr_fexp_nonneg prec emax _ e' loc_Exact
                (round_nearest_even_nonneg _ (loc_of_shr_record mrs') H1)) as H2.
  destruct (shr_fexp prec emax
              (round_nearest_even (shr_m mrs') (loc_of_shr_record mrs')) e'
              loc_Exact) as [mrs'' e'']. cbn [fst] in H2.
  apply is_number_cases. destruct (shr_m mrs'') as [|m|m].
  - discriminate.
  - destruct (e'' <=? emax - prec); discriminate.
  - lia.
Qed.

(** The product of a float that is not a NaN with a finite float that is
    not zero is not a NaN. *)
Lemma mul_finite_number (x : float) (s : bool) (m : positive) (e : Z) :
  is_number x -> is_number (mul x (S754_finite s m e)).
Proof.
  intros Hx. unfold mul. destruct x as [sx|sx| |sx mx ex]; cbn [SFmul].
  - apply is_number_cases. discriminate.
  - apply is_number_cases. discriminate.
  - now elim Hx.
  - apply binary_round_aux_number. lia.
Qed.

Lemma of_int_0 : of_int 0 = S754_zero false.
Proof. vm_compute. reflexivity. Qed.

Lemma of_int_1 : of_int 1 = S754_finite false 8388608 (-23).
Proof. vm_compute. reflexivity. Qed.

Lemma in_open_unit_finite (scale : float) :
  in_open_unit scale -> exists m e, scale = S754_finite false m e.
Proof.
  unfold in_open_unit, gtb, ltb, SFltb. rewrite of_int_0, of_int_1.
  intros [H0 H1]. destruct scale as [s|s| |s m e]; try destruct s;
    cbn [SFcompare] in H0, H1; try discriminate.
  now exists m, e.
Qed.

Local Close Scope Z_scope.

(** *** The [while] loop *)

Lemma while_returns (S : Type) (cond : S -> bool) (body : S -> S) :
  forall fuel s s',
    while fuel cond body s = Returns s' ->
    exists rounds,
      (rounds < fuel)%nat /\
      s' = Nat.iter rounds body s /\
      cond s' = false /\
      forall m, (m < rounds)%nat -> cond (Nat.iter m body s) = true.
Proof.
  induction fuel as [|fuel IH]; intros s s'; cbn [while]; [discriminate|].
  destruct (cond s) eqn:Hc.
  - intros H. destruct (IH _ _ H) as (rounds & Hlt & -> & Hs' & Hm).
    exists (Datatypes.S rounds). repeat split.
    + lia.
    + symmetry. apply Nat.iter_succ_r.
    + exact Hs'.
    + intros [|m] Hlt'; [exact Hc|].
      rewrite Nat.iter_succ_r. apply Hm. lia.
  - intros [= <-]. exists 0%nat. repeat split; trivial; lia.
Qed.

Lemma while_enough (S : Type) (mu : S -> nat) (cond : S -> bool) (body : S -> S) :
  (forall s, cond s = true -> (mu (body s) < mu s)%nat) ->
  forall fuel s, (mu s < fuel)%nat -> exists s', while fuel cond body s = Returns s'.
Proof.
  intros Hmu. induction fuel as [|fuel IH]; intros s Hs; [lia|].
  cbn [while]. destruct (cond s) eqn:Hc.
  - apply IH. specialize (Hmu _ Hc). lia.
  - now exists s.
Qed.

Section Annealing.
Context {env : Environment}.
Variable self : CubaticOrderParameter.

(** *** One round *)

Lemma propose_fields (st : anneal_state) :
  cubatic_tensor (propose self st) = cubatic_tensor st /\
  cubatic_orientation (propose self st) = cubatic_orientation st /\
  cubatic_order_parameter (propose self st) = cubatic_order_parameter st /\
  t_current (propose self st) = t_current st /\
  loop_count (propose self st) = ((loop_count st + 1) mod 2 ^ 32)%Z /\
  new_cubatic_tensor (propose self st) = proposal_tensor self st /\
  current_orientation (propose self st) = proposal_orientation st /\
  new_order_parameter (propose self st) = proposal_order_parameter self st /\
  l_saru (propose self st) = snd (proposal_draw st).
Proof.
  unfold propose, proposal_order_parameter, proposal_tensor,
    proposal_orientation, proposal_draw.
  destruct (calcRandomQuaternion (l_saru st) (F64.to_f32 (F64.of_ratio 1 10)))
    as [dq saru].
  cbn. repeat split.
Qed.

Lemma draw_test_value_fields (st : anneal_state) :
  fst (draw_test_value st) = fst (Saru_s (l_saru st) (of_int 0) (of_int 1)) /\
  cubatic_tensor (snd (draw_test_value st)) = cubatic_tensor st /\
  cubatic_orientation (snd (draw_test_value st)) = cubatic_orientation st /\
  cubatic_order_parameter (snd (draw_test_value st)) = cubatic_order_parameter st /\
  t_current (snd (draw_test_value st)) = t_current st /\
  loop_count (snd (draw_test_value st)) = loop_count st /\
  new_cubatic_tensor (snd (draw_test_value st)) = new_cubatic_tensor st /\
  current_orientation (snd (draw_test_value st)) = current_orientation st /\
  new_order_parameter (snd (draw_test_value st)) = new_order_parameter st.
Proof.
  unfold draw_test_value.
  destruct (Saru_s (l_saru st) (of_int 0) (of_int 1)) as [test_value saru].
  cbn. repeat split.
Qed.

(** The three ways through the body of the loop. *)
Lemma anneal_body_cases (st : anneal_state) :
  anneal_body self st =
    if gtb (proposal_order_parameter self st) (cubatic_order_parameter st)
    then accept self (propose self st)
    else if geb (metropolis_factor self st) (fresh_draw st)
         then accept self (snd (draw_test_value (propose self st)))
         else snd (draw_test_value (propose self st)).
Proof.
  unfold anneal_body, metropolis_factor, fresh_draw, boltzmann_factor.
  destruct (propose_fields st) as (_ & _ & Hop & Ht & _ & _ & _ & Hnew & Hsaru).
  destruct (draw_test_value_fields (propose self st)) as (Hfst & _).
  rewrite Hnew, Hop, Ht. rewrite <- Hsaru, <- Hfst.
  destruct (draw_test_value (propose self st)) as [test_value st'].
  reflexivity.
Qed.

Lemma accept_accepted (st st1 : anneal_state) :
  new_cubatic_tensor st1 = proposal_tensor self st ->
  current_orientation st1 = proposal_orientation st ->
  new_order_parameter st1 = proposal_order_parameter self st ->
  t_current st1 = t_current st ->
  accepted self st (accept self st1).
Proof.
  intros H1 H2 H3 H4. unfold accepted. split; [|split; [|split]].
  - exact H1.
  - exact H2.
  - exact H3.
  - cbn [accept t_current]. rewrite H4. reflexivity.
Qed.

Lemma anneal_body_loop_count (st : anneal_state) :
  loop_count (anneal_body self st) = ((loop_count st + 1) mod 2 ^ 32)%Z.
Proof.
  rewrite anneal_body_cases.
  destruct (propose_fields st) as (_ & _ & _ & _ & Hl & _).
  destruct (draw_test_value_fields (propose self st)) as (_ & _ & _ & _ & _ & Hl' & _).
  destruct (gtb _ _); [exact Hl|].
  destruct (geb _ _); cbn [accept loop_count]; congruence.
Qed.

Lemma anneal_body_t_current (st : anneal_state) :
  t_current (anneal_body self st) = t_current st \/
  t_current (anneal_body self st) = mul (t_current st) (m_scale self).
Proof.
  rewrite anneal_body_cases.
  destruct (propose_fields st) as (_ & _ & _ & Ht & _).
  destruct (draw_test_value_fields (propose self st)) as (_ & _ & _ & _ & Ht' & _).
  destruct (gtb _ _).
  - right. cbn [accept t_current]. now rewrite Ht.
  - destruct (geb _ _).
    + right. cbn [accept t_current]. now rewrite Ht', Ht.
    + left. now rewrite Ht', Ht.
Qed.

(** C6: in a round of annealing, a proposal whose order parameter is
    strictly above the current one is accepted: current tensor,
    orientation and order parameter become those of the proposal (and the
    temperature is cooled).  A proposal that is not above is accepted when
    [exp(-(current - proposed) / temperature)] is at least a fresh draw
    [s<float>(0, 1)] from the stream, and otherwise the current state and
    the temperature are left as they were. *)
Theorem anneal_round (st : anneal_state) :
  (gtb (proposal_order_parameter self st) (cubatic_order_parameter st) = true ->
   accepted self st (anneal_body self st)) /\
  (gtb (proposal_order_parameter self st) (cubatic_order_parameter st) = false ->
   (geb (metropolis_factor self st) (fresh_draw st) = true ->
    accepted self st (anneal_body self st)) /\
   (geb (metropolis_factor self st) (fresh_draw st) = false ->
    rejected st (anneal_body self st))).
Proof.
  rewrite anneal_body_cases.
  destruct (propose_fields st)
    as (Hct & Hco & Hcp & Ht & _ & Hnt & Hno & Hnp & _).
  destruct (draw_test_value_fields (propose self st))
    as (_ & Hct' & Hco' & Hcp' & Ht' & _ & Hnt' & Hno' & Hnp').
  split.
  - intros ->. now apply accept_accepted.
  - intros ->. split; intros ->.
    + apply accept_accepted; congruence.
    + unfold rejected. repeat split; congruence.
Qed.

(** *** Termination *)

(** What is left of the 10000 rounds. *)
Lemma rounds_left_decrease (st : anneal_state) :
  anneal_cond self st = true ->
  (Z.to_nat (10000 - loop_count (anneal_body self st))
   < Z.to_nat (10000 - loop_count st))%nat.
Proof.
  unfold anneal_cond. intros H. apply andb_true_iff in H. destruct H as [_ H].
  apply Z.ltb_lt in H. rewrite anneal_body_loop_count.
  pose proof (Z.mod_pos_bound (loop_count st + 1) (2 ^ 32) eq_refl) as Hm.
  destruct (Z.le_gt_cases 0 (loop_count st)) as [H0|H0].
  - rewrite Z.mod_small by lia. lia.
  - lia.
Qed.

(** The state after [m] rounds that all passed the test of the loop. *)
Lemma rounds_invariant (saru : Saru) (m : nat) :
  (forall k, (k < m)%nat ->
     anneal_cond self (Nat.iter k (anneal_body self) (anneal_init self saru)) = true) ->
  loop_count (Nat.iter m (anneal_body self) (anneal_init self saru)) = Z.of_nat m /\
  (Z.of_nat m <= 10000)%Z /\
  exists cooled, (cooled <= m)%nat /\
    t_current (Nat.iter m (anneal_body self) (anneal_init self saru))
    = cooled_temperature self cooled.
Proof.
  induction m as [|m IH]; intros Hc.
  - change (Nat.iter 0 (anneal_body self) (anneal_init self saru))
      with (anneal_init self saru).
    unfold anneal_init.
    destruct (calcRandomQuaternion saru (F64.to_f32 (F64.of_int 1))) as [q saru'].
    cbn [loop_count t_current]. repeat split; try lia.
    exists 0%nat. split; [lia|reflexivity].
  - destruct IH as (Hl & Hle & cooled & Hcl & Ht).
    { intros k Hk. apply Hc. lia. }
    specialize (Hc m (Nat.lt_succ_diag_r m)).
    unfold anneal_cond in Hc. apply andb_true_iff in Hc.
    destruct Hc as [_ Hc]. apply Z.ltb_lt in Hc.
    rewrite Nat.iter_succ, anneal_body_loop_count, Hl.
    rewrite Z.mod_small by lia. repeat split; try lia.
    destruct (anneal_body_t_current
                (Nat.iter m (anneal_body self) (anneal_init self saru)))
      as [H|H]; rewrite H, Ht.
    + exists cooled. split; [lia|reflexivity].
    + exists (Datatypes.S cooled). split; [lia|].
      unfold cooled_temperature. now rewrite Nat.iter_succ.
Qed.

Lemma cooled_temperature_number (cooled : nat) :
  is_number (m_t_initial self) -> in_open_unit (m_scale self) ->
  is_number (cooled_temperature self cooled).
Proof.
  intros Hi Hs. destruct (in_open_unit_finite _ Hs) as (m & e & Hscale).
  unfold cooled_temperature. rewrite Hscale.
  induction cooled as [|cooled IH].
  - exact Hi.
  - rewrite Nat.iter_succ. now apply mul_finite_number.
Qed.

(** The temperature after a round: cooled when the round accepts its
    proposal, and as before when it does not. *)
Lemma anneal_body_cools (st : anneal_state) :
  t_current (anneal_body self st)
  = if round_accepts self st then mul (t_current st) (m_scale self)
    else t_current st.
Proof.
  rewrite anneal_body_cases. unfold round_accepts.
  destruct (propose_fields st) as (_ & _ & _ & Ht & _).
  destruct (draw_test_value_fields (propose self st)) as (_ & _ & _ & _ & Ht' & _).
  destruct (gtb _ _); cbn [orb].
  - cbn [accept t_current]. now rewrite Ht.
  - destruct (geb _ _).
    + cbn [accept t_current]. now rewrite Ht', Ht.
    + now rewrite Ht', Ht.
Qed.

Lemma anneal_init_t_current (saru : Saru) :
  t_current (anneal_init self saru) = m_t_initial self.
Proof.
  unfold anneal_init.
  destruct (calcRandomQuaternion saru (F64.to_f32 (F64.of_int 1))) as [q saru'].
  reflexivity.
Qed.

(** The temperature after [m] rounds: one cooling step for each round
    that accepted its proposal. *)
Lemma rounds_temperature (saru : Saru) (m : nat) :
  t_current (Nat.iter m (anneal_body self) (anneal_init self saru))
  = cooled_temperature self (accepted_rounds self saru m).
Proof.
  induction m as [|m IH].
  - change (Nat.iter 0 (anneal_body self) (anneal_init self saru))
      with (anneal_init self saru).
    apply anneal_init_t_current.
  - rewrite Nat.iter_succ, anneal_body_cools, IH. cbn [accepted_rounds].
    destruct (round_accepts self _).
    + rewrite Nat.add_1_r. unfold cooled_temperature. now rewrite Nat.iter_succ.
    + now rewrite Nat.add_0_r.
Qed.

(** C5: for every replicate of an object with [t_initial > t_final] and
    [0 < scale < 1], the annealing loop terminates.  It runs at most 10000
    rounds.  The temperature starts at [t_initial]; a round that accepts
    its proposal multiplies it by [scale], and a round that does not
    leaves it as it was, so that at the end it is [t_initial] cooled once
    per accepted round.  Every round that is run starts with the
    temperature above [t_final], and the loop stops at the first test that
    finds the temperature at or below [t_final], or after round 10000. *)
Theorem anneal_terminates (saru : Saru) (fuel : nat) :
  gtb (m_t_initial self) (m_t_final self) = true ->
  in_open_unit (m_scale self) ->
  (10000 < Z.of_nat fuel)%Z ->
  exists (st : anneal_state) (rounds : nat),
    run_replicate fuel self saru = Returns st /\
    st = Nat.iter rounds (anneal_body self) (anneal_init self saru) /\
    (Z.of_nat rounds <= 10000)%Z /\
    loop_count st = Z.of_nat rounds /\
    t_current (anneal_init self saru) = m_t_initial self /\
    (forall m, (m < rounds)%nat ->
       gtb (t_current (Nat.iter m (anneal_body self) (anneal_init self saru)))
           (m_t_final self) = true /\
       t_current (Nat.iter (Datatypes.S m) (anneal_body self) (anneal_init self saru))
       = if round_accepts self
              (Nat.iter m (anneal_body self) (anneal_init self saru))
         then mul (t_current (Nat.iter m (anneal_body self) (anneal_init self saru)))
                  (m_scale self)
         else t_current (Nat.iter m (anneal_body self) (anneal_init self saru))) /\
    t_current st = cooled_temperature self (accepted_rounds self saru rounds) /\
    (leb (t_current st) (m_t_final self) = true \/ Z.of_nat rounds = 10000%Z).
Proof.
  intros Hgt Hscale Hfuel. unfold run_replicate.
  destruct (while_enough _ (fun st => Z.to_nat (10000 - loop_count st))
              (anneal_cond self) (anneal_body self) rounds_left_decrease
              fuel (anneal_init self saru)) as [st Hst].
  { unfold anneal_init.
    destruct (calcRandomQuaternion saru (F64.to_f32 (F64.of_int 1))) as [q saru'].
    cbn [loop_count]. lia. }
  destruct (while_returns _ _ _ _ _ _ Hst) as (rounds & _ & Hiter & Hstop & Hrun).
  destruct (rounds_invariant saru rounds Hrun) as (Hl & Hle & _).
  pose proof (rounds_temperature saru rounds) as Ht.
  rewrite <- Hiter in Hl, Ht.
  exists st, rounds.
  split; [exact Hst|]. split; [exact Hiter|]. split; [exact Hle|].
  split; [exact Hl|]. split; [apply anneal_init_t_current|].
  split; [|split; [exact Ht|]].
  - intros m Hm. split.
    + specialize (Hrun m Hm). unfold anneal_cond in Hrun.
      apply andb_true_iff in Hrun. apply Hrun.
    + rewrite Nat.iter_succ. apply anneal_body_cools.
  - unfold anneal_cond in Hstop. apply andb_false_iff in Hstop.
    destruct Hstop as [Hstop|Hstop].
    + left. apply SFltb_lt in Hgt. destruct (lt_is_number _ _ Hgt) as [Hnf Hni].
      assert (Hnt : is_number (t_current st)).
      { rewrite Ht. now apply cooled_temperature_number. }
      apply SFleb_le. destruct (le_or_lt _ _ Hnt Hnf) as [H|H]; trivial.
      apply SFltb_lt in H. unfold gtb in Hstop. congruence.
    + right. apply Z.ltb_ge in Hstop. lia.
Qed.

End Annealing.

(** *** Loops that may fail *)

Lemma for_each_app (I S : Type) (body : I -> S -> outcome S) (l1 l2 : list I) (s : S) :
  for_each (l1 ++ l2) body s = bind (for_each l1 body s) (for_each l2 body).
Proof.
  revert s. induction l1 as [|i l1 IH]; intros s; cbn [for_each app bind]; trivial.
  destruct (body i s); cbn [bind]; auto.
Qed.

Lemma for_each_seq_inv (S : Type) (P : nat -> S -> Prop) (body : nat -> S -> outcome S) :
  forall len start,
    (forall i s s', (start <= i < start + len)%nat ->
                    P i s -> body i s = Returns s' -> P (Datatypes.S i) s') ->
    forall s r, P start s -> for_each (seq start len) body s = Returns r ->
                P (start + len)%nat r.
Proof.
  induction len as [|len IH]; intros start Hbody s r Hs; cbn [seq for_each].
  - intros [= <-]. now rewrite Nat.add_0_r.
  - destruct (body start s) as [s'| | |] eqn:Hb; try discriminate.
    intros H. rewrite <- Nat.add_succ_comm. apply (IH (Datatypes.S start)) with s'; trivial.
    + intros i t t' Hi. apply Hbody. lia.
    + apply (Hbody start s s'); trivial. lia.
Qed.

(** *** Reading and writing arrays *)

Lemma nth_error_set_eq (A : Type) (d : list A) (i : nat) (x : A) :
  (i < List.length d)%nat -> nth_error (set d i x) i = Some x.
Proof.
  revert i. induction d as [|y d IH]; intros [|i]; cbn; try lia; trivial.
  intros H. apply IH. lia.
Qed.

Lemma nth_error_set_ne (A : Type) (d : list A) (i j : nat) (x : A) :
  i <> j -> nth_error (set d i x) j = nth_error d j.
Proof.
  revert i j. induction d as [|y d IH]; intros [|i] [|j]; cbn; trivial;
    try congruence.
  intros H. apply IH. congruence.
Qed.

Lemma write_returns (A : Type) (p p' : list A) (i : nat) (x : A) :
  write p i x = Returns p' ->
  (i < List.length p)%nat /\ List.length p' = List.length p /\
  nth_error p' i = Some x /\
  forall j, j <> i -> nth_error p' j = nth_error p j.
Proof.
  unfold write. destruct (Nat.ltb_spec i (List.length p)); [|discriminate].
  intros [= <-]. repeat split; trivial.
  - apply length_set.
  - now apply nth_error_set_eq.
  - intros j Hj. apply nth_error_set_ne. congruence.
Qed.

Lemma read_returns (A : Type) (p : list A) (i : nat) (x : A) :
  read p i = Returns x <-> nth_error p i = Some x.
Proof.
  unfold read. destruct (nth_error p i); split; congruence.
Qed.

(** The copy of [n] floats to [p[off]], ..., [p[off + n - 1]]. *)
Lemma copy_spec (src : list float) (off n : nat) (p : list float) :
  (off + n <= List.length p)%nat ->
  List.length (for_range n (fun k p => set p (off + k) (get src k)) p)
  = List.length p /\
  forall j,
    get (for_range n (fun k p => set p (off + k) (get src k)) p) j
    = if ((off <=? j) && (j <? off + n))%nat then get src (j - off) else get p j.
Proof.
  induction n as [|n IH]; intros Hn.
  - split; trivial. intros j. cbn [for_range seq fold_left].
    destruct (Nat.leb_spec off j), (Nat.ltb_spec j (off + 0)); trivial; lia.
  - destruct IH as [IHl IHg]; [lia|]. rewrite for_range_S. split.
    + now rewrite length_set.
    + intros j. unfold get at 1. destruct (Nat.eq_dec (off + n) j) as [<-|Hj].
      * rewrite nth_set_eq by lia.
        destruct (Nat.leb_spec off (off + n)), (Nat.ltb_spec (off + n) (off + Datatypes.S n));
          try lia.
        cbn [andb]. f_equal. lia.
      * rewrite nth_set_ne by trivial.
        fold (get (for_range n (fun k p => set p (off + k) (get src k)) p) j).
        rewrite IHg.
        destruct (Nat.leb_spec off j), (Nat.ltb_spec j (off + n)),
          (Nat.ltb_spec j (off + Datatypes.S n)); trivial; lia.
Qed.

Lemma memcpy_to_returns (p p' src : list float) (off : nat) :
  memcpy_to p off src 81 = Returns p' ->
  (off + 81 <= List.length p)%nat /\ List.length p' = List.length p /\
  (forall k, (k < 81)%nat -> get p' (off + k) = get src k) /\
  (forall j, (j < off \/ off + 81 <= j)%nat -> get p' j = get p j).
Proof.
  unfold memcpy_to. destruct (Nat.leb_spec (off + 81) (List.length p)); [|discriminate].
  intros [= <-]. destruct (copy_spec src off 81 p) as [Hl Hg]; trivial.
  repeat split; trivial.
  - intros k Hk. rewrite Hg.
    destruct (Nat.leb_spec off (off + k)), (Nat.ltb_spec (off + k) (off + 81));
      try lia.
    cbn [andb]. f_equal. lia.
  - intros j Hj. rewrite Hg.
    destruct (Nat.leb_spec off j), (Nat.ltb_spec j (off + 81)); trivial; lia.
Qed.

Lemma map_get_seq (d : list float) :
  map (get d) (seq 0 (List.length d)) = d.
Proof.
  apply nth_error_ext. intros k.
  destruct (Nat.lt_ge_cases k (List.length d)) as [H|H].
  - rewrite nth_error_map, nth_error_seq.
    destruct (Nat.ltb_spec k (List.length d)); [|lia].
    cbn. unfold get. symmetry. apply nth_error_nth'. exact H.
  - rewrite (proj2 (nth_error_None _ _)) by (rewrite length_map, length_seq; lia).
    symmetry. now apply nth_error_None.
Qed.

(** *** What the replicates leave in the three arrays *)

Section ReplicateArrays.
Context {env : Environment}.
Variable self : CubaticOrderParameter.

Lemma store_replicate_returns (i : nat) (st : anneal_state) (p p' : replicate_arrays) :
  store_replicate self i st p = Returns p' ->
  same_lengths p p' /\
  holds (m_replicates self) p' i st /\
  forall j, (j < m_replicates self)%nat -> j <> i ->
    ((Index2D (m_replicates self) 81 i 0 + 81 <= Index2D (m_replicates self) 81 j 0)%nat \/
     (Index2D (m_replicates self) 81 j 0 + 81 <= Index2D (m_replicates self) 81 i 0)%nat) ->
    same_at (m_replicates self) p p' j.
Proof.
  unfold store_replicate. intros H. bind_cases H. injection H as <-.
  match goal with
  | Ht : memcpy_to _ _ _ _ = Returns _,
    Hq : write (p_cubatic_orientation _) _ _ = Returns _,
    Ho : write (p_cubatic_order_parameter _) _ _ = Returns _ |- _ =>
      apply memcpy_to_returns in Ht; apply write_returns in Hq;
      apply write_returns in Ho;
      destruct Ht as (_ & Htl & Htk & Htj), Hq as (_ & Hql & Hqi & Hqj),
               Ho as (_ & Hol & Hoi & Hoj)
  end.
  unfold same_lengths, holds, same_at.
  cbn [p_cubatic_tensor p_cubatic_order_parameter p_cubatic_orientation].
  split; [|split].
  - repeat split; trivial.
  - repeat split; trivial.
  - intros j Hj Hne Hrow. split; [|split].
    + now apply Hoj.
    + now apply Hqj.
    + intros k Hk. apply Htj. lia.
Qed.

Lemma same_lengths_refl (p : replicate_arrays) : same_lengths p p.
Proof. repeat split. Qed.

Lemma same_lengths_trans (p1 p2 p3 : replicate_arrays) :
  same_lengths p1 p2 -> same_lengths p2 p3 -> same_lengths p1 p3.
Proof.
  unfold same_lengths. intros (H1 & H2 & H3) (H4 & H5 & H6).
  repeat split; congruence.
Qed.

Lemma same_at_holds (p p' : replicate_arrays) (i : nat) (st : anneal_state) :
  same_at (m_replicates self) p p' i -> holds (m_replicates self) p i st ->
  holds (m_replicates self) p' i st.
Proof.
  unfold same_at, holds. intros (H1 & H2 & H3) (H4 & H5 & H6).
  repeat split; try congruence. intros k Hk. rewrite H3 by trivial. now apply H6.
Qed.

Lemma same_at_trans (p1 p2 p3 : replicate_arrays) (i : nat) :
  same_at (m_replicates self) p1 p2 i -> same_at (m_replicates self) p2 p3 i ->
  same_at (m_replicates self) p1 p3 i.
Proof.
  unfold same_at. intros (H1 & H2 & H3) (H4 & H5 & H6).
  repeat split; try congruence. intros k Hk. rewrite H6, H3; trivial.
Qed.

(** Stores to other replicates leave what the arrays hold for [i]. *)
Lemma stores_elsewhere (w : list (nat * anneal_state)) :
  rows_disjoint (m_replicates self) ->
  forall p p' i,
    stores self w p = Returns p' ->
    (i < m_replicates self)%nat ->
    (forall j, In j (map fst w) -> (j < m_replicates self)%nat /\ j <> i) ->
    same_lengths p p' /\ same_at (m_replicates self) p p' i.
Proof.
  intros Hrows. unfold stores.
  induction w as [|[j st] w IH]; intros p p' i; cbn [for_each map fst In].
  - intros [= <-] _ _. split; [apply same_lengths_refl | repeat split].
  - destruct (store_replicate self j st p) as [p1| | |] eqn:Hs; try discriminate.
    intros H Hi Hw. apply store_replicate_returns in Hs.
    destruct Hs as (Hl & _ & Hsame).
    destruct (IH p1 p' i H Hi) as [Hl' Hsame'].
    { intros j' Hj'. apply Hw. now right. }
    destruct (Hw j (or_introl eq_refl)) as [Hj Hne].
    split.
    + eapply same_lengths_trans; eauto.
    + eapply same_at_trans; [|exact Hsame'].
      apply Hsame; trivial; [congruence|]. apply Hrows; trivial. 
Qed.

(** After the stores of replicates with distinct indices, the arrays hold
    the result of each of them. *)
Lemma stores_hold (w : list (nat * anneal_state)) :
  rows_disjoint (m_replicates self) ->
  forall p p',
    stores self w p = Returns p' ->
    NoDup (map fst w) ->
    (forall j, In j (map fst w) -> (j < m_replicates self)%nat) ->
    same_lengths p p' /\
    forall i st, In (i, st) w -> holds (m_replicates self) p' i st.
Proof.
  intros Hrows.
  induction w as [|[j st] w IH]; intros p p'.
  - unfold stores. cbn [for_each]. intros [= <-] _ _.
    split; [apply same_lengths_refl | intros i st' []].
  - unfold stores. cbn [for_each map fst].
    destruct (store_replicate self j st p) as [p1| | |] eqn:Hs; try discriminate.
    intros H Hnd Hw. inversion Hnd as [|? ? Hnotin Hnd']; subst.
    pose proof (store_replicate_returns _ _ _ _ Hs) as (Hl & Hhold & _).
    destruct (IH p1 p' H Hnd') as [Hl' Hholds].
    { intros j' Hj'. apply Hw. now right. }
    split; [eapply same_lengths_trans; eauto|].
    intros i st' [[= <- <-]|Hin].
    + destruct (stores_elsewhere w Hrows p1 p' j H) as [_ Hsame].
      * apply Hw. now left.
      * intros j' Hj'. split; [apply Hw; now right|].
        intros ->. contradiction.
      * eapply same_at_holds; eauto.
    + now apply Hholds.
Qed.

Lemma stores_app (w1 w2 : list (nat * anneal_state)) (p : replicate_arrays) :
  stores self (w1 ++ w2) p = bind (stores self w1 p) (stores self w2).
Proof. unfold stores. apply for_each_app. Qed.

End ReplicateArrays.

(** *** The blocks of a schedule *)

Lemma in_combine_seq (A : Type) (len start : nat) (l : list A) (i : nat) (x : A) :
  List.length l = len ->
  (In (i, x) (combine (seq start len) l) <->
   (start <= i < start + len)%nat /\ nth_error l (i - start) = Some x).
Proof.
  revert start l. induction len as [|len IH]; intros start l Hl.
  - cbn [seq combine In]. split; [intros []|lia].
  - destruct l as [|y l]; [discriminate|]. cbn [seq combine In].
    injection Hl as Hl. rewrite (IH (Datatypes.S start) l Hl). split.
    + intros [[= <- <-]|[Hi Hx]].
      * split; [lia|]. now rewrite Nat.sub_diag.
      * split; [lia|].
        replace (i - start)%nat with (Datatypes.S (i - Datatypes.S start)) by lia.
        exact Hx.
    + intros [Hi Hx]. destruct (Nat.eq_dec i start) as [->|Hne].
      * left. rewrite Nat.sub_diag in Hx. cbn in Hx. congruence.
      * right. split; [lia|].
        replace (i - start)%nat with (Datatypes.S (i - Datatypes.S start)) in Hx by lia.
        exact Hx.
Qed.

Lemma map_fst_combine_seq (A : Type) (len start : nat) (l : list A) :
  List.length l = len -> map fst (combine (seq start len) l) = seq start len.
Proof.
  revert start l. induction len as [|len IH]; intros start l Hl.
  - reflexivity.
  - destruct l as [|y l]; [discriminate|]. cbn [seq combine map fst].
    injection Hl as Hl. now rewrite IH.
Qed.

Section Blocks.
Context {env : Environment}.
Variable fuel : nat.
Variable self : CubaticOrderParameter.

Lemma block_loop (count : nat) :
  forall start saru p sp,
    for_each (seq start count) (replicate_step fuel self) (saru, p) = Returns sp ->
    exists states,
      replicates_from fuel self saru count = Returns states /\
      List.length states = count /\
      stores self (combine (seq start count) states) p = Returns (snd sp).
Proof.
  induction count as [|count IH]; intros start saru p sp.
  - cbn [seq for_each]. intros [= <-]. exists []. repeat split.
  - cbn [seq for_each replicates_from]. unfold replicate_step at 1.
    destruct (run_replicate fuel self saru) as [st| | |] eqn:Hrun;
      cbn [bind]; try discriminate.
    destruct (store_replicate self start st p) as [p1| | |] eqn:Hst;
      cbn [bind]; try discriminate.
    intros H. destruct (IH _ _ _ _ H) as (states & Hs & Hl & Hw).
    exists (st :: states). rewrite Hs. cbn [bind]. repeat split.
    + cbn [List.length]. now rewrite Hl.
    + unfold stores in *. cbn [combine for_each]. now rewrite Hst.
Qed.

Lemma replicate_block_stores (r : blocked_range) (p p' : replicate_arrays) :
  replicate_block fuel self r p = Returns p' ->
  exists states,
    block_states fuel self r = Returns states /\
    List.length states = (r_end r - r_begin r)%nat /\
    stores self (combine (indices r) states) p = Returns p'.
Proof.
  unfold replicate_block, block_states, indices. intros H. bind_cases H.
  injection H as <-.
  match goal with
  | E : for_each _ _ _ = Returns _ |- _ => exact (block_loop _ _ _ _ _ E)
  end.
Qed.

(** A run of the schedule is a sequence of stores, one per index of each
    block, of the final states of the replicates of the blocks. *)
Lemma parallel_for_stores (schedule : list blocked_range) :
  forall p p',
    parallel_for_replicates fuel self schedule p = Returns p' ->
    exists w,
      stores self w p = Returns p' /\
      map fst w = flat_map indices schedule /\
      forall i st, In (i, st) w <-> replicate_of fuel self schedule i st.
Proof.
  unfold parallel_for_replicates.
  induction schedule as [|r schedule IH]; intros p p'; cbn [for_each].
  - intros [= <-]. exists []. repeat split.
    + intros [].
    + intros (r & states & [] & _).
  - destruct (replicate_block fuel self r p) as [p1| | |] eqn:Hr; try discriminate.
    intros H. destruct (replicate_block_stores _ _ _ Hr) as (states & Hs & Hl & Hw).
    destruct (IH _ _ H) as (w & Hw' & Hfst & Hin).
    exists (combine (indices r) states ++ w). split; [|split].
    + rewrite stores_app, Hw. exact Hw'.
    + rewrite map_app, Hfst. cbn [flat_map]. f_equal.
      now apply map_fst_combine_seq.
    + intros i st. rewrite in_app_iff, Hin. unfold indices.
      rewrite (in_combine_seq _ _ _ _ _ _ Hl). split.
      * intros [[Hi Hx]|(r' & states' & Hr' & Hi & Hs' & Hx)].
        -- exists r, states. repeat split; trivial; try lia. now left.
        -- exists r', states'. repeat split; trivial; try lia. now right.
      * intros (r' & states' & [<-|Hr'] & Hi & Hs' & Hx).
        -- left. rewrite Hs in Hs'. injection Hs' as <-. split; [lia|trivial].
        -- right. exists r', states'. repeat split; trivial; lia.
Qed.

(** In a schedule whose blocks share no index, the block of a replicate,
    and so its final state, is determined. *)
Lemma replicate_of_unique (schedule : list blocked_range) (i : nat)
    (st st' : anneal_state) :
  NoDup (flat_map indices schedule) ->
  replicate_of fuel self schedule i st ->
  replicate_of fuel self schedule i st' ->
  st = st'.
Proof.
  intros Hnd (r & states & Hr & Hi & Hs & Hx) (r' & states' & Hr' & Hi' & Hs' & Hx').
  assert (Heq : r = r').
  { clear - Hnd Hr Hi Hr' Hi'.
    assert (Hin : forall q, (r_begin q <= i < r_end q)%nat -> In i (indices q)).
    { intros q Hq. unfold indices. apply in_seq. lia. }
    induction schedule as [|q schedule IH]; [destruct Hr|].
    cbn [flat_map] in Hnd.
    assert (Hnd' : NoDup (flat_map indices schedule))
      by (eapply NoDup_app_remove_l; eauto).
    assert (Hdis : forall q', In q' schedule -> (r_begin q' <= i < r_end q')%nat ->
                              ~ In i (indices q)).
    { intros q' Hq' Hiq' Hiq.
      revert Hnd. generalize (indices q) Hiq. intros l. induction l as [|a l IHl].
      - intros [].
      - cbn [app]. intros [->|Hl] Hnd; inversion Hnd as [|? ? Hnot Hnd'']; subst.
        + apply Hnot. apply in_or_app. right. apply in_flat_map. eauto.
        + now apply IHl. }
    destruct Hr as [<-|Hr], Hr' as [<-|Hr']; trivial.
    - elim (Hdis r' Hr' Hi'). now apply Hin.
    - elim (Hdis r Hr Hi). now apply Hin.
    - now apply IH. }
  subst r'. rewrite Hs in Hs'. injection Hs' as <-. congruence.
Qed.

End Blocks.

(** *** The replicate that is kept *)

Lemma select_max_returns (replicates : nat) (ops : list float) (best : nat) :
  List.length ops = replicates ->
  select_max replicates ops = Returns best ->
  exists y,
    (best < replicates)%nat /\ nth_error ops best = Some y /\
    forall j x, nth_error ops j = Some x ->
      gtb x y = false /\ ((j < best)%nat -> geb x y = false).
Proof.
  intros Hlen. unfold select_max.
  destruct (read ops 0) as [m0| | |] eqn:H0; cbn [bind]; try discriminate.
  apply read_returns in H0.
  assert (Hpos : (0 < replicates)%nat).
  { rewrite <- Hlen. apply nth_error_Some. congruence. }
  destruct (for_each (seq 1 (replicates - 1)) _ (0%nat, m0)) as [[idx m]| | |] eqn:Hloop;
    cbn [bind]; try discriminate.
  intros [= <-]. cbn [fst].
  pose (P := fun (k : nat) (s : nat * float) =>
     (fst s < k)%nat /\ nth_error ops (fst s) = Some (snd s) /\
     forall j x, (j < k)%nat -> nth_error ops j = Some x ->
       gtb x (snd s) = false /\ ((j < fst s)%nat -> geb x (snd s) = false)).
  assert (HP : P (1 + (replicates - 1))%nat (idx, m)).
  { apply (for_each_seq_inv _ P _ (replicates - 1) 1) with (s := (0%nat, m0)) (3 := Hloop).
    - unfold P. intros i [idx' m'] s' _ (Hidx & Hm & Hall).
      cbn [fst snd] in *.
      destruct (read ops i) as [x| | |] eqn:Hx; cbn [bind]; try discriminate.
      apply read_returns in Hx.
      destruct (gtb x m') eqn:Hgt; intros [= <-]; cbn [fst snd].
      + split; [lia|]. split; [exact Hx|]. intros j xj Hj Hxj.
        destruct (Nat.eq_dec j i) as [->|Hne].
        * split; [|lia]. rewrite Hx in Hxj. injection Hxj as <-.
          apply SFltb_irrefl.
        * destruct (Hall j xj) as [Hnot _]; [lia|trivial|].
          destruct (SFltb_above m' x xj Hgt Hnot) as [H1 H2].
          split; [exact H1|]. intros _. exact H2.
      + split; [lia|]. split; [exact Hm|]. intros j xj Hj Hxj.
        destruct (Nat.eq_dec j i) as [->|Hne].
        * rewrite Hx in Hxj. injection Hxj as <-. split; [exact Hgt|lia].
        * apply Hall; trivial. lia.
    - unfold P. cbn [fst snd]. split; [lia|]. split; [exact H0|].
      intros j x Hj Hx. assert (j = 0)%nat as -> by lia.
      rewrite H0 in Hx. injection Hx as <-. split; [apply SFltb_irrefl|lia]. }
  destruct HP as (Hidx & Hm & Hall). cbn [fst snd] in *.
  exists m. split; [lia|]. split; [exact Hm|].
  intros j x Hx. apply Hall; trivial.
  assert (j < List.length ops)%nat by (apply nth_error_Some; congruence). lia.
Qed.

Section KeepBest.
Context {env : Environment}.

Lemma calcCubaticTensor_length (self : CubaticOrderParameter) (q : quat) :
  List.length (data (calcCubaticTensor self q)) = 81%nat.
Proof.
  unfold calcCubaticTensor. cbn [for_range seq fold_left].
  auto with tensor_length.
Qed.

Lemma anneal_body_tensor_length (self : CubaticOrderParameter) (st : anneal_state) :
  List.length (data (cubatic_tensor st)) = 81%nat ->
  List.length (data (cubatic_tensor (anneal_body self st))) = 81%nat.
Proof.
  intros H. rewrite anneal_body_cases.
  destruct (propose_fields self st) as (Hct & _ & _ & _ & _ & Hnt & _).
  destruct (draw_test_value_fields (propose self st)) as (_ & Hct' & _ & _ & _ & _ & Hnt' & _).
  destruct (gtb _ _).
  - cbn [accept cubatic_tensor]. rewrite Hnt. apply calcCubaticTensor_length.
  - destruct (geb _ _).
    + cbn [accept cubatic_tensor]. rewrite Hnt', Hnt. apply calcCubaticTensor_length.
    + now rewrite Hct', Hct.
Qed.

Lemma run_replicate_tensor_length (fuel : nat) (self : CubaticOrderParameter)
    (saru : Saru) (st : anneal_state) :
  run_replicate fuel self saru = Returns st ->
  List.length (data (cubatic_tensor st)) = 81%nat.
Proof.
  unfold run_replicate. intros H.
  destruct (while_returns _ _ _ _ _ _ H) as (rounds & _ & -> & _).
  clear H. induction rounds as [|rounds IH].
  - change (Nat.iter 0 (anneal_body self) (anneal_init self saru))
      with (anneal_init self saru).
    unfold anneal_init.
    destruct (calcRandomQuaternion saru (F64.to_f32 (F64.of_int 1))) as [q saru'].
    cbn [cubatic_tensor]. apply calcCubaticTensor_length.
  - rewrite Nat.iter_succ. now apply anneal_body_tensor_length.
Qed.

Lemma replicates_from_tensor_length (fuel : nat) (self : CubaticOrderParameter)
    (count : nat) :
  forall saru states,
    replicates_from fuel self saru count = Returns states ->
    Forall (fun st => List.length (data (cubatic_tensor st)) = 81%nat) states.
Proof.
  induction count as [|count IH]; intros saru states; cbn [replicates_from].
  - intros [= <-]. constructor.
  - intros H. bind_cases H. injection H as <-. constructor.
    + eapply run_replicate_tensor_length; eauto.
    + eapply IH; eauto.
Qed.

Lemma replicate_of_tensor_length (fuel : nat) (self : CubaticOrderParameter)
    (schedule : list blocked_range) (i : nat) (st : anneal_state) :
  replicate_of fuel self schedule i st ->
  List.length (data (cubatic_tensor st)) = 81%nat.
Proof.
  intros (r & states & _ & _ & Hs & Hx).
  apply replicates_from_tensor_length in Hs.
  rewrite Forall_forall in Hs. apply Hs. eapply nth_error_In; eauto.
Qed.

(** The parts of a call of [compute] that returns. *)
Lemma compute_returns (fuel : nat) (schedule : list blocked_range)
    (self : CubaticOrderParameter) (orientations : list quat) (n : nat)
    (self' : CubaticOrderParameter) :
  compute fuel schedule self orientations n = Returns self' ->
  exists self1 p0 p best self2 po,
    prepare self orientations n = Returns self1 /\
    new_replicate_arrays self1 = Returns p0 /\
    parallel_for_replicates fuel self1 schedule p0 = Returns p /\
    select_max (m_replicates self1) (p_cubatic_order_parameter p) = Returns best /\
    keep_replicate self1 p best = Returns self2 /\
    calculatePerParticleOrderParameter self2 orientations = Returns po /\
    self' = with_particle_order_parameter self2 po.
Proof.
  unfold compute, prepare. intros H.
  destruct (reset self n) as [s0| | |]; cbn [bind] in *; try discriminate.
  destruct (calculatePerParticleTensor s0 orientations) as [pt| | |];
    cbn [bind] in *; try discriminate.
  destruct (calculateGlobalTensor (with_particle_tensor s0 pt)) as [g| | |];
    cbn [bind] in *; try discriminate.
  destruct (new_replicate_arrays _) as [p0| | |] eqn:E0; cbn [bind] in *;
    try discriminate.
  destruct (parallel_for_replicates _ _ _ _) as [p| | |] eqn:E1; cbn [bind] in *;
    try discriminate.
  destruct (select_max _ _) as [best| | |] eqn:E2; cbn [bind] in *;
    try discriminate.
  destruct (keep_replicate _ _ _) as [self2| | |] eqn:E3; cbn [bind] in *;
    try discriminate.
  destruct (calculatePerParticleOrderParameter _ _) as [po| | |] eqn:E4;
    cbn [bind] in *; try discriminate.
  injection H as <-.
  exists (with_global_tensor (with_particle_tensor s0 pt) g), p0, p, best, self2, po.
  repeat split; trivial.
Qed.

Lemma prepare_fields (self self1 : CubaticOrderParameter)
    (orientations : list quat) (n : nat) :
  prepare self orientations n = Returns self1 ->
  m_replicates self1 = m_replicates self /\ m_seed self1 = m_seed self /\
  m_t_initial self1 = m_t_initial self /\ m_t_final self1 = m_t_final self /\
  m_scale self1 = m_scale self.
Proof.
  unfold prepare. intros H.
  destruct (reset self n) as [s0| | |] eqn:E; cbn [bind] in *; try discriminate.
  destruct (calculatePerParticleTensor s0 orientations) as [pt| | |];
    cbn [bind] in *; try discriminate.
  destruct (calculateGlobalTensor (with_particle_tensor s0 pt)) as [g| | |];
    cbn [bind] in *; try discriminate.
  injection H as <-. apply reset_fields in E.
  destruct E as (_ & _ & E1 & E2 & E3 & E4 & E5 & _).
  cbn. repeat split; trivial.
Qed.

Lemma new_replicate_arrays_lengths (self : CubaticOrderParameter) (p0 : replicate_arrays) :
  new_replicate_arrays self = Returns p0 ->
  List.length (p_cubatic_order_parameter p0) = m_replicates self.
Proof.
  unfold new_replicate_arrays.
  destruct (Z.of_nat (m_replicates self) * 81 <? 2 ^ 32)%Z; [|discriminate].
  intros [= <-]. cbn [p_cubatic_order_parameter]. apply length_zeros.
Qed.

(** What a valid schedule gives: no index twice, every index below the
    number of replicates, and every such index in a block. *)
Lemma valid_schedule_indices (replicates : nat) (schedule : list blocked_range) :
  valid_schedule replicates schedule ->
  NoDup (flat_map indices schedule) /\
  forall i, In i (flat_map indices schedule) <-> (i < replicates)%nat.
Proof.
  unfold valid_schedule. intros H. split.
  - apply (Permutation_NoDup (Permutation_sym H)), seq_NoDup.
  - intros i. split.
    + intros Hi. apply (Permutation_in _ H), in_seq in Hi. lia.
    + intros Hi. apply (Permutation_in _ (Permutation_sym H)), in_seq. lia.
Qed.

(** After the replicate loop of a valid schedule, the arrays hold the
    final state of every replicate. *)
Lemma parallel_for_holds (fuel : nat) (self : CubaticOrderParameter)
    (schedule : list blocked_range) (p0 p : replicate_arrays) :
  valid_schedule (m_replicates self) schedule ->
  rows_disjoint (m_replicates self) ->
  parallel_for_replicates fuel self schedule p0 = Returns p ->
  same_lengths p0 p /\
  (forall i st, replicate_of fuel self schedule i st ->
                holds (m_replicates self) p i st) /\
  (forall i, (i < m_replicates self)%nat ->
             exists st, replicate_of fuel self schedule i st).
Proof.
  intros Hvalid Hrows Hp.
  destruct (valid_schedule_indices _ _ Hvalid) as [Hnd Hin].
  destruct (parallel_for_stores fuel self schedule _ _ Hp) as (w & Hw & Hfst & Hof).
  destruct (stores_hold self w Hrows _ _ Hw) as [Hlen Hholds].
  { now rewrite Hfst. }
  { intros j Hj. apply Hin. now rewrite <- Hfst. }
  split; [exact Hlen|]. split.
  - intros i st Hi. apply Hholds, Hof, Hi.
  - intros i Hi. apply Hin in Hi. rewrite <- Hfst in Hi.
    apply in_map_iff in Hi. destruct Hi as ([i' st] & Hfsti & Hi).
    cbn [fst] in Hfsti. subst i'. exists st. now apply Hof.
Qed.

Lemma keep_replicate_holds (self self2 : CubaticOrderParameter)
    (p : replicate_arrays) (best : nat) (st : anneal_state) :
  holds (m_replicates self) p best st ->
  List.length (data (cubatic_tensor st)) = 81%nat ->
  keep_replicate self p best = Returns self2 ->
  m_cubatic_tensor self2 = cubatic_tensor st /\
  m_cubatic_orientation self2 = cubatic_orientation st /\
  m_cubatic_order_parameter self2 = Some (cubatic_order_parameter st).
Proof.
  intros (Hop & Hq & Ht) Hlen. unfold keep_replicate, memcpy_from.
  destruct (Nat.leb_spec (Index2D (m_replicates self) 81 best 0 + 81)
                         (List.length (p_cubatic_tensor p))); [|discriminate].
  cbn [bind]. apply read_returns in Hop, Hq. rewrite Hq, Hop. cbn [bind].
  assert (Hrow : map (fun k => get (p_cubatic_tensor p)
                                   (Index2D (m_replicates self) 81 best 0 + k))
                     (seq 0 81)
                 = data (cubatic_tensor st)).
  { transitivity (map (get (data (cubatic_tensor st)))
                      (seq 0 (List.length (data (cubatic_tensor st)))));
      [|apply map_get_seq].
    rewrite Hlen. apply map_ext_in. intros k Hk. apply in_seq in Hk.
    apply Ht. lia. }
  rewrite Hrow. intros [= <-].
  cbn [m_cubatic_tensor m_cubatic_orientation m_cubatic_order_parameter].
  repeat split. now destruct (cubatic_tensor st).
Qed.

End KeepBest.
(** *** The two arrays that are indexed by the replicate *)

Section ScalarArrays.
Context {env : Environment}.
Variable self : CubaticOrderParameter.

Lemma store_replicate_scalars (i : nat) (st : anneal_state) (p p' : replicate_arrays) :
  store_replicate self i st p = Returns p' ->
  nth_error (p_cubatic_orientation p') i = Some (cubatic_orientation st) /\
  nth_error (p_cubatic_order_parameter p') i = Some (cubatic_order_parameter st) /\
  forall j, j <> i ->
    nth_error (p_cubatic_orientation p') j = nth_error (p_cubatic_orientation p) j /\
    nth_error (p_cubatic_order_parameter p') j
    = nth_error (p_cubatic_order_parameter p) j.
Proof.
  unfold store_replicate. intros H. bind_cases H. injection H as <-.
  match goal with
  | Hq : write (p_cubatic_orientation _) _ _ = Returns _,
    Ho : write (p_cubatic_order_parameter _) _ _ = Returns _ |- _ =>
      apply write_returns in Hq; apply write_returns in Ho;
      destruct Hq as (_ & _ & Hq1 & Hq2); destruct Ho as (_ & _ & Ho1 & Ho2)
  end.
  cbn [p_cubatic_orientation p_cubatic_order_parameter].
  split; [assumption|]. split; [assumption|]. intros j Hj. split; auto.
Qed.

Lemma stores_lengths (w : list (nat * anneal_state)) :
  forall p p', stores self w p = Returns p' -> same_lengths p p'.
Proof.
  unfold stores. induction w as [|[j st] w IH]; intros p p'; cbn [for_each].
  - intros [= <-]. apply same_lengths_refl.
  - destruct (store_replicate self j st p) as [p1| | |] eqn:Hst; try discriminate.
    intros Hw. apply store_replicate_returns in Hst. destruct Hst as [Hl _].
    eapply same_lengths_trans; eauto.
Qed.

(** Stores of other replicates leave the order parameter and the
    orientation at index [i] as they are, whatever [Index2D] is. *)
Lemma stores_scalars_elsewhere (w : list (nat * anneal_state)) :
  forall p p' i,
    stores self w p = Returns p' ->
    ~ In i (map fst w) ->
    nth_error (p_cubatic_orientation p') i = nth_error (p_cubatic_orientation p) i /\
    nth_error (p_cubatic_order_parameter p') i
    = nth_error (p_cubatic_order_parameter p) i.
Proof.
  unfold stores. induction w as [|[j st] w IH]; intros p p' i; cbn [for_each map fst].
  - intros [= <-] _. split; reflexivity.
  - destruct (store_replicate self j st p) as [p1| | |] eqn:Hst; try discriminate.
    intros Hw Hnotin.
    destruct (store_replicate_scalars _ _ _ _ Hst) as (_ & _ & Hother).
    destruct (IH p1 p' i Hw) as [Hq Ho].
    { intros Hin. apply Hnotin. now right. }
    destruct (Hother i) as [Hq1 Ho1].
    { intros ->. apply Hnotin. now left. }
    split; congruence.
Qed.

(** After the stores of replicates with distinct indices, the two arrays
    hold the order parameter and the orientation of each of them. *)
Lemma stores_hold_scalars (w : list (nat * anneal_state)) :
  forall p p',
    stores self w p = Returns p' ->
    NoDup (map fst w) ->
    forall i st, In (i, st) w -> holds_scalars p' i st.
Proof.
  induction w as [|[j st] w IH]; intros p p'.
  - intros _ _ i st [].
  - unfold stores. cbn [for_each map fst].
    destruct (store_replicate self j st p) as [p1| | |] eqn:Hst; try discriminate.
    intros Hw Hnd. inversion Hnd as [|? ? Hnotin Hnd']; subst.
    intros i st' [[= <- <-]|Hin].
    + destruct (store_replicate_scalars _ _ _ _ Hst) as (Hq & Ho & _).
      destruct (stores_scalars_elsewhere w p1 p' j Hw Hnotin) as [Hq' Ho'].
      split; congruence.
    + now apply (IH p1 p' Hw Hnd').
Qed.

(** After the replicate loop of a valid schedule, the two arrays hold the
    order parameter and the orientation of every replicate, whatever
    [Index2D] is. *)
Lemma parallel_for_holds_scalars (fuel : nat) (schedule : list blocked_range)
    (p0 p : replicate_arrays) :
  valid_schedule (m_replicates self) schedule ->
  parallel_for_replicates fuel self schedule p0 = Returns p ->
  same_lengths p0 p /\
  (forall i st, replicate_of fuel self schedule i st -> holds_scalars p i st) /\
  (forall i, (i < m_replicates self)%nat ->
             exists st, replicate_of fuel self schedule i st).
Proof.
  intros Hvalid Hp.
  destruct (valid_schedule_indices _ _ Hvalid) as [Hnd Hin].
  destruct (parallel_for_stores fuel self schedule _ _ Hp) as (w & Hw & Hfst & Hof).
  split; [now apply (stores_lengths w)|]. split.
  - intros i st Hi. apply (stores_hold_scalars w p0 p Hw).
    + now rewrite Hfst.
    + now apply Hof.
  - intros i Hi. apply Hin in Hi. rewrite <- Hfst in Hi.
    apply in_map_iff in Hi. destruct Hi as ([i' st] & Hfsti & Hi).
    cbn [fst] in Hfsti. subst i'. exists st. now apply Hof.
Qed.

End ScalarArrays.


(** *** The sample runs *)

Lemma sample_valid_one_block : valid_schedule 2 one_block.
Proof. apply Permutation_refl. Qed.


Lemma sample_rows_disjoint : rows_disjoint (env := sample_env) 2.
Proof.
  intros i j Hi Hj Hne. cbn [Index2D sample_env]. lia.
Qed.


(** In a block of two replicates the second one draws from the stream as
    the first one left it, not from a stream seeded with its own index. *)
Remark second_replicate_shares_stream (env : Environment) (fuel : nat)
    (self : CubaticOrderParameter) (st0 st1 : anneal_state) :
  block_states fuel self (mkRange 0 2) = Returns [st0; st1] ->
  run_replicate fuel self (Saru_new (m_seed self) 0 0xffaabb) = Returns st0 /\
  run_replicate fuel self (l_saru st0) = Returns st1.
Proof.
  unfold block_states. cbn [r_begin r_end Nat.sub replicates_from Z.of_nat].
  destruct (run_replicate fuel self (Saru_new (m_seed self) 0 0xffaabb))
    as [a| | |]; cbn [bind]; try discriminate.
  destruct (run_replicate fuel self (l_saru a)) as [b| | |] eqn:E; cbn [bind];
    try discriminate.
  intros [= <- <-]. split; [reflexivity|exact E].
Qed.

Lemma anneal_terminates_witness :
  exists (st : anneal_state) (rounds : nat),
    run_replicate (env := sample_env) sample_fuel sample_object 1%Z = Returns st /\
    st = Nat.iter rounds (anneal_body (env := sample_env) sample_object)
                  (anneal_init (env := sample_env) sample_object 1%Z) /\
    (Z.of_nat rounds <= 10000)%Z /\
    loop_count st = Z.of_nat rounds /\
    t_current (anneal_init (env := sample_env) sample_object 1%Z)
    = m_t_initial sample_object /\
    (forall m, (m < rounds)%nat ->
       gtb (t_current (Nat.iter m (anneal_body (env := sample_env) sample_object)
                                (anneal_init (env := sample_env) sample_object 1%Z)))
           (m_t_final sample_object) = true /\
       t_current (Nat.iter (Datatypes.S m) (anneal_body (env := sample_env) sample_object)
                           (anneal_init (env := sample_env) sample_object 1%Z))
       = if round_accepts (env := sample_env) sample_object
              (Nat.iter m (anneal_body (env := sample_env) sample_object)
                        (anneal_init (env := sample_env) sample_object 1%Z))
         then mul (t_current (Nat.iter m (anneal_body (env := sample_env) sample_object)
                                       (anneal_init (env := sample_env) sample_object 1%Z)))
                  (m_scale sample_object)
         else t_current (Nat.iter m (anneal_body (env := sample_env) sample_object)
                                  (anneal_init (env := sample_env) sample_object 1%Z))) /\
    t_current st
    = cooled_temperature sample_object
        (accepted_rounds (env := sample_env) sample_object 1%Z rounds) /\
    (leb (t_current st) (m_t_final sample_object) = true \/
     Z.of_nat rounds = 10000%Z).
Proof.
  apply (anneal_terminates (env := sample_env) sample_object 1%Z sample_fuel).
  - vm_compute. reflexivity.
  - split; vm_compute; reflexivity.
  - vm_compute. reflexivity.
Defined.

Lemma anneal_round_witness :
  accepted (env := sample_env) computed_one_block sample_state
           (anneal_body (env := sample_env) computed_one_block sample_state).
Proof.
  apply (anneal_round (env := sample_env) computed_one_block sample_state).
  - vm_compute. reflexivity.
  - vm_compute. reflexivity.
Defined.

(** *** The operators of [tensor4] *)

Lemma list_ext_get (l l' : list float) :
  List.length l = List.length l' ->
  (forall k, (k < List.length l)%nat -> get l k = get l' k) ->
  l = l'.
Proof.
  intros Hlen Hget. apply (nth_ext l l' zero zero Hlen). exact Hget.
Qed.

Lemma tensor4_add_scalar_get (a : tensor4) (c : float) (k : nat) :
  List.length (data a) = 81%nat -> (k < 81)%nat ->
  get (data (tensor4_add_scalar a c)) k = add (get (data a) k) c.
Proof.
  intros Ha Hk. unfold tensor4_add_scalar. cbn [data].
  destruct (for_range_assign (fun _ x => add x c) 81 (data a)) as [_ H]; [lia|].
  rewrite H. apply Nat.ltb_lt in Hk. now rewrite Hk.
Qed.

Lemma tensor4_scale_get (a : tensor4) (c : float) (k : nat) :
  (k < 81)%nat ->
  get (data (tensor4_scale a c)) k = mul (get (data a) k) c.
Proof.
  intros Hk. unfold tensor4_scale. cbn [data].
  destruct (for_range_assign (fun i _ => mul (get (data a) i) c) 81
                             (data tensor4_zero)) as [_ H].
  { rewrite tensor4_zero_length. lia. }
  rewrite H. apply Nat.ltb_lt in Hk. now rewrite Hk.
Qed.

Lemma tensor4_scale_length (a : tensor4) (c : float) :
  List.length (data (tensor4_scale a c)) = 81%nat.
Proof.
  unfold tensor4_scale. cbn [data].
  destruct (for_range_assign (fun i _ => mul (get (data a) i) c) 81
                             (data tensor4_zero)) as [H _].
  { rewrite tensor4_zero_length. lia. }
  rewrite H. apply tensor4_zero_length.
Qed.

Lemma tensor4_sub_length (a b : tensor4) :
  List.length (data (tensor4_sub a b)) = 81%nat.
Proof.
  unfold tensor4_sub. cbn [data].
  destruct (for_range_assign (fun i _ => sub (get (data a) i) (get (data b) i)) 81
                             (data tensor4_zero)) as [H _].
  { rewrite tensor4_zero_length. lia. }
  rewrite H. apply tensor4_zero_length.
Qed.

(** X7.  The operators of [tensor4] act component by component on the 81
    components: [+=] adds, [-] and [-=] subtract, [*] and [*=] scale,
    [reset] clears; the operator that returns a new tensor and the one
    that works in place give the same tensor. *)
Theorem tensor4_operators_componentwise (a b : tensor4) (c : float) (k : nat) :
  List.length (data a) = 81%nat -> (k < 81)%nat ->
  get (data (tensor4_add a b)) k = add (get (data a) k) (get (data b) k) /\
  get (data (tensor4_add_scalar a c)) k = add (get (data a) k) c /\
  get (data (tensor4_sub a b)) k = sub (get (data a) k) (get (data b) k) /\
  get (data (tensor4_scale a c)) k = mul (get (data a) k) c /\
  get (data (tensor4_reset a)) k = zero /\
  tensor4_sub_assign a b = tensor4_sub a b /\
  tensor4_scale_assign a c = tensor4_scale a c.
Proof.
  intros Ha Hk.
  split; [now apply tensor4_add_get|].
  split; [now apply tensor4_add_scalar_get|].
  split; [now apply tensor4_sub_get|].
  split; [now apply tensor4_scale_get|].
  split; [apply get_zeros|].
  split.
  - assert (H : data (tensor4_sub_assign a b) = data (tensor4_sub a b)).
    { apply list_ext_get.
      - now rewrite tensor4_sub_assign_length, tensor4_sub_length.
      - rewrite tensor4_sub_assign_length by exact Ha. intros n Hn.
        now rewrite tensor4_sub_assign_get, tensor4_sub_get. }
    destruct (tensor4_sub_assign a b), (tensor4_sub a b). cbn [data] in H.
    now rewrite H.
  - assert (H : data (tensor4_scale_assign a c) = data (tensor4_scale a c)).
    { apply list_ext_get.
      - now rewrite tensor4_scale_assign_length, tensor4_scale_length.
      - rewrite tensor4_scale_assign_length by exact Ha. intros n Hn.
        now rewrite tensor4_scale_assign_get, tensor4_scale_get. }
    destruct (tensor4_scale_assign a c), (tensor4_scale a c). cbn [data] in H.
    now rewrite H.
Qed.

Lemma tensor4_operators_componentwise_witness :
  get (data (tensor4_add genR4Tensor tensor4_zero)) 3
  = add (get (data genR4Tensor) 3) (get (data tensor4_zero) 3) /\
  get (data (tensor4_add_scalar genR4Tensor (of_int 2))) 3
  = add (get (data genR4Tensor) 3) (of_int 2) /\
  get (data (tensor4_sub genR4Tensor tensor4_zero)) 3
  = sub (get (data genR4Tensor) 3) (get (data tensor4_zero) 3) /\
  get (data (tensor4_scale genR4Tensor (of_int 2))) 3
  = mul (get (data genR4Tensor) 3) (of_int 2) /\
  get (data (tensor4_reset genR4Tensor)) 3 = zero /\
  tensor4_sub_assign genR4Tensor tensor4_zero = tensor4_sub genR4Tensor tensor4_zero /\
  tensor4_scale_assign genR4Tensor (of_int 2) = tensor4_scale genR4Tensor (of_int 2).
Proof.
  apply (tensor4_operators_componentwise genR4Tensor tensor4_zero (of_int 2) 3).
  - vm_compute. reflexivity.
  - lia.
Defined.

Lemma mul_comm (x y : float) : mul x y = mul y x.
Proof.
  unfold mul, SFmul.
  destruct x as [sx|sx| |sx mx ex], y as [sy|sy| |sy my ey]; try reflexivity;
    rewrite (xorb_comm sx sy); try reflexivity.
  now rewrite (Pos.mul_comm mx my), (Z.add_comm ex ey).
Qed.

(** X8.  [dot] is symmetric, bit for bit: the products of the components
    are the same floats in either order, and they are summed in the same
    order. *)
Theorem dot_symmetric (a b : tensor4) : dot a b = dot b a.
Proof.
  rewrite !dot_sum. apply sum_over_ext. intros n _. apply mul_comm.
Qed.

(** *** The arrays of [compute] *)

Lemma for_each_inv (I St : Type) (P : St -> Prop) (body : I -> St -> outcome St)
    (l : list I) :
  (forall i s s', In i l -> P s -> body i s = Returns s' -> P s') ->
  forall s r, P s -> for_each l body s = Returns r -> P r.
Proof.
  induction l as [|i l IH]; intros Hbody s r Hs; cbn [for_each].
  - now intros [= <-].
  - destruct (body i s) as [s'| | |] eqn:Hb; try discriminate.
    apply IH.
    + intros j t t' Hj. apply Hbody. now right.
    + eapply Hbody; eauto. now left.
Qed.

Lemma write_set (A : Type) (p p' : list A) (i : nat) (x : A) :
  write p i x = Returns p' -> (i < List.length p)%nat /\ p' = set p i x.
Proof.
  unfold write. destruct (Nat.ltb_spec i (List.length p)); [|discriminate].
  intros [= <-]. auto.
Qed.

Lemma read_get (p : list float) (i : nat) (x : float) :
  read p i = Returns x -> get p i = x.
Proof.
  intros H. apply read_returns in H. unfold get. now apply nth_error_nth.
Qed.

Section Arrays.
Context {env : Environment}.

Lemma l_mbar_get (self : CubaticOrderParameter) (q : quat) (j : nat) :
  (j < 81)%nat ->
  get (data (tensor4_scale_assign
               (for_range 3 (fun a l_mbar =>
                  tensor4_add l_mbar
                    (tensor4_of_vec3 (rotate q (system_vector self a))))
                  tensor4_zero)
               (of_int 2))) j
  = particle_component self q j.
Proof.
  intros Hj. unfold particle_component, sum_over.
  cbn [for_range seq fold_left].
  rewrite tensor4_scale_assign_get, !tensor4_add_get; auto with tensor_length.
  unfold tensor4_zero. cbn [data]. rewrite get_zeros. reflexivity.
Qed.

(** Lines 255-258: the loop that stores the tensor [v] of particle [i]. *)
Lemma store_row (n i : nat) (v : list float) (s s' : list float) :
  for_each (seq 0 81)
    (fun j particle_tensor =>
       write particle_tensor (Index2D n 81 i j) (get v j)) s = Returns s' ->
  List.length s' = List.length s /\
  (cells_distinct n -> (i < n)%nat ->
   (forall i0 j0, (i0 < n)%nat -> i0 <> i -> (j0 < 81)%nat ->
      get s' (Index2D n 81 i0 j0) = get s (Index2D n 81 i0 j0)) /\
   (forall j0, (j0 < 81)%nat -> get s' (Index2D n 81 i j0) = get v j0)).
Proof.
  intros Hw.
  pose (Q := fun (m : nat) (t : list float) =>
    List.length t = List.length s /\
    (cells_distinct n -> (i < n)%nat ->
     (forall i0 j0, (i0 < n)%nat -> i0 <> i -> (j0 < 81)%nat ->
        get t (Index2D n 81 i0 j0) = get s (Index2D n 81 i0 j0)) /\
     (forall j0, (j0 < m)%nat -> get t (Index2D n 81 i j0) = get v j0))).
  assert (HQ : Q (0 + 81)%nat s').
  { apply (for_each_seq_inv _ Q _ 81 0) with (3 := Hw).
    - clear Hw s'. intros m t t' Hm (Ht & Hcell) Hwr.
      apply write_set in Hwr. destruct Hwr as [Hidx ->].
      split; [now rewrite length_set|].
      intros Hd Hi. destruct (Hcell Hd Hi) as [Hold Hrow]. split.
      + intros i0 j0 Hi0 Hne Hj0. unfold get. rewrite nth_set_ne.
        * now apply Hold.
        * intros Heq. apply Hd in Heq; lia.
      + intros j0 Hj0. unfold get.
        destruct (Nat.eq_dec j0 m) as [->|Hne].
        * now apply nth_set_eq.
        * rewrite nth_set_ne; [apply Hrow; lia|].
          intros Heq. apply Hd in Heq; lia.
    - split; [reflexivity|]. intros Hd Hi. split; [reflexivity|].
      intros j0 Hj0. lia. }
  destruct HQ as [Hlen HQ]. split; [exact Hlen|].
  intros Hd Hi. destruct (HQ Hd Hi) as [Hold Hrow]. split; [exact Hold|].
  intros j0 Hj0. apply Hrow. lia.
Qed.

(** Lines 239-259: the body of the particle loop. *)
Lemma particle_step (self : CubaticOrderParameter) (orientations : list quat)
    (i : nat) (s s' : list float) :
  bind (read orientations i) (fun q =>
    let l_mbar :=
      for_range 3 (fun j l_mbar =>
        let v_r := rotate q (system_vector self j) in
        let r4_tensor := tensor4_of_vec3 v_r in
        tensor4_add l_mbar r4_tensor)
        tensor4_zero in
    let l_mbar := tensor4_scale_assign l_mbar (of_int 2) in
    for_each (seq 0 81)
      (fun j particle_tensor =>
         write particle_tensor (Index2D (m_n self) 81 i j) (get (data l_mbar) j))
      s) = Returns s' ->
  (i < List.length orientations)%nat /\
  List.length s' = List.length s /\
  (cells_distinct (m_n self) -> (i < m_n self)%nat ->
   (forall i0 j0, (i0 < m_n self)%nat -> i0 <> i -> (j0 < 81)%nat ->
      get s' (Index2D (m_n self) 81 i0 j0) = get s (Index2D (m_n self) 81 i0 j0)) /\
   (forall j0, (j0 < 81)%nat ->
      get s' (Index2D (m_n self) 81 i j0)
      = particle_component self (orientation_of orientations i) j0)).
Proof.
  destruct (read orientations i) as [q| | |] eqn:Hq; cbn [bind]; try discriminate.
  apply read_returns in Hq.
  assert (Hio : (i < List.length orientations)%nat).
  { apply nth_error_Some. congruence. }
  assert (Hqi : orientation_of orientations i = q).
  { unfold orientation_of. now apply nth_error_nth. }
  cbv zeta. intros Hw. apply store_row in Hw. destruct Hw as [Hlen Hw].
  split; [exact Hio|]. split; [exact Hlen|].
  intros Hd Hi. destruct (Hw Hd Hi) as [Hold Hrow]. split; [exact Hold|].
  intros j0 Hj0. rewrite Hrow, Hqi by trivial. now apply l_mbar_get.
Qed.

(** [calculatePerParticleTensor]: every particle has an orientation, the
    array keeps its length, and cell [(i, j)] holds component [j] of the
    tensor of particle [i]. *)
Lemma calculatePerParticleTensor_cells (self : CubaticOrderParameter)
    (orientations : list quat) (pt : list float) :
  calculatePerParticleTensor self orientations = Returns pt ->
  (m_n self <= List.length orientations)%nat /\
  List.length pt = List.length (m_particle_tensor self) /\
  (cells_distinct (m_n self) ->
   forall i j, (i < m_n self)%nat -> (j < 81)%nat ->
     get pt (Index2D (m_n self) 81 i j)
     = particle_component self (orientation_of orientations i) j).
Proof.
  unfold calculatePerParticleTensor. intros H.
  pose (P := fun (k : nat) (s : list float) =>
    (k <= m_n self)%nat /\
    (k <= List.length orientations)%nat /\
    List.length s = List.length (m_particle_tensor self) /\
    (cells_distinct (m_n self) ->
     forall i j, (i < k)%nat -> (j < 81)%nat ->
       get s (Index2D (m_n self) 81 i j)
       = particle_component self (orientation_of orientations i) j)).
  assert (HP : P (0 + m_n self)%nat pt).
  { apply (for_each_seq_inv _ P _ (m_n self) 0) with (3 := H).
    - clear H pt. intros i s s' Hi (Hk & Hlen & Hs & Hcells) Hstep.
      apply particle_step in Hstep. destruct Hstep as (Hio & Hs' & Hstep).
      split; [lia|]. split; [lia|]. split; [congruence|].
      intros Hd i0 j0 Hi0 Hj0.
      destruct (Hstep Hd) as [Hold Hrow]; [lia|].
      destruct (Nat.eq_dec i0 i) as [->|Hne].
      + now apply Hrow.
      + rewrite Hold by (trivial; lia). apply Hcells; trivial. lia.
    - split; [lia|]. split; [lia|]. split; [reflexivity|]. intros _ i j Hi. lia. }
  destruct HP as (_ & H1 & H2 & H3). auto.
Qed.

Lemma inner_sum (pt : list float) (idx : nat -> nat) :
  forall len start acc r,
    for_each (seq start len)
      (fun j tensor_value =>
         bind (read pt (idx j)) (fun x => Returns (add tensor_value x)))
      acc = Returns r ->
    r = fold_left (fun c j => add c (get pt (idx j))) (seq start len) acc.
Proof.
  induction len as [|len IH]; intros start acc r; cbn [seq for_each fold_left].
  - now intros [= <-].
  - destruct (read pt (idx start)) as [x| | |] eqn:Hx; cbn [bind]; try discriminate.
    apply read_get in Hx. rewrite Hx. apply IH.
Qed.

(** [calculateGlobalTensor]: component [i] is the sum over the particles
    of cell [(j, i)], times [1/n], minus component [i] of the reference
    tensor. *)
Lemma calculateGlobalTensor_get (self : CubaticOrderParameter) (g : tensor4) :
  List.length (data (m_global_tensor self)) = 81%nat ->
  calculateGlobalTensor self = Returns g ->
  List.length (data g) = 81%nat /\
  forall i, (i < 81)%nat ->
    get (data g) i
    = sub (mul (sum_over (m_n self) (fun j =>
                  get (m_particle_tensor self) (Index2D (m_n self) 81 j i)))
               (inverse_count (m_n self)))
          (get (data (m_gen_r4_tensor self)) i).
Proof.
  intros Hlen. unfold calculateGlobalTensor.
  destruct (for_each (seq 0 81) _ (data (m_global_tensor self))) as [g0| | |] eqn:Hg;
    cbn [bind]; try discriminate.
  intros [= <-].
  pose (P := fun (k : nat) (t : list float) =>
    List.length t = 81%nat /\
    forall i, (i < k)%nat ->
      get t i = mul (sum_over (m_n self) (fun j =>
                       get (m_particle_tensor self) (Index2D (m_n self) 81 j i)))
                    (inverse_count (m_n self))).
  assert (HP : P (0 + 81)%nat g0).
  { apply (for_each_seq_inv _ P _ 81 0) with (3 := Hg).
    - clear Hg g0. intros i t t' Hi (Ht & Hget).
      destruct (for_each (seq 0 (m_n self)) _ zero) as [tv| | |] eqn:Htv;
        cbn [bind]; try discriminate.
      apply (inner_sum (m_particle_tensor self)
               (fun j => Index2D (m_n self) 81 j i)) in Htv.
      intros [= <-]. split; [now rewrite length_set|].
      intros k Hk. unfold get.
      destruct (Nat.eq_dec k i) as [->|Hne].
      + rewrite nth_set_eq by lia. rewrite Htv. reflexivity.
      + rewrite nth_set_ne by auto. apply Hget. lia.
    - split; [exact Hlen|]. intros i Hi. lia. }
  destruct HP as [Hg0 Hget]. split.
  - now apply tensor4_sub_assign_length.
  - intros i Hi. rewrite tensor4_sub_assign_get by trivial.
    cbn [data]. now rewrite Hget.
Qed.

Lemma reset_arrays (self self0 : CubaticOrderParameter) (n : nat) :
  reset self n = Returns self0 ->
  m_n self0 = n /\
  m_global_tensor self0 = tensor4_zero /\
  m_particle_tensor self0 = zeros (n * 81) /\
  m_particle_order_parameter self0 = zeros n /\
  same_parameters self self0.
Proof.
  unfold reset. destruct (Z.of_nat n * 81 <? 2 ^ 32)%Z; [|discriminate].
  intros [= <-]. unfold same_parameters. cbn. repeat split.
Qed.

Lemma same_parameters_trans (a b c : CubaticOrderParameter) :
  same_parameters a b -> same_parameters b c -> same_parameters a c.
Proof.
  unfold same_parameters.
  intros (A1 & A2 & A3 & A4 & A5 & A6 & A7 & A8 & A9)
         (B1 & B2 & B3 & B4 & B5 & B6 & B7 & B8 & B9).
  repeat split; congruence.
Qed.

(** The parts of the first half of [compute]. *)
Lemma prepare_returns (self self1 : CubaticOrderParameter)
    (orientations : list quat) (n : nat) :
  prepare self orientations n = Returns self1 ->
  exists self0 pt g,
    reset self n = Returns self0 /\
    calculatePerParticleTensor self0 orientations = Returns pt /\
    calculateGlobalTensor (with_particle_tensor self0 pt) = Returns g /\
    self1 = with_global_tensor (with_particle_tensor self0 pt) g.
Proof.
  unfold prepare. intros H.
  destruct (reset self n) as [s0| | |]; cbn [bind] in *; try discriminate.
  destruct (calculatePerParticleTensor s0 orientations) as [pt| | |] eqn:E1;
    cbn [bind] in *; try discriminate.
  destruct (calculateGlobalTensor (with_particle_tensor s0 pt)) as [g| | |] eqn:E2;
    cbn [bind] in *; try discriminate.
  injection H as <-. exists s0, pt, g. auto.
Qed.

Lemma particle_component_ext (self self' : CubaticOrderParameter) (q : quat) (j : nat) :
  m_system_vectors self' = m_system_vectors self ->
  particle_component self' q j = particle_component self q j.
Proof.
  intros H. unfold particle_component, system_vector. now rewrite H.
Qed.

(** What the first half of [compute] leaves. *)
Lemma prepare_arrays (self self1 : CubaticOrderParameter)
    (orientations : list quat) (n : nat) :
  prepare self orientations n = Returns self1 ->
  same_parameters self self1 /\
  m_n self1 = n /\
  (n <= List.length orientations)%nat /\
  m_particle_order_parameter self1 = zeros n /\
  List.length (m_particle_tensor self1) = (n * 81)%nat /\
  List.length (data (m_global_tensor self1)) = 81%nat /\
  (cells_distinct n ->
   (forall i j, (i < n)%nat -> (j < 81)%nat ->
      get (m_particle_tensor self1) (Index2D n 81 i j)
      = particle_component self1 (orientation_of orientations i) j) /\
   (forall j, (j < 81)%nat ->
      get (data (m_global_tensor self1)) j = global_component self1 orientations n j)).
Proof.
  intros H. destruct (prepare_returns _ _ _ _ H) as (s0 & pt & g & H0 & Hpt & Hg & ->).
  destruct (reset_arrays _ _ _ H0) as (Hn & Hg0 & Hpt0 & Hpo0 & Hsame).
  destruct (calculatePerParticleTensor_cells _ _ _ Hpt) as (Hlen & Hptlen & Hcells).
  destruct (calculateGlobalTensor_get (with_particle_tensor s0 pt) g) as (Hglen & Hgget);
    [cbn [with_particle_tensor m_global_tensor]; rewrite Hg0;
     apply tensor4_zero_length | exact Hg |].
  subst n.
  cbn [with_particle_tensor with_global_tensor m_n m_particle_tensor
       m_gen_r4_tensor m_global_tensor m_particle_order_parameter] in *.
  split; [exact Hsame|]. split; [reflexivity|]. split; [exact Hlen|].
  split; [exact Hpo0|]. split.
  { rewrite Hptlen, Hpt0. apply length_zeros. }
  split; [exact Hglen|].
  intros Hd. split.
  - intros i j Hi Hj. now apply Hcells.
  - intros j Hj. rewrite Hgget by trivial. unfold global_component.
    cbn [with_particle_tensor with_global_tensor m_gen_r4_tensor].
    f_equal. f_equal. apply sum_over_ext. intros p Hp.
    now apply Hcells.
Qed.

Lemma keep_replicate_arrays (self self2 : CubaticOrderParameter)
    (p : replicate_arrays) (best : nat) :
  keep_replicate self p best = Returns self2 ->
  same_parameters self self2 /\
  m_n self2 = m_n self /\
  m_global_tensor self2 = m_global_tensor self /\
  m_particle_tensor self2 = m_particle_tensor self /\
  m_particle_order_parameter self2 = m_particle_order_parameter self /\
  List.length (data (m_cubatic_tensor self2)) = 81%nat /\
  nth_error (p_cubatic_orientation p) best = Some (m_cubatic_orientation self2) /\
  exists o, nth_error (p_cubatic_order_parameter p) best = Some o /\
            m_cubatic_order_parameter self2 = Some o.
Proof.
  unfold keep_replicate, memcpy_from.
  destruct (_ <=? _)%nat; [|discriminate]. cbn [bind].
  destruct (read (p_cubatic_orientation p) best) as [q| | |] eqn:Hq; cbn [bind];
    try discriminate.
  destruct (read (p_cubatic_order_parameter p) best) as [o| | |] eqn:Ho; cbn [bind];
    try discriminate.
  apply read_returns in Hq, Ho.
  intros [= <-]. unfold same_parameters.
  cbn [m_t_initial m_t_final m_scale m_replicates m_seed m_gen_r4_tensor
       m_system_vectors m_sp_global_tensor m_sp_cubatic_tensor m_n
       m_global_tensor m_particle_tensor m_particle_order_parameter
       m_cubatic_tensor m_cubatic_orientation m_cubatic_order_parameter data].
  split; [repeat split|]. split; [reflexivity|]. split; [reflexivity|].
  split; [reflexivity|]. split; [reflexivity|].
  split; [first [now rewrite length_map, length_seq | reflexivity]|].
  split; [exact Hq|]. exists o. auto.
Qed.

(** [calculatePerParticleOrderParameter]: element [i] is the order
    parameter of the orientation of particle [i]. *)
Lemma calculatePerParticleOrderParameter_get (self : CubaticOrderParameter)
    (orientations : list quat) (po : list float) :
  (m_n self <= List.length (m_particle_order_parameter self))%nat ->
  calculatePerParticleOrderParameter self orientations = Returns po ->
  List.length po = List.length (m_particle_order_parameter self) /\
  forall i, (i < m_n self)%nat ->
    nth_error po i = Some (order_parameter_of self (orientation_of orientations i)).
Proof.
  intros Hlen. unfold calculatePerParticleOrderParameter. intros H.
  pose (P := fun (k : nat) (s : list float) =>
    List.length s = List.length (m_particle_order_parameter self) /\
    forall i, (i < k)%nat ->
      nth_error s i = Some (order_parameter_of self (orientation_of orientations i))).
  assert (HP : P (0 + m_n self)%nat po).
  { apply (for_each_seq_inv _ P _ (m_n self) 0) with (3 := H).
    - clear H po. intros i s s' Hi (Hs & Hget).
      destruct (read orientations i) as [q| | |] eqn:Hq; cbn [bind]; try discriminate.
      apply read_returns in Hq.
      assert (Hqi : orientation_of orientations i = q).
      { unfold orientation_of. now apply nth_error_nth. }
      intros Hw. apply write_set in Hw. destruct Hw as [Hidx ->].
      split; [now rewrite length_set|].
      intros k Hk. destruct (Nat.eq_dec k i) as [->|Hne].
      + rewrite nth_error_set_eq by trivial. now rewrite Hqi.
      + rewrite nth_error_set_ne by auto. apply Hget. lia.
    - split; [reflexivity|]. intros i Hi. lia. }
  exact HP.
Qed.

Lemma order_parameter_of_ext (self self' : CubaticOrderParameter) (q : quat) :
  m_global_tensor self' = m_global_tensor self ->
  m_gen_r4_tensor self' = m_gen_r4_tensor self ->
  m_system_vectors self' = m_system_vectors self ->
  order_parameter_of self' q = order_parameter_of self q.
Proof.
  intros Hg Hr Hv.
  unfold order_parameter_of, calcCubaticOrderParameter, calcCubaticTensor,
    system_vector.
  now rewrite Hg, Hr, Hv.
Qed.

(** What a call of [compute] that returns leaves, part by part. *)
Lemma compute_arrays (fuel : nat) (schedule : list blocked_range)
    (self : CubaticOrderParameter) (orientations : list quat) (n : nat)
    (self' : CubaticOrderParameter) :
  compute fuel schedule self orientations n = Returns self' ->
  exists self1,
    prepare self orientations n = Returns self1 /\
    same_parameters self1 self' /\
    m_n self' = n /\
    m_global_tensor self' = m_global_tensor self1 /\
    m_particle_tensor self' = m_particle_tensor self1 /\
    List.length (m_particle_order_parameter self') = n /\
    List.length (data (m_cubatic_tensor self')) = 81%nat /\
    forall i, (i < n)%nat ->
      nth_error (m_particle_order_parameter self') i
      = Some (order_parameter_of self' (orientation_of orientations i)).
Proof.
  intros Hc.
  destruct (compute_returns _ _ _ _ _ _ Hc)
    as (self1 & p0 & p & best & self2 & po & Hprep & _ & _ & _ & Hkeep & Hpo & ->).
  destruct (prepare_arrays _ _ _ _ Hprep) as (_ & Hn & _ & Hzeros & _).
  destruct (keep_replicate_arrays _ _ _ _ Hkeep)
    as (Hsame & Hn2 & Hg2 & Hpt2 & Hpo2 & Hct & _).
  destruct (calculatePerParticleOrderParameter_get self2 orientations po)
    as (Hpolen & Hpoget); [|exact Hpo|].
  { rewrite Hn2, Hn, Hpo2, Hzeros, length_zeros. lia. }
  exists self1. split; [exact Hprep|].
  unfold same_parameters in *.
  cbn [with_particle_order_parameter m_t_initial m_t_final m_scale m_replicates
       m_seed m_gen_r4_tensor m_system_vectors m_sp_global_tensor
       m_sp_cubatic_tensor m_n m_global_tensor m_particle_tensor
       m_particle_order_parameter m_cubatic_tensor].
  split; [exact Hsame|]. split; [congruence|]. split; [exact Hg2|].
  split; [exact Hpt2|]. split.
  { rewrite Hpolen, Hpo2, Hzeros. apply length_zeros. }
  split; [exact Hct|].
  intros i Hi. rewrite Hpoget by (rewrite Hn2, Hn; exact Hi).
  reflexivity.
Qed.

End Arrays.

(** *** What [compute] leaves in the object *)

Lemma sample_cells_distinct (n : nat) : cells_distinct (env := sample_env) n.
Proof.
  intros i j i' j' Hi Hj Hi' Hj'. cbn [Index2D sample_env]. lia.
Qed.

Lemma sample_compute_returns :
  compute (env := sample_env) sample_fuel one_block
          sample_object sample_orientations 2 = Returns computed_one_block.
Proof. vm_compute. reflexivity. Qed.

Section Results.
Context {env : Environment}.

Lemma global_component_ext (self self' : CubaticOrderParameter)
    (orientations : list quat) (n j : nat) :
  m_gen_r4_tensor self' = m_gen_r4_tensor self ->
  m_system_vectors self' = m_system_vectors self ->
  global_component self' orientations n j = global_component self orientations n j.
Proof.
  intros Hr Hv. unfold global_component. rewrite Hr. f_equal. f_equal.
  apply sum_over_ext. intros p _. now apply particle_component_ext.
Qed.

(** X9.  A call of [compute] that returns leaves, for each of the [n]
    particles, the order parameter of the particle's own orientation
    against the global tensor of this call: [1 - |G - T|^2 / |T|^2] for
    the tensor [T] that [calcCubaticTensor] gives for that orientation.
    The array has [n] elements, and [orientations] has at least [n]. *)
Theorem compute_particle_order_parameters (fuel : nat)
    (schedule : list blocked_range) (self : CubaticOrderParameter)
    (orientations : list quat) (n : nat) (self' : CubaticOrderParameter) :
  compute fuel schedule self orientations n = Returns self' ->
  (n <= List.length orientations)%nat /\
  List.length (m_particle_order_parameter self') = n /\
  forall i, (i < n)%nat ->
    nth_error (m_particle_order_parameter self') i
    = Some (calcCubaticOrderParameter self'
              (calcCubaticTensor self' (orientation_of orientations i))).
Proof.
  intros Hc.
  destruct (compute_arrays _ _ _ _ _ _ Hc)
    as (self1 & Hprep & _ & _ & _ & _ & Hlen & _ & Hget).
  destruct (prepare_arrays _ _ _ _ Hprep) as (_ & _ & Ho & _).
  split; [exact Ho|]. split; [exact Hlen|]. exact Hget.
Qed.


(** X11.  A call of [compute] that returns leaves as global tensor the
    mean of the tensors of the [n] particles minus the reference tensor:
    component [j] is the sum, in particle order and from [+0.0], of
    component [j] of the particles' tensors, times [1.0 / (float) n],
    minus component [j] of the reference tensor.  [Index2D] is taken to
    give different components different places. *)
Theorem compute_global_tensor (fuel : nat)
    (schedule : list blocked_range) (self : CubaticOrderParameter)
    (orientations : list quat) (n : nat) (self' : CubaticOrderParameter) :
  cells_distinct n ->
  compute fuel schedule self orientations n = Returns self' ->
  forall j, (j < 81)%nat ->
    get (data (m_global_tensor self')) j = global_component self' orientations n j.
Proof.
  intros Hd Hc.
  destruct (compute_arrays _ _ _ _ _ _ Hc)
    as (self1 & Hprep & Hsame & _ & Hg & _).
  destruct (prepare_arrays _ _ _ _ Hprep) as (_ & _ & _ & _ & _ & _ & Hcells).
  destruct (Hcells Hd) as [_ Hglobal].
  destruct Hsame as (_ & _ & _ & _ & _ & Hr & Hv & _).
  intros j Hj. rewrite Hg, Hglobal by trivial.
  symmetry. now apply global_component_ext.
Qed.

(** X12.  A call of [compute] that returns keeps what the constructor set
    (the two temperatures, the scale, the number of replicates, the seed,
    the reference tensor and the system vectors) and sizes its outputs
    for [n] particles: [m_n] is [n], the per-particle arrays hold [81 n]
    and [n] floats, the global and the cubatic tensor 81 each. *)
Theorem compute_keeps_parameters (fuel : nat)
    (schedule : list blocked_range) (self : CubaticOrderParameter)
    (orientations : list quat) (n : nat) (self' : CubaticOrderParameter) :
  compute fuel schedule self orientations n = Returns self' ->
  same_parameters self self' /\
  m_n self' = n /\
  List.length (m_particle_tensor self') = (n * 81)%nat /\
  List.length (m_particle_order_parameter self') = n /\
  List.length (data (m_global_tensor self')) = 81%nat /\
  List.length (data (m_cubatic_tensor self')) = 81%nat.
Proof.
  intros Hc.
  destruct (compute_arrays _ _ _ _ _ _ Hc)
    as (self1 & Hprep & Hsame & Hn & Hg & Hpt & Hpo & Hct & _).
  destruct (prepare_arrays _ _ _ _ Hprep) as (Hsame1 & _ & _ & _ & Hlen & Hglen & _).
  split; [eapply same_parameters_trans; eauto|].
  split; [exact Hn|]. split; [now rewrite Hpt|]. split; [exact Hpo|].
  split; [now rewrite Hg | exact Hct].
Qed.

End Results.

Lemma compute_particle_order_parameters_witness :
  (2 <= List.length sample_orientations)%nat /\
  List.length (m_particle_order_parameter computed_one_block) = 2%nat /\
  forall i, (i < 2)%nat ->
    nth_error (m_particle_order_parameter computed_one_block) i
    = Some (calcCubaticOrderParameter computed_one_block
              (calcCubaticTensor (env := sample_env) computed_one_block
                                 (orientation_of sample_orientations i))).
Proof.
  exact (compute_particle_order_parameters (env := sample_env) sample_fuel one_block
           sample_object sample_orientations 2 computed_one_block
           sample_compute_returns).
Defined.


Lemma compute_global_tensor_witness :
  get (data (m_global_tensor computed_one_block)) 40
  = global_component (env := sample_env) computed_one_block sample_orientations 2 40.
Proof.
  apply (compute_global_tensor (env := sample_env) sample_fuel one_block
           sample_object sample_orientations 2 computed_one_block
           (sample_cells_distinct 2) sample_compute_returns).
  lia.
Defined.

Lemma compute_keeps_parameters_witness :
  same_parameters sample_object computed_one_block /\
  m_n computed_one_block = 2%nat /\
  List.length (m_particle_tensor computed_one_block) = (2 * 81)%nat /\
  List.length (m_particle_order_parameter computed_one_block) = 2%nat /\
  List.length (data (m_global_tensor computed_one_block)) = 81%nat /\
  List.length (data (m_cubatic_tensor computed_one_block)) = 81%nat.
Proof.
  exact (compute_keeps_parameters (env := sample_env) sample_fuel one_block
           sample_object sample_orientations 2 computed_one_block
           sample_compute_returns).
Defined.

(** *** The result is that of its orientation *)

Section Consistency.
Context {env : Environment}.
Variable self : CubaticOrderParameter.

Lemma anneal_init_consistent (saru : Saru) : consistent self (anneal_init self saru).
Proof.
  unfold anneal_init, consistent, order_parameter_of.
  destruct (calcRandomQuaternion saru (F64.to_f32 (F64.of_int 1))) as [q saru'].
  cbn [cubatic_tensor cubatic_orientation cubatic_order_parameter].
  split; reflexivity.
Qed.

Lemma accept_consistent (st st1 : anneal_state) :
  new_cubatic_tensor st1 = proposal_tensor self st ->
  current_orientation st1 = proposal_orientation st ->
  new_order_parameter st1 = proposal_order_parameter self st ->
  consistent self (accept self st1).
Proof.
  intros Ht Hq Ho. unfold consistent, order_parameter_of.
  cbn [accept cubatic_tensor cubatic_orientation cubatic_order_parameter].
  rewrite Ht, Hq, Ho. split; reflexivity.
Qed.

Lemma anneal_body_consistent (st : anneal_state) :
  consistent self st -> consistent self (anneal_body self st).
Proof.
  intros [Ht Ho]. rewrite anneal_body_cases.
  destruct (propose_fields self st)
    as (P1 & P2 & P3 & _ & _ & P6 & P7 & P8 & _).
  destruct (draw_test_value_fields (propose self st))
    as (_ & D1 & D2 & D3 & _ & _ & D6 & D7 & D8).
  destruct (gtb _ _).
  - now apply (accept_consistent st).
  - destruct (geb _ _).
    + apply (accept_consistent st); congruence.
    + unfold consistent. rewrite D1, D2, D3, P1, P2, P3. auto.
Qed.

Lemma run_replicate_consistent (fuel : nat) (saru : Saru) (st : anneal_state) :
  run_replicate fuel self saru = Returns st -> consistent self st.
Proof.
  unfold run_replicate. intros H.
  destruct (while_returns _ _ _ _ _ _ H) as (rounds & _ & -> & _).
  clear H. induction rounds as [|rounds IH].
  - apply anneal_init_consistent.
  - rewrite Nat.iter_succ. now apply anneal_body_consistent.
Qed.

Lemma replicates_from_consistent (fuel : nat) (count : nat) :
  forall saru states,
    replicates_from fuel self saru count = Returns states ->
    Forall (consistent self) states.
Proof.
  induction count as [|count IH]; intros saru states; cbn [replicates_from].
  - intros [= <-]. constructor.
  - intros H. bind_cases H. injection H as <-. constructor.
    + eapply run_replicate_consistent; eauto.
    + eapply IH; eauto.
Qed.

Lemma replicate_of_consistent (fuel : nat) (schedule : list blocked_range)
    (i : nat) (st : anneal_state) :
  replicate_of fuel self schedule i st -> consistent self st.
Proof.
  intros (r & states & _ & _ & Hs & Hx).
  apply replicates_from_consistent in Hs.
  rewrite Forall_forall in Hs. apply Hs. eapply nth_error_In; eauto.
Qed.

Lemma stores_kept (Q : anneal_state -> Prop) (w : list (nat * anneal_state)) :
  (forall i st, In (i, st) w -> Q st) ->
  forall p p',
    stores self w p = Returns p' ->
    forall i, In i (map fst w) \/ kept Q p i -> kept Q p' i.
Proof.
  unfold stores. induction w as [|[j st] w IH]; intros HQ p p'; cbn [for_each].
  - intros [= <-] i [[]|H]. exact H.
  - destruct (store_replicate self j st p) as [p1| | |] eqn:Hst; try discriminate.
    intros Hw i Hi. apply (IH (fun i st H => HQ i st (or_intror H)) p1 p' Hw).
    destruct (store_replicate_scalars self _ _ _ _ Hst) as (Hq & Ho & Hother).
    assert (Hj : kept Q p1 j).
    { exists st. split; [exact Hq|]. split; [exact Ho|]. apply (HQ j). now left. }
    destruct (Nat.eq_dec i j) as [->|Hne]; [now right|].
    destruct Hi as [[Hi|Hi]|(st' & H1 & H2 & H3)].
    + cbn [fst] in Hi. congruence.
    + now left.
    + right. exists st'. destruct (Hother i Hne) as [-> ->]. auto.
Qed.

End Consistency.

Section ResultConsistency.
Context {env : Environment}.

Lemma calcCubaticTensor_ext (self self' : CubaticOrderParameter) (q : quat) :
  m_gen_r4_tensor self' = m_gen_r4_tensor self ->
  m_system_vectors self' = m_system_vectors self ->
  calcCubaticTensor self' q = calcCubaticTensor self q.
Proof.
  intros Hr Hv. unfold calcCubaticTensor, system_vector. now rewrite Hr, Hv.
Qed.

(** The replicate whose order parameter and orientation [compute]
    keeps. *)
Lemma compute_kept (fuel : nat) (schedule : list blocked_range)
    (self : CubaticOrderParameter) (orientations : list quat) (n : nat)
    (self' : CubaticOrderParameter) :
  valid_schedule (m_replicates self) schedule ->
  compute fuel schedule self orientations n = Returns self' ->
  exists self1 st,
    prepare self orientations n = Returns self1 /\
    consistent self1 st /\
    m_cubatic_orientation self' = cubatic_orientation st /\
    m_cubatic_order_parameter self' = Some (cubatic_order_parameter st).
Proof.
  intros Hvalid Hc.
  destruct (compute_returns _ _ _ _ _ _ Hc)
    as (self1 & p0 & p & best & self2 & po & Hprep & Hp0 & Hp & Hsel & Hkeep & _ & ->).
  destruct (prepare_fields _ _ _ _ Hprep) as (HR & _).
  rewrite <- HR in Hvalid.
  destruct (valid_schedule_indices _ _ Hvalid) as [_ Hin].
  destruct (parallel_for_stores fuel self1 schedule _ _ Hp) as (w & Hw & Hfst & Hof).
  pose proof (stores_lengths self1 w _ _ Hw) as (Hlen & _).
  apply new_replicate_arrays_lengths in Hp0. rewrite <- Hlen in Hp0.
  destruct (select_max_returns _ _ _ Hp0 Hsel) as (y & Hbest & _).
  destruct (stores_kept self1 (consistent self1) w) with (p := p0) (p' := p) (i := best)
    as (st & Hq & Ho & Hst); trivial.
  { intros i st Hi. apply Hof in Hi. eapply replicate_of_consistent; eauto. }
  { left. rewrite Hfst. now apply Hin. }
  destruct (keep_replicate_arrays _ _ _ _ Hkeep)
    as (_ & _ & _ & _ & _ & _ & Hq2 & o & Ho2 & Hop).
  exists self1, st. split; [exact Hprep|]. split; [exact Hst|].
  cbn [with_particle_order_parameter m_cubatic_orientation m_cubatic_order_parameter].
  split; congruence.
Qed.

Lemma compute_order_parameter (fuel : nat) (schedule : list blocked_range)
    (self : CubaticOrderParameter) (orientations : list quat) (n : nat)
    (self' : CubaticOrderParameter) :
  valid_schedule (m_replicates self) schedule ->
  compute fuel schedule self orientations n = Returns self' ->
  m_cubatic_order_parameter self'
  = Some (order_parameter_of self' (m_cubatic_orientation self')).
Proof.
  intros Hvalid Hc.
  destruct (compute_kept _ _ _ _ _ _ Hvalid Hc) as (self1 & st & Hprep & [_ Hst] & Hq & Ho).
  destruct (compute_arrays _ _ _ _ _ _ Hc) as (self1' & Hprep' & Hsame & _ & Hg & _).
  assert (self1' = self1) as -> by congruence.
  destruct Hsame as (_ & _ & _ & _ & _ & Hr & Hv & _).
  rewrite Ho, Hq, Hst. f_equal. symmetry. now apply order_parameter_of_ext.
Qed.

(** X13.  What a call of [compute] that returns keeps is of one piece: the
    stored order parameter is the order parameter of the stored
    orientation against the global tensor of this call, whatever
    [Index2D] is; and when the rows that [Index2D] gives the replicates
    do not overlap, the stored cubatic tensor is the tensor of the stored
    orientation. *)
Theorem compute_result_consistent (fuel : nat) (schedule : list blocked_range)
    (self : CubaticOrderParameter) (orientations : list quat) (n : nat)
    (self' : CubaticOrderParameter) :
  valid_schedule (m_replicates self) schedule ->
  compute fuel schedule self orientations n = Returns self' ->
  m_cubatic_order_parameter self'
  = Some (calcCubaticOrderParameter self'
            (calcCubaticTensor self' (m_cubatic_orientation self'))) /\
  (rows_disjoint (m_replicates self) ->
   m_cubatic_tensor self' = calcCubaticTensor self' (m_cubatic_orientation self')).
Proof.
  intros Hvalid Hc. split; [exact (compute_order_parameter _ _ _ _ _ _ Hvalid Hc)|].
  intros Hrows.
  destruct (compute_arrays _ _ _ _ _ _ Hc) as (self1' & Hprep' & Hsame & _).
  destruct (compute_returns _ _ _ _ _ _ Hc)
    as (self1 & p0 & p & best & self2 & po & Hprep & Hp0 & Hp & Hsel & Hkeep & _ & ->).
  assert (self1' = self1) as -> by congruence.
  destruct (prepare_fields _ _ _ _ Hprep) as (HR & _).
  rewrite <- HR in Hvalid, Hrows.
  destruct (parallel_for_holds fuel self1 schedule p0 p Hvalid Hrows Hp)
    as ((Hlen & _) & Hholds & Hall).
  apply new_replicate_arrays_lengths in Hp0. rewrite <- Hlen in Hp0.
  destruct (select_max_returns _ _ _ Hp0 Hsel) as (y & Hbest & _).
  destruct (Hall best Hbest) as [st Hst].
  destruct (keep_replicate_holds self1 self2 p best st (Hholds _ _ Hst)
              (replicate_of_tensor_length _ _ _ _ _ Hst) Hkeep) as (Ht & Hq & _).
  destruct (replicate_of_consistent self1 _ _ _ _ Hst) as [Hct _].
  destruct Hsame as (_ & _ & _ & _ & _ & Hr & Hv & _).
  cbn [with_particle_order_parameter m_cubatic_tensor m_cubatic_orientation] in *.
  rewrite Ht, Hq, Hct. symmetry. now apply calcCubaticTensor_ext.
Qed.

(** *** No particle *)

Lemma sum_over_nan (n : nat) : sum_over (Datatypes.S n) (fun _ => nan) = nan.
Proof.
  unfold sum_over. cbn [seq fold_left].
  change (add zero nan) with nan.
  generalize (seq 1 n). intros l. induction l as [|x l IH]; [reflexivity|].
  cbn [fold_left]. change (add nan nan) with nan. exact IH.
Qed.

(** Against a global tensor of NaNs every order parameter is a NaN. *)
Lemma order_parameter_nan (self : CubaticOrderParameter) (T : tensor4) :
  (forall j, (j < 81)%nat -> get (data (m_global_tensor self)) j = nan) ->
  calcCubaticOrderParameter self T = nan.
Proof.
  intros Hg. rewrite calcCubaticOrderParameter_sums.
  rewrite (sum_over_ext 81 _ (fun _ => nan)).
  - rewrite sum_over_nan. reflexivity.
  - intros j Hj. rewrite Hg by exact Hj. reflexivity.
Qed.

(** X14.  For [n = 0] a call of [compute] that returns leaves a global
    tensor of NaNs ([1.0 / (float) 0] is an infinity, and the empty sum
    [+0.0] times it a NaN), and so a NaN as order parameter. *)
Theorem compute_no_particle (fuel : nat) (schedule : list blocked_range)
    (self : CubaticOrderParameter) (orientations : list quat)
    (self' : CubaticOrderParameter) :
  valid_schedule (m_replicates self) schedule ->
  compute fuel schedule self orientations 0 = Returns self' ->
  (forall j, (j < 81)%nat -> get (data (m_global_tensor self')) j = nan) /\
  m_cubatic_order_parameter self' = Some nan /\
  m_particle_order_parameter self' = [].
Proof.
  intros Hvalid Hc.
  destruct (compute_arrays _ _ _ _ _ _ Hc)
    as (self1 & Hprep & _ & _ & Hg & _ & Hpo & _).
  destruct (prepare_arrays _ _ _ _ Hprep) as (_ & _ & _ & _ & _ & _ & Hcells).
  destruct Hcells as [_ Hglobal].
  { intros i j i' j' Hi. lia. }
  assert (Hnan : forall j, (j < 81)%nat -> get (data (m_global_tensor self')) j = nan).
  { intros j Hj. rewrite Hg, Hglobal by exact Hj. reflexivity. }
  split; [exact Hnan|]. split.
  - rewrite (compute_order_parameter _ _ _ _ _ _ Hvalid Hc).
    unfold order_parameter_of. now rewrite order_parameter_nan.
  - now apply length_zero_iff_nil.
Qed.

(** *** No round *)

(** X15.  With [t_initial] equal to [t_final] the constructor succeeds (its
    first test is [t_initial < t_final]), and then no replicate anneals:
    the loop test [t_current > t_final] fails at once, and the replicate
    ends in the state of its first random orientation. *)
Theorem equal_temperatures_skip_annealing (t scale : float) (replicates : nat)
    (seed : Z) :
  F64.ltb (F64.of_f32 t) lit_1em6 = false ->
  gtb scale (of_int 1) || ltb scale (of_int 0) = false ->
  exists self,
    construct t t scale replicates seed = Returns self /\
    forall fuel saru, (0 < fuel)%nat ->
      run_replicate fuel self saru = Returns (anneal_init self saru).
Proof.
  intros Ht Hs. unfold construct.
  replace (ltb t t) with false by (symmetry; apply SFltb_irrefl).
  rewrite Ht, Hs. eexists. split; [reflexivity|].
  intros fuel saru Hfuel. destruct fuel as [|fuel]; [lia|].
  unfold run_replicate. cbn [while].
  replace (anneal_cond _ (anneal_init _ saru)) with false; [reflexivity|].
  unfold anneal_cond, anneal_init.
  destruct (calcRandomQuaternion saru (F64.to_f32 (F64.of_int 1))) as [q saru'].
  cbn [t_current m_t_initial m_t_final].
  replace (gtb t t) with false by (symmetry; apply SFltb_irrefl).
  reflexivity.
Qed.

End ResultConsistency.

Lemma sample_valid_for (self : CubaticOrderParameter) :
  m_replicates self = 2%nat -> valid_schedule (m_replicates self) one_block.
Proof. intros ->. exact sample_valid_one_block. Qed.

Lemma compute_result_consistent_witness :
  m_cubatic_order_parameter computed_one_block
  = Some (calcCubaticOrderParameter computed_one_block
            (calcCubaticTensor (env := sample_env) computed_one_block
                               (m_cubatic_orientation computed_one_block))) /\
  (rows_disjoint (env := sample_env) (m_replicates sample_object) ->
   m_cubatic_tensor computed_one_block
   = calcCubaticTensor (env := sample_env) computed_one_block
                       (m_cubatic_orientation computed_one_block)).
Proof.
  exact (compute_result_consistent (env := sample_env) sample_fuel one_block
           sample_object sample_orientations 2 computed_one_block
           (sample_valid_for sample_object eq_refl) sample_compute_returns).
Defined.

Lemma compute_no_particle_witness :
  (forall j, (j < 81)%nat -> get (data (m_global_tensor computed_no_particle)) j = nan) /\
  m_cubatic_order_parameter computed_no_particle = Some nan /\
  m_particle_order_parameter computed_no_particle = [].
Proof.
  apply (compute_no_particle (env := sample_env) sample_fuel one_block
           equal_temperatures_object [] computed_no_particle
           (sample_valid_for equal_temperatures_object eq_refl)).
  vm_compute. reflexivity.
Defined.

Lemma equal_temperatures_skip_annealing_witness :
  exists self,
    construct (env := sample_env) (of_int 1) (of_int 1) (div (of_int 1) (of_int 4)) 2 42
    = Returns self /\
    forall fuel saru, (0 < fuel)%nat ->
      run_replicate (env := sample_env) fuel self saru
      = Returns (anneal_init (env := sample_env) self saru).
Proof.
  apply (equal_temperatures_skip_annealing (env := sample_env)
           (of_int 1) (div (of_int 1) (of_int 4)) 2 42).
  - vm_compute. reflexivity.
  - vm_compute. reflexivity.
Defined.

(** *** What [compute] reads, and when it is undefined *)

Lemma for_each_ext (I St : Type) (body body' : I -> St -> outcome St) (l : list I) :
  (forall i s, In i l -> body i s = body' i s) ->
  forall s, for_each l body s = for_each l body' s.
Proof.
  induction l as [|i l IH]; intros Hext s; cbn [for_each]; [reflexivity|].
  rewrite <- (Hext i s) by now left.
  destruct (body i s); trivial. apply IH. intros j t Hj. apply Hext. now right.
Qed.

Lemma for_each_defined (I St : Type) (body : I -> St -> outcome St) (l : list I) :
  (forall i s, body i s = Undefined \/ exists s', body i s = Returns s') ->
  forall s, for_each l body s = Undefined \/ exists r, for_each l body s = Returns r.
Proof.
  intros Hbody. induction l as [|i l IH]; intros s; cbn [for_each]; [eauto|].
  destruct (Hbody i s) as [-> | [s' ->]]; [now left | apply IH].
Qed.

Lemma for_each_undefined (I St : Type) (body : I -> St -> outcome St) (l : list I)
    (i0 : I) :
  (forall i s, body i s = Undefined \/ exists s', body i s = Returns s') ->
  In i0 l -> (forall s, body i0 s = Undefined) ->
  forall s, for_each l body s = Undefined.
Proof.
  intros Hbody Hin Hi0. induction l as [|i l IH]; intros s; [destruct Hin|].
  cbn [for_each]. destruct (Hbody i s) as [-> | [s' Hs']]; [reflexivity|].
  rewrite Hs'. destruct Hin as [->|Hin]; [|now apply IH].
  rewrite Hi0 in Hs'. discriminate.
Qed.

Lemma read_defined (A : Type) (p : list A) (i : nat) :
  read p i = Undefined \/ exists x, read p i = Returns x.
Proof. unfold read. destruct (nth_error p i); eauto. Qed.

Lemma write_defined (A : Type) (p : list A) (i : nat) (x : A) :
  write p i x = Undefined \/ exists p', write p i x = Returns p'.
Proof. unfold write. destruct (_ <? _)%nat; eauto. Qed.

Lemma read_firstn (A : Type) (n : nat) (p : list A) (i : nat) :
  (i < n)%nat -> read (firstn n p) i = read p i.
Proof.
  intros Hi. unfold read. rewrite nth_error_firstn.
  apply Nat.ltb_lt in Hi. now rewrite Hi.
Qed.

Section Reads.
Context {env : Environment}.

Lemma particle_step_defined (self : CubaticOrderParameter)
    (orientations : list quat) (i : nat) (s : list float) :
  let r :=
    bind (read orientations i) (fun q =>
      let l_mbar :=
        for_range 3 (fun j l_mbar =>
          let v_r := rotate q (system_vector self j) in
          let r4_tensor := tensor4_of_vec3 v_r in
          tensor4_add l_mbar r4_tensor)
          tensor4_zero in
      let l_mbar := tensor4_scale_assign l_mbar (of_int 2) in
      for_each (seq 0 81)
        (fun j particle_tensor =>
           write particle_tensor (Index2D (m_n self) 81 i j) (get (data l_mbar) j))
        s) in
  r = Undefined \/ exists s', r = Returns s'.
Proof.
  cbv zeta. destruct (read orientations i) as [q| | |] eqn:Hq; cbn [bind].
  - apply for_each_defined. intros j t. apply write_defined.
  - destruct (read_defined _ orientations i) as [H|[x H]]; congruence.
  - now left.
  - destruct (read_defined _ orientations i) as [H|[x H]]; congruence.
Qed.

Lemma calculatePerParticleTensor_defined (self : CubaticOrderParameter)
    (orientations : list quat) :
  calculatePerParticleTensor self orientations = Undefined \/
  exists pt, calculatePerParticleTensor self orientations = Returns pt.
Proof.
  unfold calculatePerParticleTensor. apply for_each_defined.
  intros i s. apply particle_step_defined.
Qed.

Lemma calculatePerParticleTensor_short (self : CubaticOrderParameter)
    (orientations : list quat) :
  (List.length orientations < m_n self)%nat ->
  calculatePerParticleTensor self orientations = Undefined.
Proof.
  intros Hlen. unfold calculatePerParticleTensor.
  apply (for_each_undefined _ _ _ _ (List.length orientations)).
  - intros i s. apply particle_step_defined.
  - apply in_seq. lia.
  - intros s. unfold read.
    replace (nth_error orientations (List.length orientations)) with (@None quat).
    + reflexivity.
    + symmetry. apply nth_error_None. lia.
Qed.

Lemma calculatePerParticleTensor_firstn (self : CubaticOrderParameter)
    (orientations : list quat) :
  calculatePerParticleTensor self (firstn (m_n self) orientations)
  = calculatePerParticleTensor self orientations.
Proof.
  unfold calculatePerParticleTensor. apply for_each_ext.
  intros i s Hi. apply in_seq in Hi. rewrite read_firstn by lia. reflexivity.
Qed.

Lemma calculatePerParticleOrderParameter_firstn (self : CubaticOrderParameter)
    (orientations : list quat) :
  calculatePerParticleOrderParameter self (firstn (m_n self) orientations)
  = calculatePerParticleOrderParameter self orientations.
Proof.
  unfold calculatePerParticleOrderParameter. apply for_each_ext.
  intros i s Hi. apply in_seq in Hi. rewrite read_firstn by lia. reflexivity.
Qed.

Lemma reset_defined (self : CubaticOrderParameter) (n : nat) :
  reset self n = Undefined \/ exists self0, reset self n = Returns self0.
Proof. unfold reset. destruct (_ <? _)%Z; eauto. Qed.

(** X16.  [compute] needs an orientation for each of the [n] particles:
    with fewer, it reads past the end of [orientations], which is
    undefined. *)
Theorem compute_needs_orientations (fuel : nat) (schedule : list blocked_range)
    (self : CubaticOrderParameter) (orientations : list quat) (n : nat) :
  (List.length orientations < n)%nat ->
  compute fuel schedule self orientations n = Undefined.
Proof.
  intros Hlen. unfold compute.
  destruct (reset_defined self n) as [-> | [self0 H0]]; [reflexivity|].
  rewrite H0. cbn [bind].
  destruct (reset_arrays _ _ _ H0) as (Hn & _).
  rewrite calculatePerParticleTensor_short by (rewrite Hn; exact Hlen).
  reflexivity.
Qed.

(** X17.  [compute] reads the first [n] orientations and no other: the
    call on the whole array and the call on its first [n] elements give
    the same result. *)
Theorem compute_reads_n_orientations (fuel : nat) (schedule : list blocked_range)
    (self : CubaticOrderParameter) (orientations : list quat) (n : nat) :
  compute fuel schedule self (firstn n orientations) n
  = compute fuel schedule self orientations n.
Proof.
  unfold compute.
  destruct (reset self n) as [self0| | |] eqn:H0; cbn [bind]; trivial.
  destruct (reset_arrays _ _ _ H0) as (Hn & _).
  rewrite <- Hn at 1. rewrite calculatePerParticleTensor_firstn.
  destruct (calculatePerParticleTensor self0 orientations) as [pt| | |];
    cbn [bind]; trivial.
  destruct (calculateGlobalTensor _) as [g| | |]; cbn [bind]; trivial.
  destruct (new_replicate_arrays _) as [p0| | |]; cbn [bind]; trivial.
  destruct (parallel_for_replicates _ _ _ _) as [p| | |]; cbn [bind]; trivial.
  destruct (select_max _ _) as [best| | |]; cbn [bind]; trivial.
  destruct (keep_replicate _ _ _) as [self2| | |] eqn:Hk; cbn [bind]; trivial.
  destruct (keep_replicate_arrays _ _ _ _ Hk) as (_ & Hn2 & _).
  cbn [with_global_tensor with_particle_tensor m_n] in Hn2.
  rewrite <- Hn, <- Hn2. rewrite calculatePerParticleOrderParameter_firstn.
  reflexivity.
Qed.

Lemma parallel_for_empty (fuel : nat) (self : CubaticOrderParameter)
    (schedule : list blocked_range) (p : replicate_arrays) :
  flat_map indices schedule = [] ->
  parallel_for_replicates fuel self schedule p = Returns p.
Proof.
  unfold parallel_for_replicates.
  induction schedule as [|r schedule IH]; cbn [flat_map for_each]; [reflexivity|].
  intros H. apply app_eq_nil in H. destruct H as [Hr Hs].
  unfold replicate_block at 1. unfold indices in Hr. rewrite Hr.
  cbn [for_each bind snd]. now apply IH.
Qed.

Lemma bind_defined (A B : Type) (m : outcome A) (k : A -> outcome B) :
  (m = Undefined \/ exists x, m = Returns x) ->
  (forall x, k x = Undefined \/ exists y, k x = Returns y) ->
  bind m k = Undefined \/ exists y, bind m k = Returns y.
Proof.
  intros [-> | [x ->]] Hk; cbn [bind]; [now left | apply Hk].
Qed.

Lemma calculateGlobalTensor_defined (self : CubaticOrderParameter) :
  calculateGlobalTensor self = Undefined \/
  exists g, calculateGlobalTensor self = Returns g.
Proof.
  unfold calculateGlobalTensor. cbv zeta.
  apply bind_defined; [|intros; eauto].
  apply for_each_defined. intros i g.
  apply bind_defined; [|intros; eauto].
  apply for_each_defined. intros j tv.
  apply bind_defined; [apply read_defined | intros; eauto].
Qed.

(** X18.  An object built for no replicate cannot be used: the
    constructor accepts [replicates = 0], and every call of [compute] is
    then undefined, since line 389 reads the first element of an empty
    array (or an earlier access was already out of bounds). *)
Theorem compute_no_replicate_undefined (fuel : nat) (schedule : list blocked_range)
    (self : CubaticOrderParameter) (orientations : list quat) (n : nat) :
  m_replicates self = 0%nat ->
  valid_schedule 0 schedule ->
  compute fuel schedule self orientations n = Undefined.
Proof.
  intros HR Hvalid. unfold compute.
  destruct (reset_defined self n) as [-> | [self0 H0]]; [reflexivity|].
  rewrite H0. cbn [bind].
  destruct (reset_arrays _ _ _ H0) as (_ & _ & _ & _ & Hsame).
  destruct Hsame as (_ & _ & _ & HR0 & _). rewrite HR in HR0.
  destruct (calculatePerParticleTensor_defined self0 orientations) as [-> | [pt ->]];
    [reflexivity|]. cbn [bind].
  destruct (calculateGlobalTensor_defined (with_particle_tensor self0 pt))
    as [-> | [g ->]]; [reflexivity|]. cbn [bind].
  unfold new_replicate_arrays.
  cbn [with_global_tensor with_particle_tensor m_replicates]. rewrite HR0.
  change (Z.of_nat 0 * 81 <? 2 ^ 32)%Z with true. cbn [bind repeat zeros Nat.mul].
  rewrite parallel_for_empty.
  - reflexivity.
  - apply Permutation_nil, Permutation_sym. exact Hvalid.
Qed.

(** Two objects with the same parameters give the same result. *)
Lemma compute_same_parameters (fuel : nat) (schedule : list blocked_range)
    (self1 self2 : CubaticOrderParameter) (orientations : list quat) (n : nat) :
  same_parameters self1 self2 ->
  compute fuel schedule self1 orientations n
  = compute fuel schedule self2 orientations n.
Proof.
  destruct self1, self2. unfold same_parameters.
  cbn [m_t_initial m_t_final m_scale m_replicates m_seed m_gen_r4_tensor
       m_system_vectors m_sp_global_tensor m_sp_cubatic_tensor].
  intros (-> & -> & -> & -> & -> & -> & -> & -> & ->).
  unfold compute, reset.
  destruct (Z.of_nat n * 81 <? 2 ^ 32)%Z; [|reflexivity].
  cbn [bind]. reflexivity.
Qed.

End Reads.

Section History.
Context {env : Environment}.

(** X19.  A call of [compute] owes nothing to the calls before it: on the
    object that an earlier call has left, it gives the result it gives
    on the object as it was before that call. *)
Theorem compute_forgets_earlier_calls (fuel1 fuel2 : nat)
    (schedule1 schedule2 : list blocked_range) (self self' : CubaticOrderParameter)
    (orientations1 orientations2 : list quat) (n1 n2 : nat) :
  compute fuel1 schedule1 self orientations1 n1 = Returns self' ->
  compute fuel2 schedule2 self' orientations2 n2
  = compute fuel2 schedule2 self orientations2 n2.
Proof.
  intros Hc.
  destruct (compute_arrays _ _ _ _ _ _ Hc) as (self1 & Hprep & Hsame & _).
  destruct (prepare_arrays _ _ _ _ Hprep) as (Hsame1 & _).
  symmetry. apply compute_same_parameters.
  eapply same_parameters_trans; eauto.
Qed.

Lemma delta_sym (i j : nat) : delta i j = delta j i.
Proof. unfold delta. now rewrite Nat.eqb_sym. Qed.

Lemma reference_sym (i j k l : nat) : reference i j k l = reference j i k l.
Proof.
  unfold reference.
  replace (delta j i * delta k l + delta j k * delta i l + delta j l * delta i k)%Z
    with (delta i j * delta k l + delta i k * delta j l + delta i l * delta j k)%Z;
    [reflexivity|].
  rewrite (delta_sym j i). ring.
Qed.

Lemma outer4_sym (v : vec3) (i j k l : nat) : outer4 v i j k l = outer4 v j i k l.
Proof. unfold outer4. now rewrite (mul_comm (component v i)). Qed.

(** X20.  The tensor that [calcCubaticTensor] computes is symmetric in its
    first two indices, bit for bit: components [(i, j, k, l)] and
    [(j, i, k, l)] are the same float. *)
Theorem cubatic_tensor_symmetric (self : CubaticOrderParameter) (q : quat)
    (i j k l : nat) :
  reachable self ->
  (i < 3)%nat -> (j < 3)%nat -> (k < 3)%nat -> (l < 3)%nat ->
  get (data (calcCubaticTensor self q)) (flat i j k l)
  = get (data (calcCubaticTensor self q)) (flat j i k l).
Proof.
  intros Hself Hi Hj Hk Hl. destruct (reachable_fields _ Hself) as [Hr Hv].
  assert (Hlen : List.length (data (m_gen_r4_tensor self)) = 81%nat).
  { rewrite Hr. reflexivity. }
  rewrite !calcCubaticTensor_get by (trivial; now apply flat_lt).
  rewrite Hr, !genR4Tensor_get by trivial.
  rewrite (reference_sym i j k l).
  rewrite (sum_over_ext 3
             (fun a => get (data (tensor4_of_vec3 (rotate q (system_vector self a))))
                           (flat i j k l))
             (fun a => get (data (tensor4_of_vec3 (rotate q (system_vector self a))))
                           (flat j i k l))).
  - reflexivity.
  - intros a _. rewrite !tensor4_of_vec3_get by trivial. apply outer4_sym.
Qed.

End History.

Lemma compute_needs_orientations_witness :
  compute (env := sample_env) sample_fuel one_block sample_object [] 2 = Undefined.
Proof.
  apply (compute_needs_orientations (env := sample_env) sample_fuel one_block
           sample_object [] 2).
  simpl. lia.
Defined.

Lemma compute_no_replicate_undefined_witness :
  compute (env := sample_env) sample_fuel [] no_replicate_object
          sample_orientations 2 = Undefined.
Proof.
  apply (compute_no_replicate_undefined (env := sample_env) sample_fuel []
           no_replicate_object sample_orientations 2).
  - reflexivity.
  - apply Permutation_refl.
Defined.

Lemma compute_forgets_earlier_calls_witness :
  compute (env := sample_env) sample_fuel two_blocks computed_one_block
          sample_orientations 2
  = compute (env := sample_env) sample_fuel two_blocks sample_object
            sample_orientations 2.
Proof.
  exact (compute_forgets_earlier_calls (env := sample_env) sample_fuel sample_fuel
           one_block two_blocks sample_object computed_one_block
           sample_orientations sample_orientations 2 2 sample_compute_returns).
Defined.

Lemma cubatic_tensor_symmetric_witness :
  get (data (calcCubaticTensor (env := sample_env) sample_object
               (mkquat (div (of_int 4) (of_int 5))
                       (mkvec3 (div (of_int 3) (of_int 5)) zero zero))))
      (flat 0 1 2 1)
  = get (data (calcCubaticTensor (env := sample_env) sample_object
                 (mkquat (div (of_int 4) (of_int 5))
                         (mkvec3 (div (of_int 3) (of_int 5)) zero zero))))
        (flat 1 0 2 1).
Proof.
  apply (cubatic_tensor_symmetric (env := sample_env) sample_object
           (mkquat (div (of_int 4) (of_int 5))
                   (mkvec3 (div (of_int 3) (of_int 5)) zero zero)) 0 1 2 1
           sample_object_reachable); lia.
Defined.


(** *** NaNs in the selection *)

Lemma gtb_nan_left (m : float) : gtb nan m = false.
Proof. destruct m; reflexivity. Qed.

Lemma gtb_nan_right (x : float) : gtb x nan = false.
Proof. reflexivity. Qed.

(** X22.  The selection of lines 387-397 and NaNs: a replicate other than
    the first is never kept with a NaN as order parameter, and when the
    order parameter of the first replicate is a NaN, the first replicate
    is kept, whatever the others found. *)
Theorem select_max_nan (replicates : nat) (ops : list float) (best : nat) :
  select_max replicates ops = Returns best ->
  (nth_error ops 0 = Some nan -> best = 0%nat) /\
  (best <> 0%nat -> nth_error ops best <> Some nan).
Proof.
  unfold select_max.
  destruct (read ops 0) as [m0| | |] eqn:H0; cbn [bind]; try discriminate.
  apply read_returns in H0.
  destruct (for_each (seq 1 (replicates - 1)) _ (0%nat, m0)) as [[idx m]| | |] eqn:Hloop;
    cbn [bind]; try discriminate.
  intros [= <-]. cbn [fst].
  pose (P := fun (k : nat) (s : nat * float) =>
     nth_error ops (fst s) = Some (snd s) /\
     (m0 = nan -> fst s = 0%nat) /\
     (fst s <> 0%nat -> snd s <> nan)).
  assert (HP : P (1 + (replicates - 1))%nat (idx, m)).
  { apply (for_each_seq_inv _ P _ (replicates - 1) 1) with (s := (0%nat, m0)) (3 := Hloop).
    - unfold P. intros i [idx' m'] s' Hi (Hm & Hfirst & Hother).
      cbn [fst snd] in *.
      destruct (read ops i) as [x| | |] eqn:Hx; cbn [bind]; try discriminate.
      apply read_returns in Hx.
      destruct (gtb x m') eqn:Hgt; intros [= <-]; cbn [fst snd].
      + split; [exact Hx|]. split.
        * intros Hnan. specialize (Hfirst Hnan). subst idx'.
          rewrite H0 in Hm. injection Hm as <-. subst m0.
          rewrite gtb_nan_right in Hgt. discriminate.
        * intros _ ->. rewrite gtb_nan_left in Hgt. discriminate.
      + auto.
    - unfold P. cbn [fst snd]. split; [exact H0|]. split; [reflexivity|].
      intros H. now elim H. }
  destruct HP as (Hm & Hfirst & Hother). cbn [fst snd] in *. split.
  - intros Hnan. apply Hfirst. congruence.
  - intros Hne Hbest. apply (Hother Hne). congruence.
Qed.

Lemma select_max_nan_witness :
  (nth_error [nan; of_int 1] 0 = Some nan -> 0%nat = 0%nat) /\
  (0%nat <> 0%nat -> nth_error [nan; of_int 1] 0 <> Some nan).
Proof.
  apply (select_max_nan 2 [nan; of_int 1] 0).
  vm_compute. reflexivity.
Defined.


(** *** The replicate that [compute] keeps *)

Section Compute.
Context {env : Environment}.

(** X23.  After a call of [compute] that returns, with the replicate range
    cut into blocks, the stored orientation and order parameter are those
    in which one replicate [best] ended; no replicate ended with an order
    parameter above that of [best], and none with a lower index ended
    with one at or above it (so with order parameters that are numbers,
    [best] is the first replicate of maximal order parameter).  This
    holds whatever [Index2D] is; when the rows that [Index2D] gives the
    replicates do not overlap, the stored cubatic tensor is the one in
    which [best] ended. *)
Theorem compute_keeps_best (fuel : nat) (schedule : list blocked_range)
    (self : CubaticOrderParameter) (orientations : list quat) (n : nat)
    (self' : CubaticOrderParameter) :
  valid_schedule (m_replicates self) schedule ->
  compute fuel schedule self orientations n = Returns self' ->
  exists self1 best st,
    prepare self orientations n = Returns self1 /\
    (best < m_replicates self)%nat /\
    replicate_of fuel self1 schedule best st /\
    m_cubatic_orientation self' = cubatic_orientation st /\
    m_cubatic_order_parameter self' = Some (cubatic_order_parameter st) /\
    (rows_disjoint (m_replicates self) ->
     m_cubatic_tensor self' = cubatic_tensor st) /\
    (forall j stj, replicate_of fuel self1 schedule j stj ->
       gtb (cubatic_order_parameter stj) (cubatic_order_parameter st) = false /\
       ((j < best)%nat ->
        geb (cubatic_order_parameter stj) (cubatic_order_parameter st) = false)) /\
    ((forall j stj, replicate_of fuel self1 schedule j stj ->
        is_number (cubatic_order_parameter stj)) ->
     forall j stj, replicate_of fuel self1 schedule j stj ->
       leb (cubatic_order_parameter stj) (cubatic_order_parameter st) = true).
Proof.
  intros Hvalid Hc.
  destruct (compute_returns _ _ _ _ _ _ Hc)
    as (self1 & p0 & p & best & self2 & po & Hprep & Hp0 & Hp & Hsel & Hkeep & _ & ->).
  destruct (prepare_fields _ _ _ _ Hprep) as (HR & _).
  rewrite <- HR in Hvalid.
  destruct (parallel_for_holds_scalars self1 fuel schedule p0 p Hvalid Hp)
    as ((Hlen & _) & Hholds & Hall).
  apply new_replicate_arrays_lengths in Hp0. rewrite <- Hlen in Hp0.
  destruct (select_max_returns _ _ _ Hp0 Hsel) as (y & Hbest & Hy & Hmax).
  destruct (Hall best Hbest) as [st Hst].
  destruct (Hholds _ _ Hst) as [Hop Hq].
  destruct (keep_replicate_arrays _ _ _ _ Hkeep)
    as (_ & _ & _ & _ & _ & _ & Hq2 & o & Ho2 & Hop2).
  assert (Hy' : y = cubatic_order_parameter st) by congruence.
  subst y.
  assert (Hrel : forall j stj, replicate_of fuel self1 schedule j stj ->
       gtb (cubatic_order_parameter stj) (cubatic_order_parameter st) = false /\
       ((j < best)%nat ->
        geb (cubatic_order_parameter stj) (cubatic_order_parameter st) = false)).
  { intros j stj Hj. destruct (Hholds _ _ Hj) as (Hopj & _). now apply (Hmax j). }
  exists self1, best, st. rewrite <- HR.
  cbn [with_particle_order_parameter m_cubatic_tensor m_cubatic_orientation
       m_cubatic_order_parameter].
  split; [exact Hprep|]. split; [exact Hbest|]. split; [exact Hst|].
  split; [congruence|]. split; [congruence|]. split; [|split; [exact Hrel|]].
  - intros Hrows.
    destruct (parallel_for_holds fuel self1 schedule p0 p Hvalid Hrows Hp)
      as (_ & Hholds3 & _).
    now destruct (keep_replicate_holds self1 self2 p best st (Hholds3 _ _ Hst)
                    (replicate_of_tensor_length _ _ _ _ _ Hst) Hkeep) as (Ht & _).
  - intros Hnum j stj Hj. apply SFleb_le.
    destruct (le_or_lt _ _ (Hnum _ _ Hj) (Hnum _ _ Hst)) as [H|H]; trivial.
    apply SFltb_lt in H. destruct (Hrel _ _ Hj) as [Hgt _].
    unfold gtb in Hgt. congruence.
Qed.





End Compute.

(** C7, on the code.  [Index2D] is defined in [Index1D.h], which the file
    includes: it maps [(i, j)] to [j * w + i], so [a_i(i, 0)] is [i] and
    the rows of 81 floats that lines 379-380 copy for two replicates
    overlap.  In the sample run with that [Index2D], two replicates and
    seed 1, the tensor that [compute] stores (line 401) is the tensor of
    neither replicate: its second component differs from the second
    component of each.  Its first component is that of the tensor of
    replicate 0, and the 80 that follow are the first 80 components of
    the tensor of replicate 1. *)
Theorem overlapping_rows_mix_tensors :
  ~ rows_disjoint (env := column_major_env) 2 /\
  compute (env := column_major_env) sample_fuel one_block
          column_major_object sample_orientations 2
  = Returns column_major_computed /\
  prepare (env := column_major_env) column_major_object sample_orientations 2
  = Returns column_major_prepared /\
  replicate_tensors (env := column_major_env) sample_fuel column_major_prepared
                    (mkRange 0 2)
  = Returns column_major_tensors /\
  Forall (fun t => get (data (m_cubatic_tensor column_major_computed)) 1
                   <> get (data t) 1)
         column_major_tensors /\
  exists t0 t1,
    column_major_tensors = [t0; t1] /\
    firstn 1 (data (m_cubatic_tensor column_major_computed)) = firstn 1 (data t0) /\
    skipn 1 (data (m_cubatic_tensor column_major_computed)) = firstn 80 (data t1).
Proof.
  split; [|split; [|split; [|split; [|split]]]].
  - intros H. specialize (H 0%nat 1%nat). cbn [Index2D column_major_env] in H. lia.
  - vm_compute. reflexivity.
  - vm_compute. reflexivity.
  - vm_compute. reflexivity.
  - repeat constructor; intros H; vm_compute in H; discriminate.
  - eexists. eexists. split; [reflexivity|]. split; vm_compute; reflexivity.
Qed.


Lemma compute_keeps_best_witness :
  exists self1 best st,
    prepare (env := sample_env) sample_object sample_orientations 2 = Returns self1 /\
    (best < m_replicates sample_object)%nat /\
    replicate_of (env := sample_env) sample_fuel self1 one_block best st /\
    m_cubatic_orientation computed_one_block = cubatic_orientation st /\
    m_cubatic_order_parameter computed_one_block
    = Some (cubatic_order_parameter st) /\
    (rows_disjoint (env := sample_env) (m_replicates sample_object) ->
     m_cubatic_tensor computed_one_block = cubatic_tensor st) /\
    (forall j stj,
       replicate_of (env := sample_env) sample_fuel self1 one_block j stj ->
       gtb (cubatic_order_parameter stj) (cubatic_order_parameter st) = false /\
       ((j < best)%nat ->
        geb (cubatic_order_parameter stj) (cubatic_order_parameter st) = false)) /\
    ((forall j stj,
        replicate_of (env := sample_env) sample_fuel self1 one_block j stj ->
        is_number (cubatic_order_parameter stj)) ->
     forall j stj,
       replicate_of (env := sample_env) sample_fuel self1 one_block j stj ->
       leb (cubatic_order_parameter stj) (cubatic_order_parameter st) = true).
Proof.
  apply (compute_keeps_best (env := sample_env) sample_fuel one_block
           sample_object sample_orientations 2 computed_one_block).
  - exact sample_valid_one_block.
  - vm_compute. reflexivity.
Defined.


(** *** Rows that share cells *)

Section SharedCells.
Context {env : Environment}.

(** The cells of the tensor array after the store of a replicate. *)
Lemma store_replicate_cells (self : CubaticOrderParameter) (i : nat)
    (st : anneal_state) (p p' : replicate_arrays) :
  store_replicate self i st p = Returns p' ->
  (forall k, (k < 81)%nat ->
     get (p_cubatic_tensor p') (Index2D (m_replicates self) 81 i 0 + k)
     = get (data (cubatic_tensor st)) k) /\
  (forall j, (j < Index2D (m_replicates self) 81 i 0
              \/ Index2D (m_replicates self) 81 i 0 + 81 <= j)%nat ->
     get (p_cubatic_tensor p') j = get (p_cubatic_tensor p) j).
Proof.
  unfold store_replicate. intros H. bind_cases H. injection H as <-.
  match goal with
  | Ht : memcpy_to _ _ _ _ = Returns _ |- _ =>
      apply memcpy_to_returns in Ht; destruct Ht as (_ & _ & Htk & Htj)
  end.
  cbn [p_cubatic_tensor]. split; assumption.
Qed.

Lemma get_map_seq (f : nat -> float) (n k : nat) :
  (k < n)%nat -> get (map f (seq 0 n)) k = f k.
Proof.
  intros Hk. unfold get. apply nth_error_nth.
  rewrite nth_error_map, nth_error_seq.
  destruct (Nat.ltb_spec k n); [reflexivity|lia].
Qed.

(** The tensor that [keep_replicate] copies to the member. *)
Lemma keep_replicate_cells (self self2 : CubaticOrderParameter)
    (p : replicate_arrays) (best : nat) :
  keep_replicate self p best = Returns self2 ->
  forall k, (k < 81)%nat ->
    get (data (m_cubatic_tensor self2)) k
    = get (p_cubatic_tensor p) (Index2D (m_replicates self) 81 best 0 + k).
Proof.
  unfold keep_replicate, memcpy_from.
  destruct (_ <=? _)%nat; [|discriminate]. cbn [bind].
  destruct (read (p_cubatic_orientation p) best) as [q| | |]; cbn [bind];
    try discriminate.
  destruct (read (p_cubatic_order_parameter p) best) as [o| | |]; cbn [bind];
    try discriminate.
  remember (map (fun k => get (p_cubatic_tensor p)
                     (Index2D (m_replicates self) 81 best 0 + k)) (seq 0 81))
    as row eqn:Hrow.
  intros H k Hk. injection H as <-. cbn [m_cubatic_tensor data].
  rewrite Hrow.
  exact (get_map_seq (fun k => get (p_cubatic_tensor p)
           (Index2D (m_replicates self) 81 best 0 + k)) 81 k Hk).
Qed.

(** The index that [select_max] returns for two replicates. *)
Lemma select_max_two (ops : list float) (x0 x1 : float) :
  nth_error ops 0 = Some x0 -> nth_error ops 1 = Some x1 ->
  select_max 2 ops = Returns (if gtb x1 x0 then 1%nat else 0%nat).
Proof.
  intros H0 H1. unfold select_max, read. rewrite H0. cbn [bind Nat.sub seq for_each].
  rewrite H1. cbn [bind]. now destruct (gtb x1 x0).
Qed.

(** X24.  With the [Index2D] of [Index1D.h], which maps [(i, j)] to
    [j * w + i], and two replicates run one after the other, the row of
    replicate 0 begins at cell 0 and that of replicate 1 at cell 1, so the
    store of replicate 1 overwrites cells 1 to 80 of the row of replicate
    0.  When replicate 1 ended with the higher order parameter, [compute]
    stores its orientation and its tensor; otherwise it stores the
    orientation of replicate 0, and of the stored tensor only component 0
    is that of replicate 0: component [k + 1] is component [k] of the
    tensor of replicate 1. *)
Theorem two_replicates_share_cells (fuel : nat) (self : CubaticOrderParameter)
    (orientations : list quat) (n : nat) (self' : CubaticOrderParameter) :
  (forall w h i j, Index2D w h i j = (j * w + i)%nat) ->
  m_replicates self = 2%nat ->
  compute fuel [mkRange 0 2] self orientations n = Returns self' ->
  exists self1 st0 st1,
    prepare self orientations n = Returns self1 /\
    replicate_of fuel self1 [mkRange 0 2] 0 st0 /\
    replicate_of fuel self1 [mkRange 0 2] 1 st1 /\
    if gtb (cubatic_order_parameter st1) (cubatic_order_parameter st0)
    then m_cubatic_orientation self' = cubatic_orientation st1 /\
         m_cubatic_tensor self' = cubatic_tensor st1
    else m_cubatic_orientation self' = cubatic_orientation st0 /\
         get (data (m_cubatic_tensor self')) 0 = get (data (cubatic_tensor st0)) 0 /\
         forall k, (k < 80)%nat ->
           get (data (m_cubatic_tensor self')) (S k)
           = get (data (cubatic_tensor st1)) k.
Proof.
  intros Hindex Htwo Hc.
  destruct (compute_returns _ _ _ _ _ _ Hc)
    as (self1 & p0 & p & best & self2 & po & Hprep & Hp0 & Hp & Hsel & Hkeep & _ & ->).
  destruct (prepare_fields _ _ _ _ Hprep) as (HR & _).
  rewrite Htwo in HR.
  destruct (parallel_for_stores fuel self1 _ _ _ Hp) as (w & Hw & Hfst & Hof).
  cbn in Hfst.
  destruct w as [|[i0 st0] [|[i1 st1] [|? ?]]]; cbn [map fst] in Hfst;
    try discriminate.
  injection Hfst as -> ->.
  unfold stores in Hw. cbn [for_each] in Hw.
  destruct (store_replicate self1 0 st0 p0) as [pa| | |] eqn:Hs0; try discriminate.
  destruct (store_replicate self1 1 st1 pa) as [pb| | |] eqn:Hs1; try discriminate.
  injection Hw as ->.
  assert (Hst0 : replicate_of fuel self1 [mkRange 0 2] 0 st0)
    by (apply Hof; now left).
  assert (Hst1 : replicate_of fuel self1 [mkRange 0 2] 1 st1)
    by (apply Hof; right; now left).
  destruct (store_replicate_scalars self1 _ _ _ _ Hs0) as (Hq0 & Ho0 & _).
  destruct (store_replicate_scalars self1 _ _ _ _ Hs1) as (Hq1 & Ho1 & Hother).
  destruct (Hother 0%nat) as [Hq0' Ho0']; [discriminate|].
  rewrite Hq0 in Hq0'. rewrite Ho0 in Ho0'.
  destruct (store_replicate_cells self1 _ _ _ _ Hs0) as (Hrow0 & _).
  destruct (store_replicate_cells self1 _ _ _ _ Hs1) as (Hrow1 & Hout1).
  rewrite HR, Hindex in Hrow0, Hrow1, Hout1.
  cbn [Nat.mul Nat.add] in Hrow0, Hrow1, Hout1.
  pose proof (keep_replicate_cells _ _ _ _ Hkeep) as Hcells.
  rewrite HR, Hindex in Hcells. cbn [Nat.mul] in Hcells.
  destruct (keep_replicate_arrays _ _ _ _ Hkeep)
    as (_ & _ & _ & _ & _ & Hlen & Hq & _).
  rewrite HR, (select_max_two _ _ _ Ho0' Ho1) in Hsel.
  exists self1, st0, st1.
  split; [exact Hprep|]. split; [exact Hst0|]. split; [exact Hst1|].
  cbn [with_particle_order_parameter m_cubatic_orientation m_cubatic_tensor].
  destruct (gtb (cubatic_order_parameter st1) (cubatic_order_parameter st0));
    injection Hsel as <-.
  - split; [congruence|].
    pose proof (replicate_of_tensor_length _ _ _ _ _ Hst1) as Hlen1.
    destruct (m_cubatic_tensor self2) as [d], (cubatic_tensor st1) as [d1].
    cbn [data] in *. f_equal. apply nth_ext with (d := zero) (d' := zero).
    + congruence.
    + intros k Hk. rewrite Hlen in Hk. fold (get d k). fold (get d1 k).
      rewrite Hcells by exact Hk. cbn [Nat.add]. now apply (Hrow1 k).
  - split; [congruence|]. split.
    + rewrite Hcells by lia. cbn [Nat.add]. rewrite Hout1 by lia.
      apply (Hrow0 0%nat). lia.
    + intros k Hk. rewrite Hcells by lia. cbn [Nat.add].
      apply (Hrow1 k). lia.
Qed.

End SharedCells.

(** With that [Index2D], the order in which the two blocks of the sample
    run changes the cubatic tensor that [compute] stores, and nothing
    else. *)
Remark block_order_changes_tensor :
  exists out1 out2,
    compute (env := column_major_env) sample_fuel two_blocks
            column_major_object sample_orientations 2 = Returns out1 /\
    compute (env := column_major_env) sample_fuel two_blocks_swapped
            column_major_object sample_orientations 2 = Returns out2 /\
    m_cubatic_tensor out1 <> m_cubatic_tensor out2 /\
    m_cubatic_order_parameter out1 = m_cubatic_order_parameter out2 /\
    m_cubatic_orientation out1 = m_cubatic_orientation out2 /\
    m_particle_order_parameter out1 = m_particle_order_parameter out2.
Proof.
  eexists. eexists.
  split; [vm_compute; reflexivity|]. split; [vm_compute; reflexivity|].
  split; [|repeat split]. intros H. vm_compute in H. discriminate.
Qed.

Lemma two_replicates_share_cells_witness :
  exists self1 st0 st1,
    prepare (env := column_major_env) column_major_object sample_orientations 2
    = Returns self1 /\
    replicate_of (env := column_major_env) sample_fuel self1 [mkRange 0 2] 0 st0 /\
    replicate_of (env := column_major_env) sample_fuel self1 [mkRange 0 2] 1 st1 /\
    if gtb (cubatic_order_parameter st1) (cubatic_order_parameter st0)
    then m_cubatic_orientation column_major_computed = cubatic_orientation st1 /\
         m_cubatic_tensor column_major_computed = cubatic_tensor st1
    else m_cubatic_orientation column_major_computed = cubatic_orientation st0 /\
         get (data (m_cubatic_tensor column_major_computed)) 0
         = get (data (cubatic_tensor st0)) 0 /\
         forall k, (k < 80)%nat ->
           get (data (m_cubatic_tensor column_major_computed)) (S k)
           = get (data (cubatic_tensor st1)) k.
Proof.
  apply (two_replicates_share_cells (env := column_major_env) sample_fuel
           column_major_object sample_orientations 2 column_major_computed).
  - reflexivity.
  - reflexivity.
  - vm_compute. reflexivity.
Defined.

End CubaticFacts.
